(** * Athena / eos-vm: a shallow embedding of the x86_64 JIT writer and of the
    athena host code, with the properties of its specification.

    The JIT writer ([machine_code_writer] in eos-vm/include/eosio/vm/x86_64.hpp)
    is modelled at the level of machine instructions: every [emit_bytes] group
    of the source becomes one [X86.ins] together with the very bytes the
    source emits (their count gives the instruction size, hence the
    addresses).  Branch slots returned by [emit_branch_target32] are the
    addresses of the branch instructions, and [fix_branch] retargets them. *)

From Stdlib Require Import ZArith List Bool String Lia.
Import ListNotations.
Open Scope Z_scope.

(** ** Machine words *)
Module Word.
Definition u32 (z : Z) : Z := z mod 2^32.
Definition u64 (z : Z) : Z := z mod 2^64.
Definition s32 (z : Z) : Z :=
  let x := u32 z in if x <? 2^31 then x else x - 2^32.
Definition s64 (z : Z) : Z :=
  let x := u64 z in if x <? 2^63 then x else x - 2^64.
Definition s128 (z : Z) : Z :=
  let x := z mod 2^128 in if x <? 2^127 then x else x - 2^128.
(** replace the low [w] bits of [old] by those of [x] *)
Definition set_low (w old x : Z) : Z := old - old mod 2^w + x mod 2^w.
(** little-endian encodings, as [emit_operand32] / [emit_operand64] *)
Definition le32 (z : Z) : list Z :=
  map (fun k => (u32 z / 2^(8 * k)) mod 256) [0; 1; 2; 3].
Definition le64 (z : Z) : list Z :=
  map (fun k => (u64 z / 2^(8 * k)) mod 256) [0; 1; 2; 3; 4; 5; 6; 7].
End Word.
Import Word.

(** ** Exceptions of the host code *)

(** the exceptions of src/src/exceptions.h, each a class of its own below
    [AthenaException]; [StdException] is any other [std::exception] and
    [ForeignException] anything else that is thrown *)
Inductive exn :=
| InternalErrorException (msg : string)
| VMTrap (msg : string)
| ArgumentOutOfRange (msg : string)
| OutOfGas (msg : string)
| ContractValidationFailure (msg : string)
| InvalidMemoryAccess (msg : string)
| EndExecution (msg : string)
| StaticModeViolation (msg : string)
| StdException (msg : string)
| ForeignException.

(** ** The x86_64 subset emitted by the writer *)
Module X86.

Inductive reg := RAX | RCX | RDX | RBX | RSP | RBP | RSI | RDI.

Definition reg_eqb (a b : reg) : bool :=
  match a, b with
  | RAX, RAX | RCX, RCX | RDX, RDX | RBX, RBX
  | RSP, RSP | RBP, RBP | RSI, RSI | RDI, RDI => true
  | _, _ => false
  end.

(** branch targets: an address of the code buffer, the entry of function
    [k] (a relocation registered by [register_call]), an external label
    [k] fixed later by the parser, or a slot not fixed yet *)
Inductive tgt := TAddr (a : Z) | TFn (k : nat) | TLabel (k : nat) | TUnresolved.

(** condition codes: e/z, ne/nz, ae/nc, b/c, be, a, l, ge, le, g *)
Inductive cond := CE | CNE | CAE | CB | CBE | CA | CL | CGE | CLE | CG.

(** the two-operand ALU instructions, and the shifts and rotates by %cl *)
Inductive binop := BAdd | BSub | BAnd | BOr | BXor | BImul.
Inductive shop := SShl | SShr | SSar | SRol | SRor.

Inductive fwidth := F32 | F64.

(** [ICmpImm], [ITest], [IXor], [IDec32] and [IInc32] set ZF and CF only:
    the code that follows them reads no other flag *)
Inductive ins :=
| IPush (r : reg)                   (* pushq %r *)
| IPop (r : reg)                    (* popq %r *)
| IMovImm32 (r : reg) (imm : Z)     (* mov $imm, %r32 *)
| IMovAbs (r : reg) (imm : Z)       (* movabsq $imm, %r *)
| IMovRR (dst src : reg)            (* movq %src, %dst *)
| ILoadTop (w : Z) (r : reg)        (* mov (%rsp), %r (w bits) *)
| ICmpImm (w : Z) (r : reg) (imm : Z) (* cmp $imm, %r (w bits) *)
| ITest (w : Z) (r : reg)           (* test %r, %r (w bits) *)
| IJcc (c : cond) (t : tgt)
| IJmp (t : tgt)
| ILeaRip (r : reg) (t : tgt)       (* leaq t(%rip), %r *)
| IImulImm (r : reg) (imm : Z)      (* imul $imm, %r32, %r32 *)
| IAdd (dst src : reg)              (* addq %src, %dst *)
| ICallR (r : reg)                  (* callq *%r *)
| ICallRel (t : tgt)                (* callq t *)
| IRet
| ICdq
| ICqo
| IIdiv (w : Z) (r : reg)           (* idiv %r (w bits) *)
| IXor (w : Z) (dst src : reg)
| IDec32 (r : reg)
| IInc32 (r : reg)
| IAddRsp (imm : Z)                 (* add $imm, %rsp *)
| IAndRsp (imm : Z)                 (* andq $imm, %rsp *)
| ILeaRsp (r : reg) (disp : Z)      (* lea disp(%rsp), %r *)
| ILoadRspTop                       (* mov (%rsp), %rsp *)
| IMovsLoad (w : fwidth) (disp : Z) (* movss/movsd disp(%rsp), %xmm0 *)
| IMinS (w : fwidth) (disp : Z)     (* minss/minsd disp(%rsp), %xmm0 *)
| IMaxS (w : fwidth) (disp : Z)     (* maxss/maxsd disp(%rsp), %xmm0 *)
| IMovsStore (w : fwidth)           (* movss/movsd %xmm0, (%rsp) *)
| IInt3
| ICmpRR (w : Z) (a b : reg)        (* cmp %b, %a (w bits): the flags of a - b *)
| ISetcc (c : cond) (r : reg)       (* setcc %r8 (the low byte) *)
| IBin (op : binop) (w : Z) (d s : reg) (* op %s, %d (w bits) *)
| IBinImm (op : binop) (w : Z) (d : reg) (imm : Z) (* op $imm, %d (w bits) *)
| IShift (op : shop) (w : Z) (r : reg) (* shl/shr/sar/rol/ror %cl, %r (w bits) *)
| IDivU (w : Z) (r : reg)           (* div %r (w bits) *)
| INeg (w : Z) (r : reg)
| INot (w : Z) (r : reg)
| IBsr (w : Z) (d s : reg)          (* bsr %s, %d *)
| IBsf (w : Z) (d s : reg)          (* bsf %s, %d *)
| ILzcnt (w : Z) (d s : reg)
| ITzcnt (w : Z) (d s : reg)
| IPopcnt (w : Z) (d s : reg)
| ICmov (c : cond) (w : Z) (d s : reg) (* cmovcc %s, %d (w bits) *)
| IMovImmS (r : reg) (imm : Z)      (* movq $imm32, %r (sign-extended) *)
| ILoadRbp (r : reg) (disp : Z)     (* movq disp(%rbp), %r *)
| IStoreRbp (r : reg) (disp : Z)    (* movq %r, disp(%rbp) *)
| ICmovTop (c : cond) (r : reg)     (* cmovccq (%rsp), %r *)
| IStoreTop (r : reg)               (* movq %r, (%rsp) *)
| IStoreHi32 (r : reg)              (* mov %r32, 4(%rsp) *)
| ILoadTopS32 (r : reg)             (* movslq (%rsp), %r *)
| ILoadLin (n : Z) (sx : bool) (w : Z) (* mov[sz]x of n bytes (%rax) to %rax, extended to w bits *)
| IStoreLin (n : Z)                 (* mov of the low n bytes of %rcx to (%rax) *)
| ICmpS (w : fwidth) (pred : Z) (disp : Z) (* cmpCCss/sd disp(%rsp), %xmm0 *)
| IMovdEax.                         (* movd %xmm0, %eax *)

(** *** IEEE-754 comparison on bit patterns (what minss/maxss compute) *)
Definition fbits (w : fwidth) : Z := match w with F32 => 32 | F64 => 64 end.
Definition fmant (w : fwidth) : Z := match w with F32 => 23 | F64 => 52 end.
Definition fexp (w : fwidth) : Z := match w with F32 => 8 | F64 => 11 end.

Definition is_nan (w : fwidth) (x : Z) : bool :=
  let x := x mod 2^(fbits w) in
  let e := (x / 2^(fmant w)) mod 2^(fexp w) in
  let m := x mod 2^(fmant w) in
  (e =? 2^(fexp w) - 1) && negb (m =? 0).

Definition fsign (w : fwidth) (x : Z) : bool :=
  Z.testbit (x mod 2^(fbits w)) (fbits w - 1).

(** the order of non-NaN values: magnitude, negated for negative values
    (so +0 and -0 get the same key) *)
Definition fkey (w : fwidth) (x : Z) : Z :=
  let mag := x mod 2^(fbits w - 1) in
  if fsign w x then - mag else mag.

Definition flt (w : fwidth) (x y : Z) : bool :=
  negb (is_nan w x) && negb (is_nan w y) && (fkey w x <? fkey w y).

(** MINSS/MINSD: [dst := dst < src ? dst : src];
    MAXSS/MAXSD: [dst := dst > src ? dst : src] *)
Definition x86_min (w : fwidth) (dst src : Z) : Z :=
  if flt w dst src then dst else src.
Definition x86_max (w : fwidth) (dst src : Z) : Z :=
  if flt w src dst then dst else src.

(** equality of IEEE values: no NaN, same value (+0 = -0) *)
Definition feq (w : fwidth) (x y : Z) : bool :=
  negb (is_nan w x) && negb (is_nan w y) && (fkey w x =? fkey w y).

(** CMPSS/CMPSD: the predicate of the immediate (its low 3 bits) *)
Definition fcmp (pred : Z) (w : fwidth) (x y : Z) : bool :=
  match pred mod 8 with
  | 0 => feq w x y
  | 1 => flt w x y
  | 2 => flt w x y || feq w x y
  | 3 => is_nan w x || is_nan w y
  | 4 => negb (feq w x y)
  | 5 => negb (flt w x y)
  | 6 => negb (flt w x y || feq w x y)
  | _ => negb (is_nan w x || is_nan w y)
  end.

(** *** Integer operations on [w]-bit values *)

(** the two's complement value of the low [w] bits *)
Definition sw (w x : Z) : Z :=
  let x := x mod 2^w in if x <? 2^(w - 1) then x else x - 2^w.

Definition binop_value (op : binop) (w a b : Z) : Z :=
  match op with
  | BAdd => (a + b) mod 2^w
  | BSub => (a - b) mod 2^w
  | BAnd => Z.land a b
  | BOr => Z.lor a b
  | BXor => Z.lxor a b
  | BImul => (a * b) mod 2^w
  end.

(** CF and OF of the ALU instructions (imul sets both when the signed
    product does not fit) *)
Definition binop_cf (op : binop) (w a b : Z) : bool :=
  match op with
  | BAdd => 2^w <=? a + b
  | BSub => a <? b
  | BImul => negb (sw w (a * b) =? sw w a * sw w b)
  | _ => false
  end.
Definition binop_of (op : binop) (w a b : Z) : bool :=
  match op with
  | BAdd => negb (sw w (a + b) =? sw w a + sw w b)
  | BSub => negb (sw w (a - b) =? sw w a - sw w b)
  | BImul => negb (sw w (a * b) =? sw w a * sw w b)
  | _ => false
  end.

(** the shifts and rotates of [a] by [cnt] (already masked) *)
Definition shift_value (op : shop) (w a cnt : Z) : Z :=
  match op with
  | SShl => (a * 2^cnt) mod 2^w
  | SShr => a / 2^cnt
  | SSar => (sw w a / 2^cnt) mod 2^w
  | SRol => Z.lor ((a * 2^cnt) mod 2^w) (a / 2^(w - cnt))
  | SRor => Z.lor (a / 2^cnt) ((a * 2^(w - cnt)) mod 2^w)
  end.

(** leading zeros of the low [n] bits, trailing zeros and set bits of [a]
    in its low [n] bits (LZCNT, TZCNT and BSF, POPCNT) *)
Fixpoint count_lz (n : nat) (a : Z) : Z :=
  match n with
  | O => 0
  | S n' => if Z.testbit a (Z.of_nat n') then 0 else 1 + count_lz n' a
  end.
Fixpoint count_tz (n : nat) (a : Z) : Z :=
  match n with
  | O => 0
  | S n' => if Z.odd a then 0 else 1 + count_tz n' (Z.div2 a)
  end.
Fixpoint popcount (n : nat) (a : Z) : Z :=
  match n with
  | O => 0
  | S n' => (if Z.odd a then 1 else 0) + popcount n' (Z.div2 a)
  end.

(** [n] bytes of memory read little-endian from native address [a] *)
Fixpoint load_le (lm : Z -> Z) (a : Z) (n : nat) : Z :=
  match n with
  | O => 0
  | S n' => lm (a mod 2^64) mod 256 + 256 * load_le lm (a + 1) n'
  end.

(** the low [n] bytes of [v] written little-endian at native address [a] *)
Definition store_le (lm : Z -> Z) (a v n : Z) : Z -> Z :=
  fun x => let k := (x - a) mod 2^64 in
           if k <? n then (v / 2^(8 * k)) mod 256 else lm x.

(** *** Native functions reached through [movabsq $fn, %rax; callq *%rax] *)
Inductive native :=
| NCurrentMemory | NGrowMemory | NCallHostFunction
| NOnUnreachable | NOnFpError | NOnCallIndirectError | NOnTypeError
| NOnStackOverflow.

Definition native_index (n : native) : Z :=
  match n with
  | NCurrentMemory => 0 | NGrowMemory => 1 | NCallHostFunction => 2
  | NOnUnreachable => 3 | NOnFpError => 4 | NOnCallIndirectError => 5
  | NOnTypeError => 6 | NOnStackOverflow => 7
  end.

(** native code lives far away from the JIT code buffer *)
Definition native_base : Z := 2^47.
Definition native_addr (n : native) : Z := native_base + 16 * native_index n.

Definition all_natives : list native :=
  [NCurrentMemory; NGrowMemory; NCallHostFunction; NOnUnreachable;
   NOnFpError; NOnCallIndirectError; NOnTypeError; NOnStackOverflow].

Definition native_of_addr (a : Z) : option native :=
  find (fun n => native_addr n =? a) all_natives.

(** messages thrown by [on_unreachable], [on_fp_error], ... *)
Definition trap_message (n : native) : option string :=
  match n with
  | NOnUnreachable => Some "unreachable"%string
  | NOnFpError => Some "floating point error"%string
  | NOnCallIndirectError => Some "call_indirect out of range"%string
  | NOnTypeError => Some "call_indirect incorrect function type"%string
  | NOnStackOverflow => Some "stack overflow"%string
  | _ => None
  end.

(** the host side of [current_memory] / [grow_memory] and of
    [context->call_host_function(stack, idx)] (the [native_value] the host
    function returns, or the exception it throws); [junk] is the value a C
    function leaves in the caller-saved registers it clobbers and in the
    upper half of %rax when it returns an [int32_t] *)
Record native_env := {
  ne_current_memory : Z -> Z;      (* context (%rdi) -> pages *)
  ne_grow_memory : Z -> Z -> Z;    (* context (%rdi), pages -> old size or -1 *)
  ne_junk : Z;
  ne_call_host_function : Z -> Z -> Z -> exn + Z  (* context, stack, idx *)
}.

Record machine := mkM {
  regs : reg -> Z;
  xmm0 : Z;
  mem : Z -> Z;          (* 64-bit words of the native stack *)
  zf : bool;
  cf : bool;
  pc : Z;
  log : list (native * Z * Z * Z); (* native calls: (fn, %rsp, %rdi, %rsi) *)
  sf : bool;
  ovf : bool;
  lmem : Z -> Z          (* bytes of the linear memory, by native address *)
}.

Inductive fault := DivideError | Breakpoint.

Inductive outcome :=
| ODone (m : machine)               (* reached the stop address *)
| OEnter (k : nat) (m : machine)    (* jumped or called into function k *)
| OExit (k : nat) (m : machine)     (* branched to external label k *)
| OTrap (msg : string)              (* a trap handler threw *)
| OSignal (e : exn)                 (* a host function threw [e]; the JIT frames were left *)
| OFault (f : fault)                (* a CPU exception (SIGFPE, SIGTRAP) *)
| OStuck (m : machine)
| OOutOfFuel (m : machine).

Inductive step_result := SNext (m : machine) | SStop (o : outcome).

Definition get (m : machine) (r : reg) : Z := regs m r.
Definition set (r : reg) (v : Z) (m : machine) : machine :=
  mkM (fun r' => if reg_eqb r r' then v else regs m r')
      (xmm0 m) (mem m) (zf m) (cf m) (pc m) (log m) (sf m) (ovf m) (lmem m).
Definition set_xmm0 (v : Z) (m : machine) : machine :=
  mkM (regs m) v (mem m) (zf m) (cf m) (pc m) (log m) (sf m) (ovf m) (lmem m).
Definition store (a v : Z) (m : machine) : machine :=
  mkM (regs m) (xmm0 m) (fun a' => if a' =? a then v else mem m a')
      (zf m) (cf m) (pc m) (log m) (sf m) (ovf m) (lmem m).
Definition set_flags (z c : bool) (m : machine) : machine :=
  mkM (regs m) (xmm0 m) (mem m) z c (pc m) (log m) (sf m) (ovf m) (lmem m).
Definition set_pc (a : Z) (m : machine) : machine :=
  mkM (regs m) (xmm0 m) (mem m) (zf m) (cf m) a (log m) (sf m) (ovf m) (lmem m).
Definition add_log (e : native * Z * Z * Z) (m : machine) : machine :=
  mkM (regs m) (xmm0 m) (mem m) (zf m) (cf m) (pc m) (log m ++ [e]) (sf m) (ovf m) (lmem m).

(** all four status flags: ZF, CF, SF, OF *)
Definition set_all_flags (z c sg o : bool) (m : machine) : machine :=
  mkM (regs m) (xmm0 m) (mem m) z c (pc m) (log m) sg o (lmem m).
Definition set_lmem (lm : Z -> Z) (m : machine) : machine :=
  mkM (regs m) (xmm0 m) (mem m) (zf m) (cf m) (pc m) (log m) (sf m) (ovf m) lm.

Definition push (v : Z) (m : machine) : machine :=
  let sp := u64 (get m RSP - 8) in store sp v (set RSP sp m).
Definition pop (m : machine) : Z * machine :=
  let sp := get m RSP in (mem m sp, set RSP (u64 (sp + 8)) m).

Definition jump (t : tgt) (m : machine) : step_result :=
  match t with
  | TAddr a => SNext (set_pc a m)
  | TFn k => SStop (OEnter k m)
  | TLabel k => SStop (OExit k m)
  | TUnresolved => SStop (OStuck m)
  end.

Definition cond_holds (c : cond) (m : machine) : bool :=
  match c with
  | CE => zf m | CNE => negb (zf m) | CAE => negb (cf m)
  | CB => cf m | CBE => cf m || zf m | CA => negb (cf m) && negb (zf m)
  | CL => xorb (sf m) (ovf m) | CGE => negb (xorb (sf m) (ovf m))
  | CLE => zf m || xorb (sf m) (ovf m)
  | CG => negb (zf m) && negb (xorb (sf m) (ovf m))
  end.

(** the flags an ALU operation [op] on [a] and [b] sets, its result [v] *)
Definition alu_flags (op : binop) (w a b v : Z) (m : machine) : machine :=
  set_all_flags (v =? 0) (binop_cf op w a b) (Z.testbit v (w - 1)) (binop_of op w a b) m.

(** Modelled from the spec: [vm::longjmp_on_exception] (eos-vm's
    signals.hpp, not in src) runs the callback; an exception it throws is
    saved and control leaves the JIT frames by a [siglongjmp], not by
    unwinding them *)
Inductive shim_result := ShimReturn (v : Z) | ShimSignal (e : exn).

Definition longjmp_on_exception (f : exn + Z) : shim_result :=
  match f with inl e => ShimSignal e | inr v => ShimReturn v end.

(** [call_host_function(context, stack, idx)]: the host function runs
    under [longjmp_on_exception] *)
Definition call_host_function (env : native_env) (context stack idx : Z) : shim_result :=
  longjmp_on_exception (ne_call_host_function env context stack idx).

(** a call of a native C function: the return address is pushed and
    popped again, the caller-saved registers are clobbered *)
Definition native_call (env : native_env) (n : native) (next : Z)
           (m : machine) : step_result :=
  let m := add_log (n, get m RSP, get m RDI, get m RSI) m in
  let clobber (res : Z) :=
    set_pc next
      (set_xmm0 (ne_junk env)
         (set RDI (ne_junk env) (set RSI (ne_junk env)
            (set RDX (ne_junk env) (set RCX (ne_junk env)
               (set RAX (set_low 32 (ne_junk env) res) m)))))) in
  match n with
  | NCurrentMemory => SNext (clobber (ne_current_memory env (get m RDI)))
  | NGrowMemory =>
      SNext (clobber (ne_grow_memory env (get m RDI) (s32 (get m RSI))))
  | NCallHostFunction =>
      (* the [native_value] comes back in the whole of %rax *)
      match call_host_function env (get m RDI) (get m RSI) (u32 (get m RDX)) with
      | ShimReturn v =>
          SNext (set_pc next
            (set_xmm0 (ne_junk env)
               (set RDI (ne_junk env) (set RSI (ne_junk env)
                  (set RDX (ne_junk env) (set RCX (ne_junk env)
                     (set RAX (u64 v) m)))))))
      | ShimSignal e => SStop (OSignal e)
      end
  | _ =>
      match trap_message n with
      | Some msg => SStop (OTrap msg)
      | None => SStop (OStuck m)
      end
  end.

Definition exec (env : native_env) (i : ins) (size : Z) (m : machine)
  : step_result :=
  let next := pc m + size in
  let adv m := SNext (set_pc next m) in
  match i with
  | IPush r => adv (push (get m r) m)
  | IPop r => let '(v, m) := pop m in adv (set r v m)
  | IMovImm32 r imm => adv (set r (u32 imm) m)
  | IMovAbs r imm => adv (set r (u64 imm) m)
  | IMovRR d s => adv (set d (get m s) m)
  | ILoadTop w r => adv (set r (mem m (get m RSP) mod 2^w) m)
  | ICmpImm w r imm =>
      let a := get m r mod 2^w in
      let b := imm mod 2^w in
      adv (set_flags (a =? b) (a <? b) m)
  | ITest w r => adv (set_flags (get m r mod 2^w =? 0) false m)
  | IJcc c t => if cond_holds c m then jump t m else adv m
  | IJmp t => jump t m
  | ILeaRip r t =>
      match t with
      | TAddr a => adv (set r a m)
      | _ => SStop (OStuck m)
      end
  | IImulImm r imm => adv (set r (u32 (u32 (get m r) * imm)) m)
  | IAdd d s => adv (set d (u64 (get m d + get m s)) m)
  | ICallR r =>
      let target := get m r in
      match native_of_addr target with
      | Some n => native_call env n next m
      | None => SNext (set_pc target (push next m))
      end
  | ICallRel t => jump t (push next m)
  | IRet => let '(a, m) := pop m in SNext (set_pc a m)
  | ICdq => adv (set RDX (if s32 (get m RAX) <? 0 then 2^32 - 1 else 0) m)
  | ICqo => adv (set RDX (if s64 (get m RAX) <? 0 then 2^64 - 1 else 0) m)
  | IIdiv 32 r =>
      let d := s32 (get m r) in
      let n := s64 (u32 (get m RDX) * 2^32 + u32 (get m RAX)) in
      if d =? 0 then SStop (OFault DivideError) else
      let q := Z.quot n d in
      if (q <? - 2^31) || (2^31 <=? q) then SStop (OFault DivideError) else
      adv (set RDX (u32 (Z.rem n d)) (set RAX (u32 q) m))
  | IIdiv 64 r =>
      let d := s64 (get m r) in
      let n := s128 (u64 (get m RDX) * 2^64 + u64 (get m RAX)) in
      if d =? 0 then SStop (OFault DivideError) else
      let q := Z.quot n d in
      if (q <? - 2^63) || (2^63 <=? q) then SStop (OFault DivideError) else
      adv (set RDX (u64 (Z.rem n d)) (set RAX (u64 q) m))
  | IIdiv _ _ => SStop (OStuck m)
  | IXor w d s =>
      let v := Z.lxor (get m d mod 2^w) (get m s mod 2^w) in
      adv (set_flags (v =? 0) false (set d v m))
  | IDec32 r =>
      let v := u32 (get m r - 1) in adv (set_flags (v =? 0) (cf m) (set r v m))
  | IInc32 r =>
      let v := u32 (get m r + 1) in adv (set_flags (v =? 0) (cf m) (set r v m))
  | IAddRsp imm => adv (set RSP (u64 (get m RSP + imm)) m)
  | IAndRsp imm => adv (set RSP (Z.land (get m RSP) (u64 imm)) m)
  | ILeaRsp r disp => adv (set r (u64 (get m RSP + disp)) m)
  | ILoadRspTop => adv (set RSP (mem m (get m RSP)) m)
  | IMovsLoad w disp =>
      adv (set_xmm0 (mem m (u64 (get m RSP + disp)) mod 2^(fbits w)) m)
  | IMinS w disp =>
      let src := mem m (u64 (get m RSP + disp)) mod 2^(fbits w) in
      let dst := xmm0 m mod 2^(fbits w) in
      adv (set_xmm0 (set_low (fbits w) (xmm0 m) (x86_min w dst src)) m)
  | IMaxS w disp =>
      let src := mem m (u64 (get m RSP + disp)) mod 2^(fbits w) in
      let dst := xmm0 m mod 2^(fbits w) in
      adv (set_xmm0 (set_low (fbits w) (xmm0 m) (x86_max w dst src)) m)
  | IMovsStore w =>
      let sp := get m RSP in
      adv (store sp (set_low (fbits w) (mem m sp) (xmm0 m)) m)
  | IInt3 => SStop (OFault Breakpoint)
  (* a w-bit result written to a register clears its upper half (w = 32) *)
  | ICmpRR w d s =>
      let a := get m d mod 2^w in
      let b := get m s mod 2^w in
      adv (alu_flags BSub w a b (binop_value BSub w a b) m)
  | ISetcc c r =>
      adv (set r (set_low 8 (get m r) (if cond_holds c m then 1 else 0)) m)
  | IBin op w d s =>
      let a := get m d mod 2^w in
      let b := get m s mod 2^w in
      let v := binop_value op w a b in
      adv (alu_flags op w a b v (set d v m))
  | IBinImm op w d imm =>
      let a := get m d mod 2^w in
      let b := imm mod 2^w in
      let v := binop_value op w a b in
      adv (alu_flags op w a b v (set d v m))
  (* the flags a shift or rotate sets are not modelled: no emitted
     sequence reads them *)
  | IShift op w r =>
      let cnt := get m RCX mod (if w =? 64 then 64 else 32) in
      adv (set r (shift_value op w (get m r mod 2^w) cnt) m)
  | IDivU w r =>
      let d := get m r mod 2^w in
      let n := (get m RDX mod 2^w) * 2^w + get m RAX mod 2^w in
      if d =? 0 then SStop (OFault DivideError) else
      if 2^w <=? n / d then SStop (OFault DivideError) else
      adv (set RDX (n mod d) (set RAX (n / d) m))
  | INeg w r =>
      let a := get m r mod 2^w in
      let v := (- a) mod 2^w in
      adv (set_all_flags (v =? 0) (negb (a =? 0)) (Z.testbit v (w - 1))
             (a =? 2^(w - 1)) (set r v m))
  | INot w r => adv (set r (Z.lxor (get m r mod 2^w) (2^w - 1)) m)
  (* BSR/BSF: ZF tells a zero source, whose destination is undefined *)
  | IBsr w d s =>
      let a := get m s mod 2^w in
      if a =? 0 then adv (set_flags true (cf m) (set d (ne_junk env mod 2^w) m))
      else adv (set_flags false (cf m) (set d (Z.log2 a) m))
  | IBsf w d s =>
      let a := get m s mod 2^w in
      if a =? 0 then adv (set_flags true (cf m) (set d (ne_junk env mod 2^w) m))
      else adv (set_flags false (cf m) (set d (count_tz (Z.to_nat w) a) m))
  | ILzcnt w d s =>
      let a := get m s mod 2^w in
      let v := count_lz (Z.to_nat w) a in
      adv (set_flags (v =? 0) (a =? 0) (set d v m))
  | ITzcnt w d s =>
      let a := get m s mod 2^w in
      let v := count_tz (Z.to_nat w) a in
      adv (set_flags (v =? 0) (a =? 0) (set d v m))
  | IPopcnt w d s =>
      let a := get m s mod 2^w in
      adv (set_all_flags (a =? 0) false false false (set d (popcount (Z.to_nat w) a) m))
  | ICmov c w d s =>
      if cond_holds c m then adv (set d (get m s mod 2^w) m)
      else adv (set d (get m d mod 2^w) m)
  | IMovImmS r imm => adv (set r (u64 imm) m)
  | ILoadRbp r disp => adv (set r (mem m (u64 (get m RBP + disp))) m)
  | IStoreRbp r disp => adv (store (u64 (get m RBP + disp)) (get m r) m)
  | ICmovTop c r =>
      if cond_holds c m then adv (set r (mem m (get m RSP)) m) else adv m
  | IStoreTop r => adv (store (get m RSP) (get m r) m)
  | IStoreHi32 r =>
      let sp := get m RSP in
      adv (store sp (mem m sp mod 2^32 + u32 (get m r) * 2^32) m)
  | ILoadTopS32 r => adv (set r (u64 (s32 (mem m (get m RSP)))) m)
  | ILoadLin n sx w =>
      let v := load_le (lmem m) (get m RAX) (Z.to_nat n) in
      adv (set RAX (if sx then sw (8 * n) v mod 2^w else v) m)
  | IStoreLin n =>
      adv (set_lmem (store_le (lmem m) (get m RAX) (get m RCX) n) m)
  | ICmpS w pred disp =>
      let src := mem m (u64 (get m RSP + disp)) mod 2^(fbits w) in
      let dst := xmm0 m mod 2^(fbits w) in
      adv (set_xmm0 (set_low (fbits w) (xmm0 m)
                       (if fcmp pred w dst src then 2^(fbits w) - 1 else 0)) m)
  | IMovdEax => adv (set RAX (xmm0 m mod 2^32) m)
  end.

(** code memory: address -> (instruction, size in bytes) *)
Definition codemem := Z -> option (ins * Z).

Definition step (env : native_env) (cm : codemem) (m : machine) : step_result :=
  match cm (pc m) with
  | Some (i, size) => exec env i size m
  | None => SStop (OStuck m)
  end.

Fixpoint run (fuel : nat) (env : native_env) (cm : codemem) (stop : Z)
         (m : machine) : outcome :=
  match fuel with
  | O => OOutOfFuel m
  | S f =>
      if pc m =? stop then ODone m else
      match step env cm m with
      | SNext m' => run f env cm stop m'
      | SStop o => o
      end
  end.

End X86.
Import X86.

(** ** The code buffer and the writer monad *)
Module Writer.

Record wstate := mkW { code : Z; cmem : codemem }.

(** [machine_code_writer] methods: state passing over the code buffer,
    [None] when an [assert] of the source fails *)
Definition W (A : Type) : Type := wstate -> option (A * wstate).

Definition ret {A} (a : A) : W A := fun w => Some (a, w).
Definition bind {A B} (c : W A) (k : A -> W B) : W B :=
  fun w => match c w with Some (a, w') => k a w' | None => None end.
Definition fail {A} : W A := fun _ => None.

Declare Scope writer_scope.
Notation "x <- c ;; k" := (bind c (fun x => k))
  (at level 61, c at next level, right associativity) : writer_scope.
Notation "c ;; k" := (bind c (fun _ => k))
  (at level 61, right associativity) : writer_scope.
Open Scope writer_scope.

Definition get_code : W Z := fun w => Some (code w, w).

(** [emit_bytes(bs...)]: the instruction [i], encoded as [bs], is placed
    at the current address *)
Definition emit (bs : list Z) (i : ins) : W unit :=
  fun w =>
    let sz := Z.of_nat (List.length bs) in
    Some (tt, mkW (code w + sz)
                  (fun a => if a =? code w then Some (i, sz) else cmem w a)).

(** [emit_bytes(op...); slot = emit_branch_target32()]: a branch whose
    rel32 is not fixed yet; the slot is the branch instruction's address *)
Definition emit_branch (bs : list Z) (mk : tgt -> ins) : W Z :=
  fun w =>
    let sz := Z.of_nat (List.length bs) + 4 in
    Some (code w,
          mkW (code w + sz)
              (fun a => if a =? code w then Some (mk TUnresolved, sz)
                        else cmem w a)).

Definition retarget (t : tgt) (i : ins) : ins :=
  match i with
  | IJcc c _ => IJcc c t
  | IJmp _ => IJmp t
  | ILeaRip r _ => ILeaRip r t
  | ICallRel _ => ICallRel t
  | i => i
  end.

(** [fix_branch(slot, target)] *)
Definition fix_branch (slot : Z) (t : tgt) : W unit :=
  fun w =>
    Some (tt, mkW (code w)
                (fun a => match cmem w a with
                          | Some (i, sz) =>
                              Some (if a =? slot then retarget t i else i, sz)
                          | None => None
                          end)).

(** [fix_branch(slot, code)] *)
Definition fix_here (slot : Z) : W unit :=
  c <- get_code ;; fix_branch slot (TAddr c).

Fixpoint emit_all (ops : list (list Z * ins)) : W unit :=
  match ops with
  | [] => ret tt
  | (bs, i) :: ops => emit bs i ;; emit_all ops
  end.

End Writer.
Import Writer.

(** ** Emitters of [machine_code_writer] *)
Module Emit.

(** [emit_i32_binop(op...)]: the op bytes of the callers hold one or more
    instructions, given here as (bytes, instruction) pairs *)
Definition emit_i32_binop (ops : list (list Z * ins)) : W unit :=
  (* popq %rcx *) emit [0x59] (IPop RCX) ;;
  (* popq %rax *) emit [0x58] (IPop RAX) ;;
  emit_all ops.

Definition emit_i64_binop (ops : list (list Z * ins)) : W unit :=
  (* popq %rcx *) emit [0x59] (IPop RCX) ;;
  (* popq %rax *) emit [0x58] (IPop RAX) ;;
  emit_all ops.

(** cdq; idiv %ecx; pushq %rax *)
Definition emit_i32_div_s : W unit :=
  emit_i32_binop [([0x99], ICdq); ([0xf7; 0xf9], IIdiv 32 RCX);
                  ([0x50], IPush RAX)].

(** cqo; idiv %rcx; pushq %rax *)
Definition emit_i64_div_s : W unit :=
  emit_i64_binop [([0x48; 0x99], ICqo); ([0x48; 0xf7; 0xf9], IIdiv 64 RCX);
                  ([0x50], IPush RAX)].

Definition emit_i32_rem_s : W unit :=
  (* pop %rcx *) emit [0x59] (IPop RCX) ;;
  (* pop %rax *) emit [0x58] (IPop RAX) ;;
  (* cmp $-1, %ecx *) emit [0x83; 0xf9; 0xff] (ICmpImm 32 RCX (-1)) ;;
  (* je MINUS1 *) minus1 <- emit_branch [0x0f; 0x84] (IJcc CE) ;;
  (* cdq *) emit [0x99] ICdq ;;
  (* idiv %ecx *) emit [0xf7; 0xf9] (IIdiv 32 RCX) ;;
  (* jmp END *) end_ <- emit_branch [0xe9] IJmp ;;
  (* MINUS1: *) fix_here minus1 ;;
  (* xor %edx, %edx *) emit [0x31; 0xd2] (IXor 32 RDX RDX) ;;
  (* END: *) fix_here end_ ;;
  (* push %rdx *) emit [0x52] (IPush RDX).

Definition emit_i64_rem_s : W unit :=
  (* pop %rcx *) emit [0x59] (IPop RCX) ;;
  (* pop %rax *) emit [0x58] (IPop RAX) ;;
  (* cmp $-1, %rcx *) emit [0x48; 0x83; 0xf9; 0xff] (ICmpImm 64 RCX (-1)) ;;
  (* je MINUS1 *) minus1 <- emit_branch [0x0f; 0x84] (IJcc CE) ;;
  (* cqo *) emit [0x48; 0x99] ICqo ;;
  (* idiv %rcx *) emit [0x48; 0xf7; 0xf9] (IIdiv 64 RCX) ;;
  (* jmp END *) end_ <- emit_branch [0xe9] IJmp ;;
  (* MINUS1: *) fix_here minus1 ;;
  (* xor %edx, %edx *) emit [0x31; 0xd2] (IXor 32 RDX RDX) ;;
  (* END: *) fix_here end_ ;;
  (* push %rdx *) emit [0x52] (IPush RDX).

(** [emit_current_memory] *)
Definition emit_current_memory : W unit :=
  (* pushq %rdi *) emit [0x57] (IPush RDI) ;;
  (* pushq %rsi *) emit [0x56] (IPush RSI) ;;
  (* movabsq $current_memory, %rax *)
  emit ([0x48; 0xb8] ++ le64 (native_addr NCurrentMemory))
       (IMovAbs RAX (native_addr NCurrentMemory)) ;;
  (* call *%rax *) emit [0xff; 0xd0] (ICallR RAX) ;;
  (* pop %rsi *) emit [0x5e] (IPop RSI) ;;
  (* pop %rdi *) emit [0x5f] (IPop RDI) ;;
  (* push %rax *) emit [0x50] (IPush RAX).

(** [emit_grow_memory] *)
Definition emit_grow_memory : W unit :=
  (* popq %rax *) emit [0x58] (IPop RAX) ;;
  (* pushq %rdi *) emit [0x57] (IPush RDI) ;;
  (* pushq %rsi *) emit [0x56] (IPush RSI) ;;
  (* movq %rax, %rsi *) emit [0x48; 0x89; 0xc6] (IMovRR RSI RAX) ;;
  (* movabsq $grow_memory, %rax *)
  emit ([0x48; 0xb8] ++ le64 (native_addr NGrowMemory))
       (IMovAbs RAX (native_addr NGrowMemory)) ;;
  (* call *%rax *) emit [0xff; 0xd0] (ICallR RAX) ;;
  (* pop %rsi *) emit [0x5e] (IPop RSI) ;;
  (* pop %rdi *) emit [0x5f] (IPop RDI) ;;
  (* push %rax *) emit [0x50] (IPush RAX).

(** [emit_f32_min] *)
Definition emit_f32_min : W unit :=
  (* mov (%rsp), %eax *) emit [0x8b; 0x04; 0x24] (ILoadTop 32 RAX) ;;
  (* test %eax, %eax *) emit [0x85; 0xc0] (ITest 32 RAX) ;;
  (* je ZERO *) zero <- emit_branch [0x0f; 0x84] (IJcc CE) ;;
  (* movss 8(%rsp), %xmm0 *) emit [0xf3; 0x0f; 0x10; 0x44; 0x24; 0x08] (IMovsLoad F32 8) ;;
  (* minss (%rsp), %xmm0 *) emit [0xf3; 0x0f; 0x5d; 0x04; 0x24] (IMinS F32 0) ;;
  (* jmp DONE *) done_ <- emit_branch [0xe9] IJmp ;;
  (* ZERO: *) fix_here zero ;;
  (* movss (%rsp), %xmm0 *) emit [0xf3; 0x0f; 0x10; 0x04; 0x24] (IMovsLoad F32 0) ;;
  (* minss 8(%rsp), %xmm0 *) emit [0xf3; 0x0f; 0x5d; 0x44; 0x24; 0x08] (IMinS F32 8) ;;
  (* DONE: *) fix_here done_ ;;
  (* add $8, %rsp *) emit [0x48; 0x83; 0xc4; 0x08] (IAddRsp 8) ;;
  (* movss %xmm0, (%rsp) *) emit [0xf3; 0x0f; 0x11; 0x04; 0x24] (IMovsStore F32).

(** [emit_f32_max] *)
Definition emit_f32_max : W unit :=
  (* mov (%rsp), %eax *) emit [0x8b; 0x04; 0x24] (ILoadTop 32 RAX) ;;
  (* test %eax, %eax *) emit [0x85; 0xc0] (ITest 32 RAX) ;;
  (* je ZERO *) zero <- emit_branch [0x0f; 0x84] (IJcc CE) ;;
  (* movss (%rsp), %xmm0 *) emit [0xf3; 0x0f; 0x10; 0x04; 0x24] (IMovsLoad F32 0) ;;
  (* maxss 8(%rsp), %xmm0 *) emit [0xf3; 0x0f; 0x5f; 0x44; 0x24; 0x08] (IMaxS F32 8) ;;
  (* jmp DONE *) done_ <- emit_branch [0xe9] IJmp ;;
  (* ZERO: *) fix_here zero ;;
  (* movss 8(%rsp), %xmm0 *) emit [0xf3; 0x0f; 0x10; 0x44; 0x24; 0x08] (IMovsLoad F32 8) ;;
  (* maxss (%rsp), %xmm0 *) emit [0xf3; 0x0f; 0x5f; 0x04; 0x24] (IMaxS F32 0) ;;
  (* DONE: *) fix_here done_ ;;
  (* add $8, %rsp *) emit [0x48; 0x83; 0xc4; 0x08] (IAddRsp 8) ;;
  (* movss %xmm0, (%rsp) *) emit [0xf3; 0x0f; 0x11; 0x04; 0x24] (IMovsStore F32).

(** [emit_f64_min] *)
Definition emit_f64_min : W unit :=
  (* mov (%rsp), %rax *) emit [0x48; 0x8b; 0x04; 0x24] (ILoadTop 64 RAX) ;;
  (* test %rax, %rax *) emit [0x48; 0x85; 0xc0] (ITest 64 RAX) ;;
  (* je ZERO *) zero <- emit_branch [0x0f; 0x84] (IJcc CE) ;;
  (* movsd 8(%rsp), %xmm0 *) emit [0xf2; 0x0f; 0x10; 0x44; 0x24; 0x08] (IMovsLoad F64 8) ;;
  (* minsd (%rsp), %xmm0 *) emit [0xf2; 0x0f; 0x5d; 0x04; 0x24] (IMinS F64 0) ;;
  (* jmp DONE *) done_ <- emit_branch [0xe9] IJmp ;;
  (* ZERO: *) fix_here zero ;;
  (* movsd (%rsp), %xmm0 *) emit [0xf2; 0x0f; 0x10; 0x04; 0x24] (IMovsLoad F64 0) ;;
  (* minsd 8(%rsp), %xmm0 *) emit [0xf2; 0x0f; 0x5d; 0x44; 0x24; 0x08] (IMinS F64 8) ;;
  (* DONE: *) fix_here done_ ;;
  (* add $8, %rsp *) emit [0x48; 0x83; 0xc4; 0x08] (IAddRsp 8) ;;
  (* movsd %xmm0, (%rsp) *) emit [0xf2; 0x0f; 0x11; 0x04; 0x24] (IMovsStore F64).

(** [emit_f64_max] *)
Definition emit_f64_max : W unit :=
  (* mov (%rsp), %rax *) emit [0x48; 0x8b; 0x04; 0x24] (ILoadTop 64 RAX) ;;
  (* test %rax, %rax *) emit [0x48; 0x85; 0xc0] (ITest 64 RAX) ;;
  (* je ZERO *) zero <- emit_branch [0x0f; 0x84] (IJcc CE) ;;
  (* movsd (%rsp), %xmm0 (commented maxsd in the source) *) emit [0xf2; 0x0f; 0x10; 0x04; 0x24] (IMovsLoad F64 0) ;;
  (* maxsd 8(%rsp), %xmm0 *) emit [0xf2; 0x0f; 0x5f; 0x44; 0x24; 0x08] (IMaxS F64 8) ;;
  (* jmp DONE *) done_ <- emit_branch [0xe9] IJmp ;;
  (* ZERO: *) fix_here zero ;;
  (* movsd 8(%rsp), %xmm0 *) emit [0xf2; 0x0f; 0x10; 0x44; 0x24; 0x08] (IMovsLoad F64 8) ;;
  (* maxsd (%rsp), %xmm0 *) emit [0xf2; 0x0f; 0x5f; 0x04; 0x24] (IMaxS F64 0) ;;
  (* DONE: *) fix_here done_ ;;
  (* add $8, %rsp *) emit [0x48; 0x83; 0xc4; 0x08] (IAddRsp 8) ;;
  (* movsd %xmm0, (%rsp) *) emit [0xf2; 0x0f; 0x11; 0x04; 0x24] (IMovsStore F64).

End Emit.
Import Emit.

(** ** Running an emitted snippet *)
Module Snip.
(** a stack holding [vals] (top first) at [sp], code at [pc0] *)
Definition stack_machine (sp pc0 : Z) (vals : list Z) : machine :=
  mkM (fun r => match r with RSP => sp | _ => 0 end) 0
      (fun a => if (sp <=? a) && (a <? sp + 8 * Z.of_nat (List.length vals))
                then nth (Z.to_nat ((a - sp) / 8)) vals 0 else 0)
      false false pc0 [] false false (fun _ => 0).

Definition empty_code (c : Z) : wstate := mkW c (fun _ => None).

Definition null_env : native_env :=
  Build_native_env (fun _ => 0) (fun _ _ => -1) 0 (fun _ _ _ => inr 0).

(** emit [e] into an empty buffer at [c] and run it on [vals] *)
Definition run_snippet (e : W unit) (c sp : Z) (vals : list Z) : option outcome :=
  match e (empty_code c) with
  | Some (_, w) => Some (run 100 null_env (cmem w) (code w) (stack_machine sp c vals))
  | None => None
  end.

(** the snippet ran to its end, leaving [v] on top of the stack at [sp] *)
Definition returns_top (o : outcome) (sp v : Z) : Prop :=
  exists m', o = ODone m' /\ get m' RSP = sp /\ mem m' sp = v.

(** the writer state after emitting [e] *)
Definition emitted (e : W unit) (w : wstate) : wstate :=
  match e w with Some (_, w') => w' | None => w end.

Definition top_after (o : option outcome) : option Z :=
  match o with
  | Some (ODone m) => Some (mem m (get m RSP))
  | _ => None
  end.
End Snip.
Import Snip.

(** ** Calls: the writer's constructor, [emit_call], [emit_call_indirect] *)
Module Calls.

(** [func_type]: the number of parameters and of results *)
Record func_type := mkFuncType { param_count : Z; return_count : Z }.

(** the parts of eos-vm's [module] the writer reads (its header is not in
    src): the number of imported functions, the function indices of each
    table ([tables[k].table]), the canonical type index of each function
    ([fast_functions]) and of each type ([type_aliases]) *)
Record module := mkmodule {
  imported_functions_size : Z;
  tables : list (list Z);
  fast_functions : list Z;
  type_aliases : list Z }.

(** the addresses the writer keeps in its members *)
Record jit_addrs := mkAddrs {
  fpe_handler : Z;
  call_indirect_handler : Z;
  type_error_handler : Z;
  stack_overflow_handler : Z;
  jmp_table : Z }.

(** [fix_branch(emit_branch_target32(), t)] after the opcode bytes [bs] *)
Definition branch_to (bs : list Z) (mk : tgt -> ins) (t : tgt) : W unit :=
  s <- emit_branch bs mk ;; fix_branch s t.

(** [emit_error_handler(handler)]: 16 bytes *)
Definition emit_error_handler (n : native) : W Z :=
  result <- get_code ;;
  (* andq $-16, %rsp *) emit [0x48; 0x83; 0xe4; 0xf0] (IAndRsp (-16)) ;;
  (* movabsq $handler, %rax *)
  emit ([0x48; 0xb8] ++ le64 (native_addr n)) (IMovAbs RAX (native_addr n)) ;;
  (* callq *%rax *) emit [0xff; 0xd0] (ICallR RAX) ;;
  ret result.

Definition emit_align_stack : W unit :=
  (* mov %rsp, %rcx *) emit [0x48; 0x89; 0xe1] (IMovRR RCX RSP) ;;
  (* andq $-16, %rsp *) emit [0x48; 0x83; 0xe4; 0xf0] (IAndRsp (-16)) ;;
  (* push %rcx *) emit [0x51] (IPush RCX) ;;
  (* push %rcx *) emit [0x51] (IPush RCX).

Definition emit_restore_stack : W unit :=
  (* mov (%rsp), %rsp *) emit [0x48; 0x8b; 0x24; 0x24] ILoadRspTop.

(** [emit_host_call(funcnum)]: 40 bytes *)
Definition emit_host_call (funcnum : Z) : W unit :=
  (* mov $funcnum, %edx *) emit ([0xba] ++ le32 funcnum) (IMovImm32 RDX funcnum) ;;
  (* pushq %rdi *) emit [0x57] (IPush RDI) ;;
  (* pushq %rsi *) emit [0x56] (IPush RSI) ;;
  (* lea 24(%rsp), %rsi *) emit [0x48; 0x8d; 0x74; 0x24; 0x18] (ILeaRsp RSI 24) ;;
  emit_align_stack ;;
  (* movabsq $call_host_function, %rax *)
  emit ([0x48; 0xb8] ++ le64 (native_addr NCallHostFunction))
       (IMovAbs RAX (native_addr NCallHostFunction)) ;;
  (* callq *%rax *) emit [0xff; 0xd0] (ICallR RAX) ;;
  emit_restore_stack ;;
  (* popq %rsi *) emit [0x5e] (IPop RSI) ;;
  (* popq %rdi *) emit [0x5f] (IPop RDI) ;;
  (* retq *) emit [0xc3] IRet.

(** the loop over the imported functions ([start_function] records the
    entry of function [i]; calls reach entries as [TFn]) *)
Fixpoint emit_host_calls (n : nat) (i : Z) : W unit :=
  match n with
  | O => ret tt
  | S n => emit_host_call i ;; emit_host_calls n (i + 1)
  end.

(** one entry of the jump table: 17 bytes ([register_call] gives the
    branch to the function the target [TFn]) *)
Definition emit_table_entry (md : module) (cih teh : Z) (fn_idx : Z) : W unit :=
  if fn_idx <? Z.of_nat (List.length (fast_functions md)) then
    let ff := nth (Z.to_nat fn_idx) (fast_functions md) 0 in
    (* cmp _mod.fast_functions[fn_idx], %edx *)
    emit ([0x81; 0xfa] ++ le32 ff) (ICmpImm 32 RDX ff) ;;
    (* je fn *) branch_to [0x0f; 0x84] (IJcc CE) (TFn (Z.to_nat fn_idx)) ;;
    (* jmp ERROR *) branch_to [0xe9] IJmp (TAddr teh)
  else
    (* jmp ERROR *) branch_to [0xe9] IJmp (TAddr cih) ;;
    (* padding *) emit [0xcc; 0xcc; 0xcc; 0xcc] IInt3 ;;
    emit [0xcc; 0xcc; 0xcc; 0xcc] IInt3 ;;
    emit [0xcc; 0xcc; 0xcc; 0xcc] IInt3.

Fixpoint emit_table (md : module) (cih teh : Z) (l : list Z) : W unit :=
  match l with
  | [] => ret tt
  | fn_idx :: l => emit_table_entry md cih teh fn_idx ;; emit_table md cih teh l
  end.

(** the constructor [machine_code_writer(alloc, source_bytes, mod)]: the
    four error handlers, the host function stubs and the jump table of
    [tables[0]], one after the other *)
Definition machine_code_writer (md : module) : W jit_addrs :=
  fpe <- emit_error_handler NOnFpError ;;
  cih <- emit_error_handler NOnCallIndirectError ;;
  teh <- emit_error_handler NOnTypeError ;;
  soh <- emit_error_handler NOnStackOverflow ;;
  emit_host_calls (Z.to_nat (imported_functions_size md)) 0 ;;
  jt <- get_code ;;
  (match tables md with
   | [] => ret tt
   | table :: _ => emit_table md cih teh table
   end) ;;
  ret (mkAddrs fpe cih teh soh jt).

Definition emit_check_call_depth (j : jit_addrs) : W unit :=
  (* decl %ebx *) emit [0xff; 0xcb] (IDec32 RBX) ;;
  (* jz stack_overflow *)
  branch_to [0x0f; 0x84] (IJcc CE) (TAddr (stack_overflow_handler j)).

Definition emit_check_call_depth_end : W unit :=
  (* incl %ebx *) emit [0xff; 0xc3] (IInc32 RBX).

(** [emit_multipop(count)], [count] a [uint32_t] *)
Definition emit_multipop (count : Z) : W unit :=
  if (0 <? count) && negb (count =? 0x80000001) then
    (if Z.testbit count 31 then
       (* mov (%rsp), %rax *) emit [0x48; 0x8b; 0x04; 0x24] (ILoadTop 64 RAX)
     else ret tt) ;;
    (if negb (Z.land count 0x70000000 =? 0) then (* int3 *) emit [0xcc] IInt3
     else ret tt) ;;
    (* add depth_change*8, %rsp *)
    emit ([0x48; 0x81; 0xc4] ++ le32 (count * 8)) (IAddRsp (s32 (count * 8))) ;;
    (if Z.testbit count 31 then (* push %rax *) emit [0x50] (IPush RAX) else ret tt)
  else ret tt.

(** [emit_call(ft, funcnum)] *)
Definition emit_call (j : jit_addrs) (ft : func_type) (funcnum : Z) : W unit :=
  emit_check_call_depth j ;;
  (* callq TARGET *) branch <- emit_branch [0xe8] ICallRel ;;
  emit_multipop (param_count ft) ;;
  fix_branch branch (TFn (Z.to_nat funcnum)) ;;
  (if negb (return_count ft =? 0) then (* pushq %rax *) emit [0x50] (IPush RAX)
   else ret tt) ;;
  emit_check_call_depth_end.

(** [emit_call_indirect(ft, functypeidx)] *)
Definition emit_call_indirect (md : module) (j : jit_addrs) (ft : func_type)
           (functypeidx : Z) : W unit :=
  emit_check_call_depth j ;;
  match tables md with
  | [] => fail
  | table :: _ =>
      let functypeidx := nth (Z.to_nat functypeidx) (type_aliases md) 0 in
      let size := Z.of_nat (List.length table) in
      (* pop %rax *) emit [0x58] (IPop RAX) ;;
      (* cmp $size, %rax *) emit ([0x48; 0x3d] ++ le32 size) (ICmpImm 64 RAX (s32 size)) ;;
      (* jae ERROR *) branch_to [0x0f; 0x83] (IJcc CAE) (TAddr (call_indirect_handler j)) ;;
      (* leaq table(%rip), %rdx *) branch_to [0x48; 0x8d; 0x15] (ILeaRip RDX) (TAddr (jmp_table j)) ;;
      (* imul $17, %eax, %eax *) emit [0x6b; 0xc0; 17] (IImulImm RAX 17) ;;
      (* addq %rdx, %rax *) emit [0x48; 0x01; 0xd0] (IAdd RAX RDX) ;;
      (* mov $funtypeidx, %edx *) emit ([0xba] ++ le32 functypeidx) (IMovImm32 RDX functypeidx) ;;
      (* callq *%rax *) emit [0xff; 0xd0] (ICallR RAX) ;;
      emit_multipop (param_count ft) ;;
      (if negb (return_count ft =? 0) then (* pushq %rax *) emit [0x50] (IPush RAX)
       else ret tt) ;;
      emit_check_call_depth_end
  end.

End Calls.
Import Calls.

(** ** The other emitters of [machine_code_writer]: frames, locals,
    branches, numeric operators, memory accesses *)
Module Ops.

(** *** Function frames *)

(** the sum of the local counts, [None] when the [assert] that it fits in
    a [uint32_t] fails *)
Fixpoint sum_locals (locals : list Z) (count : Z) : option Z :=
  match locals with
  | [] => Some count
  | c :: locals =>
      if 0xFFFFFFFF <? count + c then None else sum_locals locals (count + c)
  end.

Fixpoint emit_pushes (n : nat) : W unit :=
  match n with
  | O => ret tt
  | S n => (* pushq %rax *) emit [0x50] (IPush RAX) ;; emit_pushes n
  end.

(** [emit_prologue(ft, locals, funcnum)]: the code it emits, from the
    start of the function's code ([start_function] and the allocation of
    the code buffer are not modelled); it returns [_local_count], the
    member [emit_epilogue] reads *)
Definition emit_prologue (locals : list Z) : W Z :=
  match sum_locals locals 0 with
  | None => fail
  | Some count =>
      start <- get_code ;;
      (* pushq RBP *) emit [0x55] (IPush RBP) ;;
      (* movq RSP, RBP *) emit [0x48; 0x89; 0xe5] (IMovRR RBP RSP) ;;
      (if 0 <? count then
         (* xor %rax, %rax *) emit [0x48; 0x31; 0xc0] (IXor 64 RAX RAX) ;;
         if 14 <? count then
           (* mov $count, %ecx *) emit ([0xb9] ++ le32 count) (IMovImm32 RCX count) ;;
           (* loop: *) loop <- get_code ;;
           (* pushq %rax *) emit [0x50] (IPush RAX) ;;
           (* dec %ecx *) emit [0xff; 0xc9] (IDec32 RCX) ;;
           (* jnz loop *) branch_to [0x0f; 0x85] (IJcc CNE) (TAddr loop)
         else emit_pushes (Z.to_nat count)
       else ret tt) ;;
      (* assert(code <= _code_start + max_prologue_size) *)
      c <- get_code ;;
      if c - start <=? 21 then ret count else fail
  end.

(** [emit_epilogue(ft, locals, funcnum)], [local_count] the member set by
    the prologue; [unimplemented()] throws *)
Definition emit_epilogue (ft : func_type) (local_count : Z) : W unit :=
  start <- get_code ;;
  (if negb (return_count ft =? 0) then (* pop RAX *) emit [0x58] (IPop RAX) else ret tt) ;;
  if negb (Z.land local_count 0xF0000000 =? 0) then fail else
  emit_multipop local_count ;;
  (* popq RBP *) emit [0x5d] (IPop RBP) ;;
  (* retq *) emit [0xc3] IRet ;;
  (* assert(code <= epilogue_start + max_epilogue_size) *)
  c <- get_code ;;
  if c - start <=? 10 then ret tt else fail.

(** the displacement from %rbp of local [local_idx] of a function with
    [nparams] parameters: the [uint32_t] the source emits, which the CPU
    sign-extends *)
Definition local_operand (nparams local_idx : Z) : Z :=
  if local_idx <? nparams then u32 (8 * (nparams - local_idx + 1))
  else u32 (-8 * (local_idx - nparams + 1)).

(** [emit_get_local(local_idx)], [nparams] being [_ft->param_types.size()] *)
Definition emit_get_local (nparams local_idx : Z) : W unit :=
  let op := local_operand nparams local_idx in
  (* mov disp(%RBP), RAX *) emit ([0x48; 0x8b; 0x85] ++ le32 op) (ILoadRbp RAX (s32 op)) ;;
  (* push RAX *) emit [0x50] (IPush RAX).

Definition emit_set_local (nparams local_idx : Z) : W unit :=
  let op := local_operand nparams local_idx in
  (* pop RAX *) emit [0x58] (IPop RAX) ;;
  (* mov RAX, disp(%RBP) *) emit ([0x48; 0x89; 0x85] ++ le32 op) (IStoreRbp RAX (s32 op)).

Definition emit_tee_local (nparams local_idx : Z) : W unit :=
  let op := local_operand nparams local_idx in
  (* pop RAX *) emit [0x58] (IPop RAX) ;;
  (* push RAX *) emit [0x50] (IPush RAX) ;;
  (* mov RAX, disp(%RBP) *) emit ([0x48; 0x89; 0x85] ++ le32 op) (IStoreRbp RAX (s32 op)).

(** *** Globals: [ptr] is the address of the global's value *)
Inductive valtype := i32 | i64 | f32 | f64.

Definition emit_get_global (t : valtype) (ptr : Z) : W unit :=
  match t with
  | i32 | f32 =>
      (* movabsq $ptr, %rax *) emit ([0x48; 0xb8] ++ le64 ptr) (IMovAbs RAX ptr) ;;
      (* movl (%rax), eax *) emit [0x8b; 0x00] (ILoadLin 4 false 32) ;;
      (* push %rax *) emit [0x50] (IPush RAX)
  | i64 | f64 =>
      (* movabsq $ptr, %rax *) emit ([0x48; 0xb8] ++ le64 ptr) (IMovAbs RAX ptr) ;;
      (* movl (%rax), %rax *) emit [0x48; 0x8b; 0x00] (ILoadLin 8 false 64) ;;
      (* push %rax *) emit [0x50] (IPush RAX)
  end.

Definition emit_set_global (ptr : Z) : W unit :=
  (* popq %rcx *) emit [0x59] (IPop RCX) ;;
  (* movabsq $ptr, %rax *) emit ([0x48; 0xb8] ++ le64 ptr) (IMovAbs RAX ptr) ;;
  (* movq %rcx, (%rax) *) emit [0x48; 0x89; 0x08] (IStoreLin 8).

(** *** Control *)

Definition emit_drop : W unit := (* pop RAX *) emit [0x58] (IPop RAX).

Definition emit_select : W unit :=
  (* popq RAX *) emit [0x58] (IPop RAX) ;;
  (* popq RCX *) emit [0x59] (IPop RCX) ;;
  (* test EAX, EAX *) emit [0x85; 0xc0] (ITest 32 RAX) ;;
  (* cmovnzq (RSP), RCX *) emit [0x48; 0x0f; 0x45; 0x0c; 0x24] (ICmovTop CNE RCX) ;;
  (* movq RCX, (RSP) *) emit [0x48; 0x89; 0x0c; 0x24] (IStoreTop RCX).

(** [emit_if()]: the returned branch is resolved by the parser *)
Definition emit_if : W Z :=
  (* pop RAX *) emit [0x58] (IPop RAX) ;;
  (* test EAX, EAX *) emit [0x85; 0xc0] (ITest 32 RAX) ;;
  (* jz DEST *) emit_branch [0x0f; 0x84] (IJcc CE).

Definition emit_br (depth_change : Z) : W Z :=
  (* add RSP, depth_change * 8 *) emit_multipop depth_change ;;
  (* jmp DEST *) emit_branch [0xe9] IJmp.

Definition emit_else (if_loc : Z) : W Z :=
  result <- emit_br 0 ;;
  fix_here if_loc ;;
  ret result.

Definition emit_br_if (depth_change : Z) : W Z :=
  (* pop RAX *) emit [0x58] (IPop RAX) ;;
  (* test EAX, EAX *) emit [0x85; 0xc0] (ITest 32 RAX) ;;
  if (depth_change =? 0) || (depth_change =? 0x80000001) then
    (* jnz DEST *) emit_branch [0x0f; 0x85] (IJcc CNE)
  else
    (* jz SKIP *) skip <- emit_branch [0x0f; 0x84] (IJcc CE) ;;
    (* add depth_change*8, %rsp *) emit_multipop depth_change ;;
    (* jmp DEST *) result <- emit_branch [0xe9] IJmp ;;
    (* SKIP: *) fix_here skip ;;
    ret result.

(** *** Constants *)

Definition emit_i32_const (value : Z) : W unit :=
  (* mov $value, %eax *) emit ([0xb8] ++ le32 value) (IMovImm32 RAX value) ;;
  (* push %rax *) emit [0x50] (IPush RAX).

Definition emit_i64_const (value : Z) : W unit :=
  (* movabsq $value, %rax *) emit ([0x48; 0xb8] ++ le64 value) (IMovAbs RAX value) ;;
  (* push %rax *) emit [0x50] (IPush RAX).

(** *** Comparisons *)

Definition emit_i32_eqz : W unit :=
  (* pop %rax *) emit [0x58] (IPop RAX) ;;
  (* xor %rcx, %rcx *) emit [0x48; 0x31; 0xc9] (IXor 64 RCX RCX) ;;
  (* test %eax, %eax *) emit [0x85; 0xc0] (ITest 32 RAX) ;;
  (* setz %cl *) emit [0x0f; 0x94; 0xc1] (ISetcc CE RCX) ;;
  (* push %rcx *) emit [0x51] (IPush RCX).

Definition emit_i64_eqz : W unit :=
  (* pop %rax *) emit [0x58] (IPop RAX) ;;
  (* xor %rcx, %rcx *) emit [0x48; 0x31; 0xc9] (IXor 64 RCX RCX) ;;
  (* test %rax, %rax *) emit [0x48; 0x85; 0xc0] (ITest 64 RAX) ;;
  (* setz %cl *) emit [0x0f; 0x94; 0xc1] (ISetcc CE RCX) ;;
  (* push %rcx *) emit [0x51] (IPush RCX).

(** the condition of the SETcc opcode byte [0x0f opcod]; the callers pass
    only these *)
Definition setcc_cond (opcod : Z) : option cond :=
  if opcod =? 0x92 then Some CB else if opcod =? 0x93 then Some CAE
  else if opcod =? 0x94 then Some CE else if opcod =? 0x95 then Some CNE
  else if opcod =? 0x96 then Some CBE else if opcod =? 0x97 then Some CA
  else if opcod =? 0x9c then Some CL else if opcod =? 0x9d then Some CGE
  else if opcod =? 0x9e then Some CLE else if opcod =? 0x9f then Some CG
  else None.

Definition emit_i32_relop (opcod : Z) : W unit :=
  match setcc_cond opcod with
  | None => fail
  | Some c =>
      (* popq %rax *) emit [0x58] (IPop RAX) ;;
      (* popq %rcx *) emit [0x59] (IPop RCX) ;;
      (* xorq %rdx, %rdx *) emit [0x48; 0x31; 0xd2] (IXor 64 RDX RDX) ;;
      (* cmpl %eax, %ecx *) emit [0x39; 0xc1] (ICmpRR 32 RCX RAX) ;;
      (* SETcc %dl *) emit [0x0f; opcod; 0xc2] (ISetcc c RDX) ;;
      (* pushq %rdx *) emit [0x52] (IPush RDX)
  end.

Definition emit_i64_relop (opcod : Z) : W unit :=
  match setcc_cond opcod with
  | None => fail
  | Some c =>
      (* popq %rax *) emit [0x58] (IPop RAX) ;;
      (* popq %rcx *) emit [0x59] (IPop RCX) ;;
      (* xorq %rdx, %rdx *) emit [0x48; 0x31; 0xd2] (IXor 64 RDX RDX) ;;
      (* cmpq %rax, %rcx *) emit [0x48; 0x39; 0xc1] (ICmpRR 64 RCX RAX) ;;
      (* SETcc %dl *) emit [0x0f; opcod; 0xc2] (ISetcc c RDX) ;;
      (* pushq %rdx *) emit [0x52] (IPush RDX)
  end.

Definition emit_i32_eq := emit_i32_relop 0x94.
Definition emit_i32_ne := emit_i32_relop 0x95.
Definition emit_i32_lt_s := emit_i32_relop 0x9c.
Definition emit_i32_lt_u := emit_i32_relop 0x92.
Definition emit_i32_gt_s := emit_i32_relop 0x9f.
Definition emit_i32_gt_u := emit_i32_relop 0x97.
Definition emit_i32_le_s := emit_i32_relop 0x9e.
Definition emit_i32_le_u := emit_i32_relop 0x96.
Definition emit_i32_ge_s := emit_i32_relop 0x9d.
Definition emit_i32_ge_u := emit_i32_relop 0x93.

Definition emit_i64_eq := emit_i64_relop 0x94.
Definition emit_i64_ne := emit_i64_relop 0x95.
Definition emit_i64_lt_s := emit_i64_relop 0x9c.
Definition emit_i64_lt_u := emit_i64_relop 0x92.
Definition emit_i64_gt_s := emit_i64_relop 0x9f.
Definition emit_i64_gt_u := emit_i64_relop 0x97.
Definition emit_i64_le_s := emit_i64_relop 0x9e.
Definition emit_i64_le_u := emit_i64_relop 0x96.
Definition emit_i64_ge_s := emit_i64_relop 0x9d.
Definition emit_i64_ge_u := emit_i64_relop 0x93.

Definition emit_f32_relop (opcod : Z) (switch_params flip_result : bool) : W unit :=
  (if switch_params then
     (* movss (%rsp), %xmm0 *) emit [0xf3; 0x0f; 0x10; 0x04; 0x24] (IMovsLoad F32 0) ;;
     (* cmpCCss 8(%rsp), %xmm0 *)
     emit [0xf3; 0x0f; 0xc2; 0x44; 0x24; 0x08; opcod] (ICmpS F32 opcod 8)
   else
     (* movss 8(%rsp), %xmm0 *) emit [0xf3; 0x0f; 0x10; 0x44; 0x24; 0x08] (IMovsLoad F32 8) ;;
     (* cmpCCss (%rsp), %xmm0 *) emit [0xf3; 0x0f; 0xc2; 0x04; 0x24; opcod] (ICmpS F32 opcod 0)) ;;
  (* movd %xmm0, %eax *) emit [0x66; 0x0f; 0x7e; 0xc0] IMovdEax ;;
  (if negb flip_result then (* andl $1, %eax *) emit [0x83; 0xe0; 0x01] (IBinImm BAnd 32 RAX 1)
   else (* incl %eax *) emit [0xff; 0xc0] (IInc32 RAX)) ;;
  (* leaq 16(%rsp), %rsp *) emit [0x48; 0x8d; 0x64; 0x24; 0x10] (ILeaRsp RSP 16) ;;
  (* pushq %rax *) emit [0x50] (IPush RAX).

Definition emit_f64_relop (opcod : Z) (switch_params flip_result : bool) : W unit :=
  (if switch_params then
     (* movsd (%rsp), %xmm0 *) emit [0xf2; 0x0f; 0x10; 0x04; 0x24] (IMovsLoad F64 0) ;;
     (* cmpCCsd 8(%rsp), %xmm0 *)
     emit [0xf2; 0x0f; 0xc2; 0x44; 0x24; 0x08; opcod] (ICmpS F64 opcod 8)
   else
     (* movsd 8(%rsp), %xmm0 *) emit [0xf2; 0x0f; 0x10; 0x44; 0x24; 0x08] (IMovsLoad F64 8) ;;
     (* cmpCCsd (%rsp), %xmm0 *) emit [0xf2; 0x0f; 0xc2; 0x04; 0x24; opcod] (ICmpS F64 opcod 0)) ;;
  (* movd %xmm0, %eax *) emit [0x66; 0x0f; 0x7e; 0xc0] IMovdEax ;;
  (if negb flip_result then (* andl $1, eax *) emit [0x83; 0xe0; 0x01] (IBinImm BAnd 32 RAX 1)
   else (* incl %eax *) emit [0xff; 0xc0] (IInc32 RAX)) ;;
  (* leaq 16(%rsp), %rsp *) emit [0x48; 0x8d; 0x64; 0x24; 0x10] (ILeaRsp RSP 16) ;;
  (* pushq %rax *) emit [0x50] (IPush RAX).

Definition emit_f32_eq := emit_f32_relop 0x00 false false.
Definition emit_f32_ne := emit_f32_relop 0x00 false true.
Definition emit_f32_lt := emit_f32_relop 0x01 false false.
Definition emit_f32_gt := emit_f32_relop 0x01 true false.
Definition emit_f32_le := emit_f32_relop 0x02 false false.
Definition emit_f32_ge := emit_f32_relop 0x02 true false.

Definition emit_f64_eq := emit_f64_relop 0x00 false false.
Definition emit_f64_ne := emit_f64_relop 0x00 false true.
Definition emit_f64_lt := emit_f64_relop 0x01 false false.
Definition emit_f64_gt := emit_f64_relop 0x01 true false.
Definition emit_f64_le := emit_f64_relop 0x02 false false.
Definition emit_f64_ge := emit_f64_relop 0x02 true false.

(** *** Integer unary operators; [has_tzcnt] is what [cpuid] reports *)

Definition emit_i32_clz (has_tzcnt : bool) : W unit :=
  if negb has_tzcnt then
    (* pop %rax *) emit [0x58] (IPop RAX) ;;
    (* mov $-1, %ecx *) emit [0xb9; 0xff; 0xff; 0xff; 0xff] (IMovImm32 RCX 0xffffffff) ;;
    (* bsr %eax, %eax *) emit [0x0f; 0xbd; 0xc0] (IBsr 32 RAX RAX) ;;
    (* cmovz %ecx, %eax *) emit [0x0f; 0x44; 0xc1] (ICmov CE 32 RAX RCX) ;;
    (* sub $31, %eax *) emit [0x83; 0xe8; 0x1f] (IBinImm BSub 32 RAX 31) ;;
    (* neg %eax *) emit [0xf7; 0xd8] (INeg 32 RAX) ;;
    (* push %rax *) emit [0x50] (IPush RAX)
  else
    (* popq %rax *) emit [0x58] (IPop RAX) ;;
    (* lzcntl %eax, %eax *) emit [0xf3; 0x0f; 0xbd; 0xc0] (ILzcnt 32 RAX RAX) ;;
    (* pushq %rax *) emit [0x50] (IPush RAX).

Definition emit_i32_ctz (has_tzcnt : bool) : W unit :=
  if negb has_tzcnt then
    (* pop %rax *) emit [0x58] (IPop RAX) ;;
    (* mov $32, %ecx *) emit [0xb9; 0x20; 0x00; 0x00; 0x00] (IMovImm32 RCX 32) ;;
    (* bsf %eax, %eax *) emit [0x0f; 0xbc; 0xc0] (IBsf 32 RAX RAX) ;;
    (* cmovz %ecx, %eax *) emit [0x0f; 0x44; 0xc1] (ICmov CE 32 RAX RCX) ;;
    (* push %rax *) emit [0x50] (IPush RAX)
  else
    (* popq %rax *) emit [0x58] (IPop RAX) ;;
    (* tzcntl %eax, %eax *) emit [0xf3; 0x0f; 0xbc; 0xc0] (ITzcnt 32 RAX RAX) ;;
    (* pushq %rax *) emit [0x50] (IPush RAX).

Definition emit_i32_popcnt : W unit :=
  (* popq %rax *) emit [0x58] (IPop RAX) ;;
  (* popcntl %eax, %eax *) emit [0xf3; 0x0f; 0xb8; 0xc0] (IPopcnt 32 RAX RAX) ;;
  (* pushq %rax *) emit [0x50] (IPush RAX).

Definition emit_i64_clz (has_tzcnt : bool) : W unit :=
  if negb has_tzcnt then
    (* pop %rax *) emit [0x58] (IPop RAX) ;;
    (* mov $-1, %rcx *) emit [0x48; 0xc7; 0xc1; 0xff; 0xff; 0xff; 0xff] (IMovImmS RCX (-1)) ;;
    (* bsr %rax, %rax *) emit [0x48; 0x0f; 0xbd; 0xc0] (IBsr 64 RAX RAX) ;;
    (* cmovz %rcx, %rax *) emit [0x48; 0x0f; 0x44; 0xc1] (ICmov CE 64 RAX RCX) ;;
    (* sub $63, %rax *) emit [0x48; 0x83; 0xe8; 0x3f] (IBinImm BSub 64 RAX 63) ;;
    (* neg %rax *) emit [0x48; 0xf7; 0xd8] (INeg 64 RAX) ;;
    (* push %rax *) emit [0x50] (IPush RAX)
  else
    (* popq %rax *) emit [0x58] (IPop RAX) ;;
    (* lzcntq %rax, %rax *) emit [0xf3; 0x48; 0x0f; 0xbd; 0xc0] (ILzcnt 64 RAX RAX) ;;
    (* pushq %rax *) emit [0x50] (IPush RAX).

Definition emit_i64_ctz (has_tzcnt : bool) : W unit :=
  if negb has_tzcnt then
    (* pop %rax *) emit [0x58] (IPop RAX) ;;
    (* mov $64, %rcx *) emit [0x48; 0xc7; 0xc1; 0x40; 0x00; 0x00; 0x00] (IMovImmS RCX 64) ;;
    (* bsf %rax, %rax *) emit [0x48; 0x0f; 0xbc; 0xc0] (IBsf 64 RAX RAX) ;;
    (* cmovz %rcx, %rax *) emit [0x48; 0x0f; 0x44; 0xc1] (ICmov CE 64 RAX RCX) ;;
    (* push %rax *) emit [0x50] (IPush RAX)
  else
    (* popq %rax *) emit [0x58] (IPop RAX) ;;
    (* tzcntq %rax, %rax *) emit [0xf3; 0x48; 0x0f; 0xbc; 0xc0] (ITzcnt 64 RAX RAX) ;;
    (* pushq %rax *) emit [0x50] (IPush RAX).

Definition emit_i64_popcnt : W unit :=
  (* popq %rax *) emit [0x58] (IPop RAX) ;;
  (* popcntq %rax, %rax *) emit [0xf3; 0x48; 0x0f; 0xb8; 0xc0] (IPopcnt 64 RAX RAX) ;;
  (* pushq %rax *) emit [0x50] (IPush RAX).

(** *** Integer binary operators ([emit_i32_binop(op...)]: pop %rcx,
    pop %rax, then the op bytes, which end with the push) *)

Definition emit_i32_add := emit_i32_binop [([0x01; 0xc8], IBin BAdd 32 RAX RCX); ([0x50], IPush RAX)].
Definition emit_i32_sub := emit_i32_binop [([0x29; 0xc8], IBin BSub 32 RAX RCX); ([0x50], IPush RAX)].
Definition emit_i32_mul := emit_i32_binop [([0x0f; 0xaf; 0xc1], IBin BImul 32 RAX RCX); ([0x50], IPush RAX)].
Definition emit_i32_div_u := emit_i32_binop [([0x31; 0xd2], IXor 32 RDX RDX); ([0xf7; 0xf1], IDivU 32 RCX); ([0x50], IPush RAX)].
Definition emit_i32_rem_u := emit_i32_binop [([0x31; 0xd2], IXor 32 RDX RDX); ([0xf7; 0xf1], IDivU 32 RCX); ([0x52], IPush RDX)].
Definition emit_i32_and := emit_i32_binop [([0x21; 0xc8], IBin BAnd 32 RAX RCX); ([0x50], IPush RAX)].
Definition emit_i32_or := emit_i32_binop [([0x09; 0xc8], IBin BOr 32 RAX RCX); ([0x50], IPush RAX)].
Definition emit_i32_xor := emit_i32_binop [([0x31; 0xc8], IBin BXor 32 RAX RCX); ([0x50], IPush RAX)].
Definition emit_i32_shl := emit_i32_binop [([0xd3; 0xe0], IShift SShl 32 RAX); ([0x50], IPush RAX)].
Definition emit_i32_shr_s := emit_i32_binop [([0xd3; 0xf8], IShift SSar 32 RAX); ([0x50], IPush RAX)].
Definition emit_i32_shr_u := emit_i32_binop [([0xd3; 0xe8], IShift SShr 32 RAX); ([0x50], IPush RAX)].
Definition emit_i32_rotl := emit_i32_binop [([0xd3; 0xc0], IShift SRol 32 RAX); ([0x50], IPush RAX)].
Definition emit_i32_rotr := emit_i32_binop [([0xd3; 0xc8], IShift SRor 32 RAX); ([0x50], IPush RAX)].

Definition emit_i64_add := emit_i64_binop [([0x48; 0x01; 0xc8], IBin BAdd 64 RAX RCX); ([0x50], IPush RAX)].
Definition emit_i64_sub := emit_i64_binop [([0x48; 0x29; 0xc8], IBin BSub 64 RAX RCX); ([0x50], IPush RAX)].
Definition emit_i64_mul := emit_i64_binop [([0x48; 0x0f; 0xaf; 0xc1], IBin BImul 64 RAX RCX); ([0x50], IPush RAX)].
Definition emit_i64_div_u := emit_i64_binop [([0x48; 0x31; 0xd2], IXor 64 RDX RDX); ([0x48; 0xf7; 0xf1], IDivU 64 RCX); ([0x50], IPush RAX)].
Definition emit_i64_rem_u := emit_i64_binop [([0x48; 0x31; 0xd2], IXor 64 RDX RDX); ([0x48; 0xf7; 0xf1], IDivU 64 RCX); ([0x52], IPush RDX)].
Definition emit_i64_and := emit_i64_binop [([0x48; 0x21; 0xc8], IBin BAnd 64 RAX RCX); ([0x50], IPush RAX)].
Definition emit_i64_or := emit_i64_binop [([0x48; 0x09; 0xc8], IBin BOr 64 RAX RCX); ([0x50], IPush RAX)].
Definition emit_i64_xor := emit_i64_binop [([0x48; 0x31; 0xc8], IBin BXor 64 RAX RCX); ([0x50], IPush RAX)].
Definition emit_i64_shl := emit_i64_binop [([0x48; 0xd3; 0xe0], IShift SShl 64 RAX); ([0x50], IPush RAX)].
Definition emit_i64_shr_s := emit_i64_binop [([0x48; 0xd3; 0xf8], IShift SSar 64 RAX); ([0x50], IPush RAX)].
Definition emit_i64_shr_u := emit_i64_binop [([0x48; 0xd3; 0xe8], IShift SShr 64 RAX); ([0x50], IPush RAX)].
Definition emit_i64_rotl := emit_i64_binop [([0x48; 0xd3; 0xc0], IShift SRol 64 RAX); ([0x50], IPush RAX)].
Definition emit_i64_rotr := emit_i64_binop [([0x48; 0xd3; 0xc8], IShift SRor 64 RAX); ([0x50], IPush RAX)].

(** *** Sign-bit operators on floats *)

Definition emit_f32_abs : W unit :=
  (* popq %rax *) emit [0x58] (IPop RAX) ;;
  (* andl 0x7fffffff, %eax *) emit ([0x25] ++ le32 0x7fffffff) (IBinImm BAnd 32 RAX 0x7fffffff) ;;
  (* pushq %rax *) emit [0x50] (IPush RAX).

Definition emit_f32_neg : W unit :=
  (* popq %rax *) emit [0x58] (IPop RAX) ;;
  (* xorl 0x80000000, %eax *) emit ([0x35] ++ le32 0x80000000) (IBinImm BXor 32 RAX 0x80000000) ;;
  (* pushq %rax *) emit [0x50] (IPush RAX).

Definition emit_f32_copysign : W unit :=
  (* popq %rax *) emit [0x58] (IPop RAX) ;;
  (* andl 0x80000000, %eax *) emit ([0x25] ++ le32 0x80000000) (IBinImm BAnd 32 RAX 0x80000000) ;;
  (* popq %rcx *) emit [0x59] (IPop RCX) ;;
  (* andl 0x7fffffff, %ecx *) emit ([0x81; 0xe1] ++ le32 0x7fffffff) (IBinImm BAnd 32 RCX 0x7fffffff) ;;
  (* orl %ecx, %eax *) emit [0x09; 0xc8] (IBin BOr 32 RAX RCX) ;;
  (* pushq %rax *) emit [0x50] (IPush RAX).

Definition emit_f64_abs : W unit :=
  (* popq %rcx *) emit [0x59] (IPop RCX) ;;
  (* movabsq $0x7fffffffffffffff, %rax *)
  emit ([0x48; 0xb8] ++ le64 0x7fffffffffffffff) (IMovAbs RAX 0x7fffffffffffffff) ;;
  (* andq %rcx, %rax *) emit [0x48; 0x21; 0xc8] (IBin BAnd 64 RAX RCX) ;;
  (* pushq %rax *) emit [0x50] (IPush RAX).

Definition emit_f64_neg : W unit :=
  (* popq %rcx *) emit [0x59] (IPop RCX) ;;
  (* movabsq $0x8000000000000000, %rax *)
  emit ([0x48; 0xb8] ++ le64 0x8000000000000000) (IMovAbs RAX 0x8000000000000000) ;;
  (* xorq %rcx, %rax *) emit [0x48; 0x31; 0xc8] (IBin BXor 64 RAX RCX) ;;
  (* pushq %rax *) emit [0x50] (IPush RAX).

Definition emit_f64_copysign : W unit :=
  (* popq %rcx *) emit [0x59] (IPop RCX) ;;
  (* movabsq 0x8000000000000000, %rax *)
  emit ([0x48; 0xb8] ++ le64 0x8000000000000000) (IMovAbs RAX 0x8000000000000000) ;;
  (* andq %rax, %rcx *) emit [0x48; 0x21; 0xc1] (IBin BAnd 64 RCX RAX) ;;
  (* popq %rdx *) emit [0x5a] (IPop RDX) ;;
  (* notq %rax *) emit [0x48; 0xf7; 0xd0] (INot 64 RAX) ;;
  (* andq %rdx, %rax *) emit [0x48; 0x21; 0xd0] (IBin BAnd 64 RAX RDX) ;;
  (* orq %rcx, %rax *) emit [0x48; 0x09; 0xc8] (IBin BOr 64 RAX RCX) ;;
  (* pushq %rax *) emit [0x50] (IPush RAX).

(** *** Integer conversions *)

Definition emit_i32_wrap_i64 : W unit :=
  (* xor %eax, %eax *) emit [0x31; 0xc0] (IXor 32 RAX RAX) ;;
  (* mov %eax, 4(%rsp) *) emit [0x89; 0x44; 0x24; 0x04] (IStoreHi32 RAX).

Definition emit_i64_extend_s_i32 : W unit :=
  (* movslq (%rsp), %rax *) emit [0x48; 0x63; 0x04; 0x24] (ILoadTopS32 RAX) ;;
  (* mov %rax, (%rsp) *) emit [0x48; 0x89; 0x04; 0x24] (IStoreTop RAX).

Definition emit_i64_extend_u_i32 : W unit := ret tt.

(** *** Loads and stores: the index on the stack, the memory base in %rsi *)

Definition emit_offset (offset : Z) : W unit :=
  if Z.testbit offset 31 then
    (* mov $offset, %ecx *) emit ([0xb9] ++ le32 offset) (IMovImm32 RCX offset) ;;
    (* add %rcx, %rax *) emit [0x48; 0x01; 0xc8] (IBin BAdd 64 RAX RCX)
  else if negb (offset =? 0) then
    (* add offset, %rax *) emit ([0x48; 0x05] ++ le32 offset) (IBinImm BAdd 64 RAX (s32 offset))
  else ret tt.

(** [emit_load_impl(offset, loadop...)]: [loadop] are the caller's bytes
    and [i] the instruction they encode *)
Definition emit_load_impl (offset : Z) (loadop : list Z) (i : ins) : W unit :=
  (* pop %rax *) emit [0x58] (IPop RAX) ;;
  emit_offset offset ;;
  (* add %rsi, %rax *) emit [0x48; 0x01; 0xf0] (IBin BAdd 64 RAX RSI) ;;
  emit loadop i ;;
  (* push RAX *) emit [0x50] (IPush RAX).

Definition emit_store_impl (offset : Z) (storeop : list Z) (i : ins) : W unit :=
  (* pop RCX *) emit [0x59] (IPop RCX) ;;
  (* pop RAX *) emit [0x58] (IPop RAX) ;;
  emit_offset offset ;;
  (* add %rsi, %rax *) emit [0x48; 0x01; 0xf0] (IBin BAdd 64 RAX RSI) ;;
  emit storeop i.

Definition emit_i32_load (offset : Z) := emit_load_impl offset [0x8b; 0x00] (ILoadLin 4 false 32).
Definition emit_i64_load (offset : Z) := emit_load_impl offset [0x48; 0x8b; 0x00] (ILoadLin 8 false 64).
Definition emit_f32_load (offset : Z) := emit_load_impl offset [0x8b; 0x00] (ILoadLin 4 false 32).
Definition emit_f64_load (offset : Z) := emit_load_impl offset [0x48; 0x8b; 0x00] (ILoadLin 8 false 64).
Definition emit_i32_load8_s (offset : Z) := emit_load_impl offset [0x0f; 0xbe; 0x00] (ILoadLin 1 true 32).
Definition emit_i32_load16_s (offset : Z) := emit_load_impl offset [0x0f; 0xbf; 0x00] (ILoadLin 2 true 32).
Definition emit_i32_load8_u (offset : Z) := emit_load_impl offset [0x0f; 0xb6; 0x00] (ILoadLin 1 false 32).
Definition emit_i32_load16_u (offset : Z) := emit_load_impl offset [0x0f; 0xb7; 0x00] (ILoadLin 2 false 32).
Definition emit_i64_load8_s (offset : Z) := emit_load_impl offset [0x48; 0x0f; 0xbe; 0x00] (ILoadLin 1 true 64).
Definition emit_i64_load16_s (offset : Z) := emit_load_impl offset [0x48; 0x0f; 0xbf; 0x00] (ILoadLin 2 true 64).
Definition emit_i64_load32_s (offset : Z) := emit_load_impl offset [0x48; 0x63; 0x00] (ILoadLin 4 true 64).
Definition emit_i64_load8_u (offset : Z) := emit_load_impl offset [0x0f; 0xb6; 0x00] (ILoadLin 1 false 32).
Definition emit_i64_load16_u (offset : Z) := emit_load_impl offset [0x0f; 0xb7; 0x00] (ILoadLin 2 false 32).
Definition emit_i64_load32_u (offset : Z) := emit_load_impl offset [0x8b; 0x00] (ILoadLin 4 false 32).

Definition emit_i32_store (offset : Z) := emit_store_impl offset [0x89; 0x08] (IStoreLin 4).
Definition emit_i64_store (offset : Z) := emit_store_impl offset [0x48; 0x89; 0x08] (IStoreLin 8).
Definition emit_f32_store (offset : Z) := emit_store_impl offset [0x89; 0x08] (IStoreLin 4).
Definition emit_f64_store (offset : Z) := emit_store_impl offset [0x48; 0x89; 0x08] (IStoreLin 8).
Definition emit_i32_store8 (offset : Z) := emit_store_impl offset [0x88; 0x08] (IStoreLin 1).
Definition emit_i32_store16 (offset : Z) := emit_store_impl offset [0x66; 0x89; 0x08] (IStoreLin 2).
Definition emit_i64_store8 (offset : Z) := emit_store_impl offset [0x88; 0x08] (IStoreLin 1).
Definition emit_i64_store16 (offset : Z) := emit_store_impl offset [0x66; 0x89; 0x08] (IStoreLin 2).
Definition emit_i64_store32 (offset : Z) := emit_store_impl offset [0x89; 0x08] (IStoreLin 4).

End Ops.
Import Ops.

(** ** The host side: exceptions, the wabt executor and athena_execute *)
Module Host.

Inductive evmc_status_code :=
| EVMC_SUCCESS | EVMC_FAILURE | EVMC_REVERT | EVMC_OUT_OF_GAS
| EVMC_REJECTED | EVMC_INTERNAL_ERROR | EVMC_ARGUMENT_OUT_OF_RANGE
| EVMC_CONTRACT_VALIDATION_FAILURE | EVMC_INVALID_MEMORY_ACCESS
| EVMC_STATIC_MODE_VIOLATION.

(** the handlers of [athena_execute], in their order *)
Definition status_of_exn (e : exn) : evmc_status_code :=
  match e with
  | EndExecution _ => EVMC_INTERNAL_ERROR
  | VMTrap _ => EVMC_FAILURE
  | ArgumentOutOfRange _ => EVMC_ARGUMENT_OUT_OF_RANGE
  | OutOfGas _ => EVMC_OUT_OF_GAS
  | ContractValidationFailure _ => EVMC_CONTRACT_VALIDATION_FAILURE
  | InvalidMemoryAccess _ => EVMC_INVALID_MEMORY_ACCESS
  | StaticModeViolation _ => EVMC_STATIC_MODE_VIOLATION
  | InternalErrorException _ => EVMC_INTERNAL_ERROR
  | StdException _ => EVMC_INTERNAL_ERROR
  | ForeignException => EVMC_INTERNAL_ERROR
  end.

(** Modelled from the spec: the executor's landing point of the
    [siglongjmp] (eos-vm's signal handling, not in src) rethrows the
    exception [longjmp_on_exception] saved once the JIT frames are gone,
    and the handlers of [athena_execute] set its status; [None] when the
    JIT code did not end that way *)
Definition signal_status (o : outcome) : option evmc_status_code :=
  match o with OSignal e => Some (status_of_exn e) | _ => None end.

(** [ExecutionResult]; its header is not in src, [new_result] stands for a
    default-constructed one *)
Record ExecutionResult := mkResult {
  gasLeft : Z; isRevert : bool; returnValue : list Z }.
Definition new_result : ExecutionResult := mkResult 0 false [].

Inductive ExternalKind := KFunc | KTable | KMemory | KGlobal.

(** the parts of wabt's [interp::DefinedModule] and [interp::Environment]
    that [WabtEngine::execute] reads; [start_func_index = None] is
    [kInvalidIndex] *)
Record DefinedModule := mkModule {
  start_func_index : option Z;
  exports : list (string * ExternalKind) }.

Record Environment := mkEnv {
  memories : list (Z -> Z);
  globals : list Z;
  ethereum_eei : Z }.
(** [ethereum_eei]: the [WabtEthereumInterface*] the functions of the
    host module "ethereum" captured (by value) when [instantiation]
    appended them; 0 while there is no such module *)

(** [interp::Environment(Features{})]: no memory, no global, no host
    module yet *)
Definition fresh_env : Environment := mkEnv [] [] 0.

(** [env_.AppendHostModule("ethereum")] and the [AppendFuncExport] calls
    of [instantiation]: every host function is a lambda [[eei_](...)]
    holding the pointer [eei_] *)
Definition AppendHostModule_ethereum (eei_ : Z) (env : Environment) : Environment :=
  mkEnv (memories env) (globals env) eei_.

Definition GetExport (m : DefinedModule) (name : string) : option ExternalKind :=
  match find (fun e => String.eqb (fst e) name) (exports m) with
  | Some (_, k) => Some k
  | None => None
  end.

Definition GetMemoryCount (e : Environment) : nat := List.length (memories e).

(** [envCache_t]: the interface pointer, the environment, the module
    instantiated in it, the code *)
Record envCache_t := mkCache {
  eei_ : Z; env_ : Environment; module_ : DefinedModule; code_ : list Z }.

(** [codeCache], keyed by [msg.destination]; its class is not in src, it is
    modelled by its use: [tryGet] finds what [insert] stored *)
Definition cache := list (Z * envCache_t).

Definition tryGet (c : cache) (k : Z) : option envCache_t :=
  match find (fun e => fst e =? k) c with Some (_, v) => Some v | None => None end.

Definition insert (k : Z) (v : envCache_t) (c : cache) : cache :=
  (k, v) :: filter (fun e => negb (fst e =? k)) c.

(** how the interpreter's run of [main] ends *)
Inductive run_outcome := RunOk | RunTrap | RunThrow (e : exn).

Section Wabt.

(** wabt's library: [ReadBinaryInterp], which reads a binary and
    instantiates it into an environment ([None] when it fails or gives no
    module), [Executor::Initialize] (its segments; [false] for a failed
    result) and [Executor::RunExport] of [main], which sees the environment
    and the [ExecutionResult] its host functions write into, and gives the
    one they leave *)
Variable ReadBinaryInterp : Environment -> list Z -> option (DefinedModule * Environment).
Variable Initialize : DefinedModule -> Environment -> Environment * bool.
Variable RunExport : DefinedModule -> Environment -> ExecutionResult ->
                     Environment * ExecutionResult * run_outcome.

(** [instantiation(code, stateMsg, envPtr)]: the host module "ethereum",
    its functions capturing [envPtr->eei_], then the binary read into the
    environment ([None]: the [ContractValidationFailure] it throws) *)
Definition instantiation (code : list Z) (envPtr : envCache_t)
  : option (DefinedModule * Environment) :=
  ReadBinaryInterp (AppendHostModule_ethereum (eei_ envPtr) (env_ envPtr)) code.

(** the first block of [WabtEngine::execute], for the invocation whose
    [WabtEthereumInterface interf] is at address [interf]: the cached
    [envCache_t] of [destination], whose [eei_] is set to [&interf] (the
    object is shared with the cache), or a new one made with [&interf],
    instantiated and cached *)
Definition load_env (c : cache) (interf destination : Z) (code : list Z)
  : option envCache_t * cache :=
  match tryGet c destination with
  | Some e =>
      let e := mkCache interf (env_ e) (module_ e) (code_ e) in
      (Some e, insert destination e c)
  | None =>
      let e := mkCache interf fresh_env (mkModule None []) code in
      match instantiation (code_ e) e with
      | Some (m, env) =>
          let e := mkCache interf env m code in (Some e, insert destination e c)
      | None => (None, c)
      end
  end.

(** a pointer tested for null *)
Definition isSome {A} (o : option A) : bool :=
  match o with Some _ => true | None => false end.

Definition kind_eqb (a b : ExternalKind) : bool :=
  match a, b with
  | KFunc, KFunc | KTable, KTable | KMemory, KMemory | KGlobal, KGlobal => true
  | _, _ => false
  end.

(** [WabtEngine::execute]: the exception it throws or the result it
    returns, with the cache after the call.  The environment is held by a
    [shared_ptr] that the cache holds too, so what [Initialize] and the run
    of [main] do to it stays in the cache.  [results] gives the
    [ExecutionResult] object each interface refers to, by the interface's
    address, as memory holds them when the call starts; this invocation's
    [interf], at [interf], refers to its own fresh [result].  The host
    functions write into the result of the interface whose pointer they
    captured.  (The messages that quote a name in the source, ["memory" not
    found] and the two about ["main"], are written here without the
    quotes.) *)
Definition execute (c : cache) (results : Z -> ExecutionResult) (interf destination : Z)
  (code : list Z) : (exn + ExecutionResult) * cache :=
  let result := new_result in
  let results := fun a => if a =? interf then result else results a in
  match load_env c interf destination code with
  | (None, c) => (inl (ContractValidationFailure "Module failed to load."), c)
  | (Some e, c) =>
      let m := module_ e in
      if negb (Nat.eqb (GetMemoryCount (env_ e)) 1) then
        (inl (ContractValidationFailure "Multiple memory sections exported."), c)
      else if negb (isSome (GetExport m "memory")) then
        (inl (ContractValidationFailure "memory not found"), c)
      else if isSome (start_func_index m) then
        (inl (ContractValidationFailure "Contract contains start function."), c)
      else
        match GetExport m "main" with
        | None => (inl (ContractValidationFailure "main not found"), c)
        | Some k =>
            if negb (kind_eqb k KFunc) then
              (inl (ContractValidationFailure "main is not a function"), c)
            else
              let '(env1, ok) := Initialize m (env_ e) in
              let c1 := insert destination (mkCache (eei_ e) env1 m (code_ e)) c in
              if negb ok then (inl (VMTrap "VM initialize failed."), c1) else
              let eei := ethereum_eei env1 in
              let '(env2, res, o) := RunExport m env1 (results eei) in
              let results := fun a => if a =? eei then res else results a in
              let c2 := insert destination (mkCache (eei_ e) env2 m (code_ e)) c in
              match o with
              | RunOk => (inr (results interf), c2)
              | RunTrap => (inl (VMTrap "The VM invocation had a trap."), c2)
              | RunThrow (EndExecution _) => (inr (results interf), c2)
              | RunThrow ex => (inl ex, c2)
              end
        end
  end.

(** [athena_execute] from the engine call on, for a message that is not
    [EVMC_CREATE] and whose code passed the checks before the call *)
Definition athena_execute_call (c : cache) (results : Z -> ExecutionResult)
  (interf destination : Z) (code : list Z) : evmc_status_code * cache :=
  match execute c results interf destination code with
  | (inl e, c') => (status_of_exn e, c')
  | (inr r, c') =>
      if gasLeft r <? 0 then
        (status_of_exn (InternalErrorException "Negative gas left after execution."), c')
      else ((if isRevert r then EVMC_REVERT else EVMC_SUCCESS), c')
  end.

End Wabt.

(** ** [athena_set_option] *)
Inductive athena_evm1mode := reject | fallback | evm2wasm_contract | runevm_contract.

Definition evm1mode_options : list (string * athena_evm1mode) :=
  [("reject"%string, reject); ("fallback"%string, fallback);
   ("evm2wasm"%string, evm2wasm_contract); ("runevm"%string, runevm_contract)].

Inductive evmc_set_option_result :=
| EVMC_SET_OPTION_SUCCESS | EVMC_SET_OPTION_INVALID_NAME | EVMC_SET_OPTION_INVALID_VALUE.

(** [athena_instance] (the engine by the name it was created from), with the
    process-wide [WasmEngine::enableBenchmarking] flag *)
Record athena_instance := mkAthena {
  engine : string;
  evm1mode : athena_evm1mode;
  metering : bool;
  benchmarking : bool }.

Definition map_find {A} (k : string) (l : list (string * A)) : option A :=
  match find (fun e => String.eqb (fst e) k) l with Some (_, v) => Some v | None => None end.

Section SetOption.

(** the engines compiled in ([wasm_engine_map], by build flags) and
    [athena_parse_sys_option], which reads a contract file *)
Variable wasm_engine_map : list string.
Variable athena_parse_sys_option : athena_instance -> string -> string -> option athena_instance.

Definition athena_set_option (athena : athena_instance) (name value : string)
  : evmc_set_option_result * athena_instance :=
  if String.eqb name "evm1mode" then
    match map_find value evm1mode_options with
    | Some md => (EVMC_SET_OPTION_SUCCESS,
                  mkAthena (engine athena) md (metering athena) (benchmarking athena))
    | None => (EVMC_SET_OPTION_INVALID_VALUE, athena)
    end
  else if String.eqb name "metering" then
    if String.eqb value "true" then
      (EVMC_SET_OPTION_SUCCESS,
       mkAthena (engine athena) (evm1mode athena) true (benchmarking athena))
    else if negb (String.eqb value "false") then (EVMC_SET_OPTION_INVALID_VALUE, athena)
    else (EVMC_SET_OPTION_SUCCESS, athena)
  else if String.eqb name "benchmark" then
    if String.eqb value "true" then
      (EVMC_SET_OPTION_SUCCESS,
       mkAthena (engine athena) (evm1mode athena) (metering athena) true)
    else (EVMC_SET_OPTION_INVALID_VALUE, athena)
  else if String.eqb name "engine" then
    if existsb (String.eqb value) wasm_engine_map then
      (EVMC_SET_OPTION_SUCCESS,
       mkAthena value (evm1mode athena) (metering athena) (benchmarking athena))
    else (EVMC_SET_OPTION_INVALID_VALUE, athena)
  else if String.prefix "sys:" name then
    match athena_parse_sys_option athena name value with
    | Some a => (EVMC_SET_OPTION_SUCCESS, a)
    | None => (EVMC_SET_OPTION_INVALID_VALUE, athena)
    end
  else (EVMC_SET_OPTION_INVALID_NAME, athena).

End SetOption.

End Host.
Import Host.

(** ** Wasm's [fmin] / [fmax], following the specification's words

    These are the refinement targets for the lowering of [f32.min],
    [f32.max], [f64.min] and [f64.max] (operands and result as bit
    patterns of the width): a NaN operand gives a NaN result; otherwise the
    smaller (larger) value, with -0 below +0. *)
Module WasmSpec.

Definition wasm_fmin_spec (w : fwidth) (a b r : Z) : Prop :=
  if is_nan w a || is_nan w b then is_nan w r = true
  else r = (if flt w a b then a else if flt w b a then b
            else if fsign w a then a else b).

Definition wasm_fmax_spec (w : fwidth) (a b r : Z) : Prop :=
  if is_nan w a || is_nan w b then is_nan w r = true
  else r = (if flt w a b then b else if flt w b a then a
            else if fsign w a then b else a).

End WasmSpec.
Import WasmSpec.

(** ** Concrete contracts and host functions for the host model *)

(** a module exporting its memory and [main]; reading it adds one
    zeroed memory *)
Definition counter_module : DefinedModule :=
  mkModule None [("memory"%string, KMemory); ("main"%string, KFunc)].
Definition counter_binary (env : Environment) (code : list Z)
  : option (DefinedModule * Environment) :=
  Some (counter_module, mkEnv ((fun _ => 0) :: memories env) (globals env) (ethereum_eei env)).
(** [Initialize]: no segment *)
Definition counter_Initialize (m : DefinedModule) (env : Environment) : Environment * bool :=
  (env, true).
(** [main] returns the byte at address 100 (a host call writes it into
    the result), then stores 1 there *)
Definition counter_main (m : DefinedModule) (env : Environment) (res : ExecutionResult)
  : Environment * ExecutionResult * run_outcome :=
  let mem := hd (fun _ => 0) (memories env) in
  (mkEnv ((fun a => if a =? 100 then 1 else mem a) :: tl (memories env)) (globals env)
         (ethereum_eei env),
   mkResult (gasLeft res) (isRevert res) [mem 100], RunOk).

(** a module that exports its memory but no [main] *)
Definition no_main_binary (env : Environment) (code : list Z)
  : option (DefinedModule * Environment) :=
  Some (mkModule None [("memory"%string, KMemory)],
        mkEnv ((fun _ => 0) :: memories env) (globals env) (ethereum_eei env)).

(** a module importing one host function, whose host function 0 runs out
    of gas; the code of its writer's constructor, at address 0 *)
Definition host_md : module := mkmodule 1 [] [] [].
Definition oog_env : native_env :=
  Build_native_env (fun _ => 0) (fun _ _ => -1) 0
    (fun _ _ idx => if idx =? 0 then inl (OutOfGas "out of gas") else inr 42).
Definition host_code : wstate :=
  match machine_code_writer host_md (empty_code 0) with
  | Some (_, w') => w' | None => empty_code 0 end.
Definition host_addrs : jit_addrs :=
  match machine_code_writer host_md (empty_code 0) with
  | Some (j, _) => j | None => mkAddrs 0 0 0 0 0 end.

(** ** Writer frames and the layout of the call sequences *)

(** [w'] extends [w]: the code pointer only grows and what was emitted
    below it stays *)
Definition extends (w w' : wstate) : Prop :=
  code w <= code w' /\ forall x, x < code w -> cmem w' x = cmem w x.

Definition grows {A} (e : W A) : Prop :=
  forall w a w', e w = Some (a, w') -> extends w w'.

(** the 16 bytes of [emit_error_handler n] at [h] *)
Definition handler_ok (cm : codemem) (h : Z) (n : native) : Prop :=
  cm h = Some (IAndRsp (-16), 4) /\ cm (h + 4) = Some (IMovAbs RAX (native_addr n), 10) /\
  cm (h + 14) = Some (ICallR RAX, 2).

(** the entry [start_function] records for imported function [i] when
    the writer's constructor starts at [w]: after the four 16-byte error
    handlers, one 40-byte [emit_host_call] stub per imported function *)
Definition host_entry (w : wstate) (i : Z) : Z := code w + 64 + 40 * i.

(** the 40 bytes of [emit_host_call i] at [a] *)
Definition host_stub_ok (cm : codemem) (a i : Z) : Prop :=
  cm a = Some (IMovImm32 RDX i, 5) /\ cm (a + 5) = Some (IPush RDI, 1) /\
  cm (a + 6) = Some (IPush RSI, 1) /\ cm (a + 7) = Some (ILeaRsp RSI 24, 5) /\
  cm (a + 12) = Some (IMovRR RCX RSP, 3) /\ cm (a + 15) = Some (IAndRsp (-16), 4) /\
  cm (a + 19) = Some (IPush RCX, 1) /\ cm (a + 20) = Some (IPush RCX, 1) /\
  cm (a + 21) = Some (IMovAbs RAX (native_addr NCallHostFunction), 10) /\
  cm (a + 31) = Some (ICallR RAX, 2) /\ cm (a + 33) = Some (ILoadRspTop, 4) /\
  cm (a + 37) = Some (IPop RSI, 1) /\ cm (a + 38) = Some (IPop RDI, 1) /\
  cm (a + 39) = Some (IRet, 1).

(** the 17-byte jump table entry of function [fn] at [a] *)
Definition entry_ok (md : module) (cih teh : Z) (cm : codemem) (a fn : Z) : Prop :=
  if fn <? Z.of_nat (List.length (fast_functions md)) then
    cm a = Some (ICmpImm 32 RDX (nth (Z.to_nat fn) (fast_functions md) 0), 6) /\
    cm (a + 6) = Some (IJcc CE (TFn (Z.to_nat fn)), 6) /\
    cm (a + 12) = Some (IJmp (TAddr teh), 5)
  else cm a = Some (IJmp (TAddr cih), 5).

(** a module with a two-entry table, for the witnesses below *)
Definition ci_module : module := mkmodule 0 [[0; 1]] [7; 8] [8].
Definition ci_ft : func_type := mkFuncType 1 1.
Definition ci_addrs : jit_addrs :=
  match machine_code_writer ci_module (empty_code 0) with
  | Some (j, _) => j | None => mkAddrs 0 0 0 0 0 end.
Definition ci_w1 : wstate :=
  match machine_code_writer ci_module (empty_code 0) with
  | Some (_, w) => w | None => empty_code 0 end.
Definition ci_w' : wstate :=
  match emit_call_indirect ci_module ci_addrs ci_ft 0 ci_w1 with
  | Some (_, w) => w | None => ci_w1 end.
Definition ci_machine : machine := stack_machine 4096 (code ci_w1) [1].

(** the depth check of [emit_check_call_depth]: [decl %ebx] then [jz
    stack_overflow]; [None] when the branch to the handler is taken *)
Definition depth_enter (ebx : Z) : option Z :=
  let v := u32 (ebx - 1) in if v =? 0 then None else Some v.

(** [k] nested calls from a counter [b] *)
Fixpoint nest (k : nat) (b : Z) : option Z :=
  match k with
  | O => Some b
  | S k => match depth_enter b with Some b' => nest k b' | None => None end
  end.

(** the code after the call returns: [emit_multipop(count)] for a count
    below 2^28, [pushq %rax] if the callee returns a value, [incl %ebx];
    [stop] is the end of the sequence *)
Definition ret_path_ok (cm : codemem) (a stop p rc : Z) : Prop :=
  let a1 := if p =? 0 then a else a + 7 in
  let a2 := if rc =? 0 then a1 else a1 + 1 in
  (if p =? 0 then True else cm a = Some (IAddRsp (p * 8), 7)) /\
  (if rc =? 0 then True else cm a1 = Some (IPush RAX, 1)) /\
  cm a2 = Some (IInc32 RBX, 2) /\ stop = a2 + 2.

(** [emit_call] after the constructor of [ci_module], and machines with
    depth counter [b] *)
Definition cd_w' : wstate :=
  match emit_call ci_addrs ci_ft 0 ci_w1 with Some (_, w) => w | None => ci_w1 end.
Definition cd_machine (b : Z) : machine :=
  mkM (fun r => match r with RSP => 4096 | RBX => b | _ => 0 end) 0 (fun _ => 0)
      false false (code ci_w1) [] false false (fun _ => 0).

(** ** br_table: the binary search of [br_table_generator] *)
Module BrTable.

(** [br_table_generator::stack_item]: a range [min, max) of case indices
    still to be handled, and the [jae] that jumps to its code, if any *)
Record stack_item := mkItem { min : Z; max : Z; branch_target : option Z }.

(** [br_table_generator]: the number [_i] of cases emitted so far and the
    stack of ranges, its back (the range handled next) first *)
Record br_table_generator := mkGen { _i : Z; stack : list stack_item }.

(** the [while (true)] loop of [emit_case(depth_change)]; a round either
    splits the range at the back at its midpoint or emits the case [_i].
    [fuel] bounds the rounds: a split halves a range of at most 2^32
    indices, so 33 rounds always suffice *)
Fixpoint emit_case_loop (fuel : nat) (depth_change : Z) (g : br_table_generator)
  : W (Z * br_table_generator) :=
  match fuel with
  | O => fail
  | S fuel =>
      match stack g with
      | [] => fail
      | it :: st =>
          let min := min it in
          let max := max it in
          (match branch_target it with Some label => fix_here label | None => ret tt end) ;;
          if 1 <? u32 (max - min) then
            let mid := u32 (min + u32 (max - min) / 2) in
            (* cmp i, %mid *) emit ([0x3d] ++ le32 mid) (ICmpImm 32 RAX mid) ;;
            (* jae MID *) mid_label <- emit_branch [0x0f; 0x83] (IJcc CAE) ;;
            emit_case_loop fuel depth_change
              (mkGen (_i g) (mkItem min mid None :: mkItem mid max (Some mid_label) :: st))
          else if negb (min =? _i g) then fail
          else
            let g' := mkGen (_i g + 1) st in
            if (depth_change =? 0) || (depth_change =? 0x80000001) then
              match branch_target it with
              | Some label => ret (label, g')
              | None => (* jmp TARGET *) s <- emit_branch [0xe9] IJmp ;; ret (s, g')
              end
            else
              emit_multipop depth_change ;;
              (* jmp TARGET *) s <- emit_branch [0xe9] IJmp ;; ret (s, g')
      end
  end.

Definition emit_case (depth_change : Z) (g : br_table_generator)
  : W (Z * br_table_generator) :=
  emit_case_loop 33 depth_change g.

Definition emit_default (depth_change : Z) (g : br_table_generator)
  : W (Z * br_table_generator) :=
  r <- emit_case depth_change g ;;
  match stack (snd r) with [] => ret r | _ => fail end.

(** [emit_br_table(table_size)]: [pop %rax], then the generator with the
    single range [0, table_size + 1) *)
Definition emit_br_table (table_size : Z) : W br_table_generator :=
  (* pop %rax *) emit [0x58] (IPop RAX) ;;
  ret (mkGen 0 [mkItem 0 (u32 (table_size + 1)) None]).

(** Modelled from the spec: the parser's lowering of [br_table] (not in
    src): [emit_case] once per table entry, with the entry's depth change,
    then [emit_default]; each returned branch is resolved to its entry's
    target, [TLabel k] for entry [k] and [TLabel table_size] for the
    default *)
Fixpoint emit_br_cases (k : Z) (cases : list Z) (g : br_table_generator)
  : W br_table_generator :=
  match cases with
  | [] => ret g
  | dc :: cases =>
      r <- emit_case dc g ;;
      fix_branch (fst r) (TLabel (Z.to_nat k)) ;;
      emit_br_cases (k + 1) cases (snd r)
  end.

Definition br_table_lowering (cases : list Z) (default : Z) : W unit :=
  let table_size := Z.of_nat (List.length cases) in
  g <- emit_br_table table_size ;;
  g <- emit_br_cases 0 cases g ;;
  r <- emit_default default g ;;
  fix_branch (fst r) (TLabel (Z.to_nat table_size)).

End BrTable.
Import BrTable.

(** the label a [br_table] on the index in %eax must leave through:
    the case's own, or [size] (the default) for an index at least [size] *)
Definition key (size : Z) (m : machine) : Z := Z.min (u32 (get m RAX)) size.

(** from [a], every machine whose key lies in [lo, hi) leaves through
    the label of its key *)
Definition reach (env : native_env) (cm : codemem) (stop size a lo hi : Z) : Prop :=
  forall m, pc m = a -> lo <= key size m < hi ->
  exists n m', run n env cm stop m = OExit (Z.to_nat (key size m)) m'.

(** the same for the target of a resolved branch *)
Definition reach_t (env : native_env) (cm : codemem) (stop size : Z) (t : tgt) (lo hi : Z)
  : Prop :=
  match t with
  | TAddr a => reach env cm stop size a lo hi
  | TLabel k => Z.of_nat k = lo /\ hi = lo + 1
  | _ => False
  end.

(** the ranges of the generator's stack are contiguous, from [lo] up to
    [size + 1] *)
Fixpoint contig (size : Z) (st : list stack_item) (lo : Z) : Prop :=
  match st with
  | [] => lo = size + 1
  | it :: st => min it = lo /\ lo < max it <= size + 1 /\ contig size st (max it)
  end.

(** the pending [jae]s of the stack *)
Fixpoint labels (st : list stack_item) : list Z :=
  match st with
  | [] => []
  | it :: st =>
      match branch_target it with Some l => l :: labels st | None => labels st end
  end.

(** the generator's invariant before a call of [emit_case] *)
Definition gen_pre (size : Z) (g : br_table_generator) (w : wstate) : Prop :=
  contig size (stack g) (_i g) /\ 0 <= _i g /\ NoDup (labels (stack g)) /\
  Forall (fun l => l < code w /\ exists t, cmem w l = Some (IJcc CAE t, 6))
         (labels (stack g)).

(** what the code emitted from [w] on, in the final buffer [wF], does
    for the ranges of [g]: the range at the back is handled at [code w],
    each pending [jae] reaches its range, earlier code is kept *)
Definition gen_post (env : native_env) (size : Z) (g : br_table_generator) (w wF : wstate)
  : Prop :=
  code w <= code wF /\
  match stack g with
  | it :: _ => branch_target it = None ->
      reach env (cmem wF) (code wF) size (code w) (min it) (max it)
  | [] => True
  end /\
  (forall it l, In it (stack g) -> branch_target it = Some l ->
     exists t, cmem wF l = Some (IJcc CAE t, 6) /\
       reach_t env (cmem wF) (code wF) size t (min it) (max it)) /\
  (forall x, x < code w -> ~ In x (labels (stack g)) -> cmem wF x = cmem w x).

(** a depth change as the parser passes it: a [uint32_t] with bits 28
    to 30 clear ([emit_multipop] plants an [int3] otherwise) *)
Definition dc_ok (dc : Z) : Prop := 0 <= dc < 2^32 /\ Z.land dc 0x70000000 = 0.

(** the [assert(stack.empty())] of [emit_default] *)
Definition default_rest (g : br_table_generator) : W unit :=
  match stack g with [] => ret tt | _ :: _ => fail end.

(** a concrete table: three cases, the second one popping three values *)
Definition bt_cases : list Z := [0; 3; 0].
Definition bt_w : wstate :=
  match br_table_lowering bt_cases 0x80000001 (empty_code 0) with
  | Some (_, w) => w
  | None => empty_code 0
  end.
Definition bt_machine (v : Z) : machine := stack_machine 4096 0 [v].

(** ** Wasm's integer and float operators, and the emitters the parser calls for them *)

Module WasmOps.

Inductive irelop := RelEq | RelNe | RelLtS | RelLtU | RelGtS | RelGtU | RelLeS | RelLeU | RelGeS | RelGeU.

Definition wasm_irelop (w : Z) (op : irelop) (a b : Z) : bool :=
  let a := a mod 2^w in
  let b := b mod 2^w in
  match op with
  | RelEq => a =? b
  | RelNe => negb (a =? b)
  | RelLtS => sw w a <? sw w b
  | RelLtU => a <? b
  | RelGtS => sw w b <? sw w a
  | RelGtU => b <? a
  | RelLeS => sw w a <=? sw w b
  | RelLeU => a <=? b
  | RelGeS => sw w b <=? sw w a
  | RelGeU => b <=? a
  end.

Definition i32_relop_emitter (op : irelop) : W unit :=
  match op with
  | RelEq => emit_i32_eq | RelNe => emit_i32_ne
  | RelLtS => emit_i32_lt_s | RelLtU => emit_i32_lt_u
  | RelGtS => emit_i32_gt_s | RelGtU => emit_i32_gt_u
  | RelLeS => emit_i32_le_s | RelLeU => emit_i32_le_u
  | RelGeS => emit_i32_ge_s | RelGeU => emit_i32_ge_u
  end.

Definition i64_relop_emitter (op : irelop) : W unit :=
  match op with
  | RelEq => emit_i64_eq | RelNe => emit_i64_ne
  | RelLtS => emit_i64_lt_s | RelLtU => emit_i64_lt_u
  | RelGtS => emit_i64_gt_s | RelGtU => emit_i64_gt_u
  | RelLeS => emit_i64_le_s | RelLeU => emit_i64_le_u
  | RelGeS => emit_i64_ge_s | RelGeU => emit_i64_ge_u
  end.

Inductive ibinop := BinAdd | BinSub | BinMul | BinAnd | BinOr | BinXor
                  | BinShl | BinShrS | BinShrU | BinRotl | BinRotr.

Definition wasm_ibinop (w : Z) (op : ibinop) (a b : Z) : Z :=
  let a := a mod 2^w in
  let b := b mod 2^w in
  let k := b mod w in
  match op with
  | BinAdd => (a + b) mod 2^w
  | BinSub => (a - b) mod 2^w
  | BinMul => (a * b) mod 2^w
  | BinAnd => Z.land a b
  | BinOr => Z.lor a b
  | BinXor => Z.lxor a b
  | BinShl => (a * 2^k) mod 2^w
  | BinShrS => (sw w a / 2^k) mod 2^w
  | BinShrU => a / 2^k
  | BinRotl => (a * 2^k) mod 2^w + a / 2^(w - k)
  | BinRotr => a / 2^k + (a * 2^(w - k)) mod 2^w
  end.

Definition i32_binop_emitter (op : ibinop) : W unit :=
  match op with
  | BinAdd => emit_i32_add | BinSub => emit_i32_sub | BinMul => emit_i32_mul
  | BinAnd => emit_i32_and | BinOr => emit_i32_or | BinXor => emit_i32_xor
  | BinShl => emit_i32_shl | BinShrS => emit_i32_shr_s | BinShrU => emit_i32_shr_u
  | BinRotl => emit_i32_rotl | BinRotr => emit_i32_rotr
  end.

Definition i64_binop_emitter (op : ibinop) : W unit :=
  match op with
  | BinAdd => emit_i64_add | BinSub => emit_i64_sub | BinMul => emit_i64_mul
  | BinAnd => emit_i64_and | BinOr => emit_i64_or | BinXor => emit_i64_xor
  | BinShl => emit_i64_shl | BinShrS => emit_i64_shr_s | BinShrU => emit_i64_shr_u
  | BinRotl => emit_i64_rotl | BinRotr => emit_i64_rotr
  end.

Inductive frelop := FEq | FNe | FLt | FGt | FLe | FGe.

Definition wasm_frelop (w : fwidth) (op : frelop) (a b : Z) : bool :=
  match op with
  | FEq => feq w a b
  | FNe => negb (feq w a b)
  | FLt => flt w a b
  | FGt => flt w b a
  | FLe => flt w a b || feq w a b
  | FGe => flt w b a || feq w b a
  end.

Definition f32_relop_emitter (op : frelop) : W unit :=
  match op with
  | FEq => emit_f32_eq | FNe => emit_f32_ne | FLt => emit_f32_lt
  | FGt => emit_f32_gt | FLe => emit_f32_le | FGe => emit_f32_ge
  end.

Definition f64_relop_emitter (op : frelop) : W unit :=
  match op with
  | FEq => emit_f64_eq | FNe => emit_f64_ne | FLt => emit_f64_lt
  | FGt => emit_f64_gt | FLe => emit_f64_le | FGe => emit_f64_ge
  end.

End WasmOps.
Import WasmOps.

(** inputs of the witnesses of the further properties: a machine whose linear memory holds
    0x80 at address 9, and the code of a prologue and of an epilogue *)
Definition lin_machine : machine :=
  set_lmem (fun a => if a =? 9 then 0x80 else 0) (stack_machine 4088 0 [4]).

Definition prologue_code : wstate :=
  match emit_prologue [2] (empty_code 0) with Some (_, w') => w' | None => empty_code 0 end.

Definition epilogue_code : wstate := emitted (emit_epilogue (mkFuncType 0 0) 1) (empty_code 0).

(** * Proofs *)

(** ** Symbolic execution of emitted snippets *)

Ltac cnorm := repeat match goal with
  | |- context [?x mod ?y] =>
      tryif (match constr:((x, y)) with context [?v] => is_var v end) then fail else idtac;
      let t := eval vm_compute in (x mod y) in
      match t with Z0 => idtac | Zpos _ => idtac | Zneg _ => idtac end;
      change (x mod y) with t
  end.
Ltac zdec := cnorm; repeat match goal with
  | |- context [?x =? ?y] =>
      match x with context [?v] => is_var v | _ => fail end;
      (replace (x =? y) with true by (symmetry; apply Z.eqb_eq; lia)) ||
      (replace (x =? y) with false by (symmetry; apply Z.eqb_neq; lia))
  end.
Ltac mach := cbv [set_pc set push pop store set_flags set_xmm0 add_log get jump cond_holds] in *; cbn [regs mem xmm0 zf cf log pc sf ovf lmem reg_eqb] in *.
Ltac sstep := cbn [run]; mach; zdec; unfold step; cbv beta; mach; zdec; cbn [exec retarget]; mach; cbv zeta; mach; zdec.

Lemma u32_range x : 0 <= u32 x < 2^32.
Proof. unfold u32. apply Z.mod_pos_bound. lia. Qed.
Lemma u64_range x : 0 <= u64 x < 2^64.
Proof. unfold u64. apply Z.mod_pos_bound. lia. Qed.
Lemma u64_id x : 0 <= x < 2^64 -> u64 x = x.
Proof. intros. unfold u64. apply Z.mod_small. lia. Qed.
Lemma u32_id x : 0 <= x < 2^32 -> u32 x = x.
Proof. intros. unfold u32. apply Z.mod_small. lia. Qed.

Lemma s32_range x : -2^31 <= s32 x < 2^31.
Proof. unfold s32. pose proof (u32_range x). destruct (u32 x <? 2^31) eqn:E; [apply Z.ltb_lt in E | apply Z.ltb_ge in E]; lia. Qed.
Lemma s64_range x : -2^63 <= s64 x < 2^63.
Proof. unfold s64. pose proof (u64_range x). destruct (u64 x <? 2^63) eqn:E; [apply Z.ltb_lt in E | apply Z.ltb_ge in E]; lia. Qed.

Lemma u32_s32 x : u32 (s32 x) = u32 x.
Proof.
  unfold s32. pose proof (u32_range x). destruct (u32 x <? 2^31).
  - apply u32_id. lia.
  - unfold u32 at 1. replace (u32 x - 2^32) with (u32 x + (-1) * 2^32) by lia.
    rewrite Z.mod_add by lia. apply u32_id. lia.
Qed.

(** cdq: sign extension of a 32-bit value into edx:eax *)
Lemma cdq_value x :
  s64 (u32 (if s32 x <? 0 then 2^32 - 1 else 0) * 2^32 + u32 x) = s32 x.
Proof.
  pose proof (u32_range x). unfold s32, s64, u64.
  destruct (u32 x <? 2^31) eqn:E; [apply Z.ltb_lt in E | apply Z.ltb_ge in E].
  - replace (u32 x <? 0) with false by (symmetry; apply Z.ltb_ge; lia).
    rewrite (u32_id 0) by lia. rewrite Z.mod_small by lia.
    replace (0 * 2^32 + u32 x <? 2^63) with true by (symmetry; apply Z.ltb_lt; lia). lia.
  - replace (u32 x - 2^32 <? 0) with true by (symmetry; apply Z.ltb_lt; lia).
    rewrite (u32_id (2^32-1)) by lia. rewrite Z.mod_small by lia.
    replace ((2 ^ 32 - 1) * 2 ^ 32 + u32 x <? 2^63) with false by (symmetry; apply Z.ltb_ge; lia). lia.
Qed.

Ltac u64s := repeat match goal with
  | |- context [u64 ?x] => rewrite (u64_id x) by lia
  end.

Lemma s32_m1 b : b mod 2^32 = 2^32 - 1 -> s32 b = -1.
Proof. intros E. unfold s32, u32. rewrite E. reflexivity. Qed.
Lemma s32_not_m1 b : b mod 2^32 <> 2^32 - 1 -> s32 b <> -1.
Proof.
  intros E. unfold s32, u32. pose proof (Z.mod_pos_bound b (2^32)).
  destruct (b mod 2^32 <? 2^31) eqn:F; [apply Z.ltb_lt in F | apply Z.ltb_ge in F]; lia.
Qed.

Lemma s64_m1 b : b mod 2^64 = 2^64 - 1 -> s64 b = -1.
Proof. intros E. unfold s64, u64. rewrite E. reflexivity. Qed.
Lemma s64_not_m1 b : b mod 2^64 <> 2^64 - 1 -> s64 b <> -1.
Proof.
  intros E. unfold s64, u64. pose proof (Z.mod_pos_bound b (2^64)).
  destruct (b mod 2^64 <? 2^63) eqn:F; [apply Z.ltb_lt in F | apply Z.ltb_ge in F]; lia.
Qed.

(** cqo: sign extension of a 64-bit value into rdx:rax *)
Lemma cqo_value x :
  s128 (u64 (if s64 x <? 0 then 2^64 - 1 else 0) * 2^64 + u64 x) = s64 x.
Proof.
  pose proof (u64_range x). unfold s64, s128.
  destruct (u64 x <? 2^63) eqn:E; [apply Z.ltb_lt in E | apply Z.ltb_ge in E].
  - replace (u64 x <? 0) with false by (symmetry; apply Z.ltb_ge; lia).
    rewrite (u64_id 0) by lia. rewrite Z.mod_small by lia.
    replace (0 * 2^64 + u64 x <? 2^127) with true by (symmetry; apply Z.ltb_lt; lia). lia.
  - replace (u64 x - 2^64 <? 0) with true by (symmetry; apply Z.ltb_lt; lia).
    rewrite (u64_id (2^64-1)) by lia. rewrite Z.mod_small by lia.
    replace ((2 ^ 64 - 1) * 2 ^ 64 + u64 x <? 2^127) with false by (symmetry; apply Z.ltb_ge; lia). lia.
Qed.

Lemma quot_range P n d : 0 < P -> -P <= n < P -> d <> 0 -> ~ (n = -P /\ d = -1) ->
  -P <= Z.quot n d < P.
Proof.
  intros HP Hn Hd Hov.
  destruct (Z.eq_dec d 1) as [->|H1]; [rewrite Z.quot_1_r; lia|].
  destruct (Z.eq_dec d (-1)) as [->|H2].
  - replace (-1) with (- (1)) by reflexivity. rewrite (Z.quot_opp_r n 1), Z.quot_1_r by lia. lia.
  - pose proof (Z.quot_abs n d Hd) as Ha.
    rewrite Z.quot_div_nonneg in Ha by lia.
    assert (Z.abs n / Z.abs d < P) by (apply Z.div_lt_upper_bound; nia).
    remember (Z.quot n d) as q. remember (Z.abs n / Z.abs d) as r. lia.
Qed.

Lemma i32_rem_s_run (env : native_env) (w w' : wstate) (m : machine) (a b : Z) :
  emit_i32_rem_s w = Some (tt, w') ->
  pc m = code w -> 0 <= get m RSP -> get m RSP + 16 < 2^64 ->
  mem m (get m RSP) = b -> mem m (get m RSP + 8) = a ->
  if s32 b =? 0 then run 12 env (cmem w') (code w') m = OFault DivideError
  else returns_top (run 12 env (cmem w') (code w') m) (get m RSP + 8)
         (u32 (Z.rem (s32 a) (s32 b))).
Proof.
  destruct w as [c cm], m as [rg x mm z cf0 p lg]. cbn [code get regs mem pc].
  intros Hw -> H0 H1 Hb Ha.
  cbv [emit_i32_rem_s bind emit emit_branch fix_here fix_branch get_code ret code cmem List.length] in Hw.
  cbv zeta in Hw. simpl Z.of_nat in Hw. injection Hw as <-.
  cbv [code cmem].
  do 3 sstep. u64s. rewrite Hb, Ha.
  destruct (Z.eq_dec (b mod 2^32) (2^32 - 1)) as [E|E].
  - rewrite (s32_m1 b E). cbn [Z.eqb Pos.eqb]. do 4 sstep. u64s.
    eexists; split; [reflexivity|]. mach. split; [lia|]. zdec.
    rewrite Z.lxor_nilpotent, (Z.rem_opp_r _ 1), Z.rem_1_r by lia. reflexivity.
  - pose proof (s32_not_m1 b E) as E'. do 4 sstep. rewrite cdq_value.
    destruct (Z.eqb_spec (s32 b) 0) as [Z0|Z0]; [reflexivity|].
    pose proof (quot_range (2^31) (s32 a) (s32 b) ltac:(lia) (s32_range a) Z0 ltac:(lia)) as Q.
    replace ((Z.quot (s32 a) (s32 b) <? - 2 ^ 31) || (2 ^ 31 <=? Z.quot (s32 a) (s32 b)))%bool
      with false by (symmetry; apply Bool.orb_false_iff; split; [apply Z.ltb_ge | apply Z.leb_gt]; lia).
    do 3 sstep. u64s.
    eexists; split; [reflexivity|]. mach. split; [lia|]. zdec. reflexivity.
Qed.

Lemma i64_rem_s_run (env : native_env) (w w' : wstate) (m : machine) (a b : Z) :
  emit_i64_rem_s w = Some (tt, w') ->
  pc m = code w -> 0 <= get m RSP -> get m RSP + 16 < 2^64 ->
  mem m (get m RSP) = b -> mem m (get m RSP + 8) = a ->
  if s64 b =? 0 then run 12 env (cmem w') (code w') m = OFault DivideError
  else returns_top (run 12 env (cmem w') (code w') m) (get m RSP + 8)
         (u64 (Z.rem (s64 a) (s64 b))).
Proof.
  destruct w as [c cm], m as [rg x mm z cf0 p lg]. cbn [code get regs mem pc].
  intros Hw -> H0 H1 Hb Ha.
  cbv [emit_i64_rem_s bind emit emit_branch fix_here fix_branch get_code ret code cmem List.length] in Hw.
  cbv zeta in Hw. simpl Z.of_nat in Hw. injection Hw as <-.
  cbv [code cmem].
  do 3 sstep. u64s. rewrite Hb, Ha.
  destruct (Z.eq_dec (b mod 2^64) (2^64 - 1)) as [E|E].
  - rewrite (s64_m1 b E). cbn [Z.eqb Pos.eqb]. do 4 sstep. u64s.
    eexists; split; [reflexivity|]. mach. split; [lia|]. zdec.
    rewrite Z.lxor_nilpotent, (Z.rem_opp_r _ 1), Z.rem_1_r by lia. reflexivity.
  - pose proof (s64_not_m1 b E) as E'. do 4 sstep. rewrite cqo_value.
    destruct (Z.eqb_spec (s64 b) 0) as [Z0|Z0]; [reflexivity|].
    pose proof (quot_range (2^63) (s64 a) (s64 b) ltac:(lia) (s64_range a) Z0 ltac:(lia)) as Q.
    replace ((Z.quot (s64 a) (s64 b) <? - 2 ^ 63) || (2 ^ 63 <=? Z.quot (s64 a) (s64 b)))%bool
      with false by (symmetry; apply Bool.orb_false_iff; split; [apply Z.ltb_ge | apply Z.leb_gt]; lia).
    do 3 sstep. u64s.
    eexists; split; [reflexivity|]. mach. split; [lia|]. zdec. reflexivity.
Qed.

Lemma i32_div_s_run (env : native_env) (w w' : wstate) (m : machine) (a b : Z) :
  emit_i32_div_s w = Some (tt, w') ->
  pc m = code w -> 0 <= get m RSP -> get m RSP + 16 < 2^64 ->
  mem m (get m RSP) = b -> mem m (get m RSP + 8) = a ->
  s32 b <> 0 -> ~ (s32 a = - 2^31 /\ s32 b = -1) ->
  returns_top (run 12 env (cmem w') (code w') m) (get m RSP + 8)
    (u32 (Z.quot (s32 a) (s32 b))).
Proof.
  destruct w as [c cm], m as [rg x mm z cf0 p lg]. cbn [code get regs mem pc].
  intros Hw -> H0 H1 Hb Ha Z0 Hov.
  cbv [emit_i32_div_s emit_i32_binop emit_all bind emit ret code cmem List.length] in Hw.
  cbv zeta in Hw. simpl Z.of_nat in Hw. injection Hw as <-.
  cbv [code cmem].
  do 4 sstep. u64s. rewrite Hb, Ha, cdq_value.
  replace (s32 b =? 0) with false by (symmetry; apply Z.eqb_neq; exact Z0).
  pose proof (quot_range (2^31) (s32 a) (s32 b) ltac:(lia) (s32_range a) Z0 Hov) as Q.
  replace ((Z.quot (s32 a) (s32 b) <? - 2 ^ 31) || (2 ^ 31 <=? Z.quot (s32 a) (s32 b)))%bool
    with false by (symmetry; apply Bool.orb_false_iff; split; [apply Z.ltb_ge | apply Z.leb_gt]; lia).
  do 2 sstep. u64s.
  eexists; split; [reflexivity|]. mach. split; [lia|]. zdec. reflexivity.
Qed.

Lemma i64_div_s_run (env : native_env) (w w' : wstate) (m : machine) (a b : Z) :
  emit_i64_div_s w = Some (tt, w') ->
  pc m = code w -> 0 <= get m RSP -> get m RSP + 16 < 2^64 ->
  mem m (get m RSP) = b -> mem m (get m RSP + 8) = a ->
  s64 b <> 0 -> ~ (s64 a = - 2^63 /\ s64 b = -1) ->
  returns_top (run 12 env (cmem w') (code w') m) (get m RSP + 8)
    (u64 (Z.quot (s64 a) (s64 b))).
Proof.
  destruct w as [c cm], m as [rg x mm z cf0 p lg]. cbn [code get regs mem pc].
  intros Hw -> H0 H1 Hb Ha Z0 Hov.
  cbv [emit_i64_div_s emit_i64_binop emit_all bind emit ret code cmem List.length] in Hw.
  cbv zeta in Hw. simpl Z.of_nat in Hw. injection Hw as <-.
  cbv [code cmem].
  do 4 sstep. u64s. rewrite Hb, Ha, cqo_value.
  replace (s64 b =? 0) with false by (symmetry; apply Z.eqb_neq; exact Z0).
  pose proof (quot_range (2^63) (s64 a) (s64 b) ltac:(lia) (s64_range a) Z0 Hov) as Q.
  replace ((Z.quot (s64 a) (s64 b) <? - 2 ^ 63) || (2 ^ 63 <=? Z.quot (s64 a) (s64 b)))%bool
    with false by (symmetry; apply Bool.orb_false_iff; split; [apply Z.ltb_ge | apply Z.leb_gt]; lia).
  do 2 sstep. u64s.
  eexists; split; [reflexivity|]. mach. split; [lia|]. zdec. reflexivity.
Qed.

(** ** C6: signed division and remainder *)

(** C6: the code emitted for [i32.rem_s] and [i64.rem_s] pops the divisor
    [b] and the dividend [a] and pushes the truncated signed remainder
    [Z.rem a b] (a divide error for the divisor 0); every divisor equal to
    -1, [INT_MIN] included, is short-circuited to the result 0 without the
    native divide; [i32.div_s] and [i64.div_s] sign-extend the dividend
    (cdq / cqo) before [idiv] and push the truncated quotient whenever it
    is representable. *)
Theorem signed_div_rem_lowering :
  (forall env w w' m a b,
     emit_i32_rem_s w = Some (tt, w') ->
     pc m = code w -> 0 <= get m RSP -> get m RSP + 16 < 2^64 ->
     mem m (get m RSP) = b -> mem m (get m RSP + 8) = a ->
     (if s32 b =? 0 then run 12 env (cmem w') (code w') m = OFault DivideError
      else returns_top (run 12 env (cmem w') (code w') m) (get m RSP + 8)
             (u32 (Z.rem (s32 a) (s32 b)))) /\
     (s32 b = -1 ->
      returns_top (run 12 env (cmem w') (code w') m) (get m RSP + 8) 0)) /\
  (forall env w w' m a b,
     emit_i64_rem_s w = Some (tt, w') ->
     pc m = code w -> 0 <= get m RSP -> get m RSP + 16 < 2^64 ->
     mem m (get m RSP) = b -> mem m (get m RSP + 8) = a ->
     (if s64 b =? 0 then run 12 env (cmem w') (code w') m = OFault DivideError
      else returns_top (run 12 env (cmem w') (code w') m) (get m RSP + 8)
             (u64 (Z.rem (s64 a) (s64 b)))) /\
     (s64 b = -1 ->
      returns_top (run 12 env (cmem w') (code w') m) (get m RSP + 8) 0)) /\
  (forall env w w' m a b,
     emit_i32_div_s w = Some (tt, w') ->
     pc m = code w -> 0 <= get m RSP -> get m RSP + 16 < 2^64 ->
     mem m (get m RSP) = b -> mem m (get m RSP + 8) = a ->
     s32 b <> 0 -> ~ (s32 a = - 2^31 /\ s32 b = -1) ->
     returns_top (run 12 env (cmem w') (code w') m) (get m RSP + 8)
       (u32 (Z.quot (s32 a) (s32 b)))) /\
  (forall env w w' m a b,
     emit_i64_div_s w = Some (tt, w') ->
     pc m = code w -> 0 <= get m RSP -> get m RSP + 16 < 2^64 ->
     mem m (get m RSP) = b -> mem m (get m RSP + 8) = a ->
     s64 b <> 0 -> ~ (s64 a = - 2^63 /\ s64 b = -1) ->
     returns_top (run 12 env (cmem w') (code w') m) (get m RSP + 8)
       (u64 (Z.quot (s64 a) (s64 b)))).
Proof.
  split; [|split; [|split]].
  - intros env w w' m a b Hw Hpc H0 H1 Hb Ha.
    pose proof (i32_rem_s_run env w w' m a b Hw Hpc H0 H1 Hb Ha) as R.
    split; [exact R|]. intros E. rewrite E in R. cbn in R.
    rewrite (Z.rem_opp_r _ 1), Z.rem_1_r in R by lia. exact R.
  - intros env w w' m a b Hw Hpc H0 H1 Hb Ha.
    pose proof (i64_rem_s_run env w w' m a b Hw Hpc H0 H1 Hb Ha) as R.
    split; [exact R|]. intros E. rewrite E in R. cbn in R.
    rewrite (Z.rem_opp_r _ 1), Z.rem_1_r in R by lia. exact R.
  - exact i32_div_s_run.
  - exact i64_div_s_run.
Qed.

(** the INT_MIN % -1 case, run on a concrete stack *)
Lemma signed_div_rem_lowering_witness :
  returns_top
    (run 12 null_env (cmem (emitted emit_i32_rem_s (empty_code 0)))
       (code (emitted emit_i32_rem_s (empty_code 0)))
       (stack_machine 4096 0 [2^32 - 1; 2^31]))
    (4096 + 8) 0.
Proof.
  apply (proj2 (proj1 signed_div_rem_lowering null_env (empty_code 0)
                 (emitted emit_i32_rem_s (empty_code 0))
                 (stack_machine 4096 0 [2^32 - 1; 2^31]) (2^31) (2^32 - 1)
                 eq_refl eq_refl ltac:(vm_compute; congruence) ltac:(vm_compute; reflexivity)
                 eq_refl eq_refl)).
  vm_compute. reflexivity.
Defined.

(** ** Calls of native functions *)

Ltac cnat := repeat match goal with
  | |- context [native_of_addr ?x] =>
      tryif (match x with context [?v] => is_var v end) then fail else idtac;
      let t := eval vm_compute in (native_of_addr x) in
      replace (native_of_addr x) with t by (vm_compute; reflexivity)
  end.
Ltac mach2 := cbv [native_call set_pc set push pop store set_flags set_xmm0 add_log get jump cond_holds regs mem xmm0 zf cf log pc sf ovf lmem reg_eqb] in *.
Ltac nstep := cbn [run]; mach2; zdec; unfold step; cbv beta; mach2; zdec; cbn [exec retarget]; mach2; cnat; mach2; zdec.

Lemma current_memory_run (env : native_env) (w w' : wstate) (m : machine) :
  emit_current_memory w = Some (tt, w') -> pc m = code w -> 16 <= get m RSP < 2^64 ->
  exists m', run 12 env (cmem w') (code w') m = ODone m' /\
    log m' = log m ++ [(NCurrentMemory, get m RSP - 16, get m RDI, get m RSI)] /\
    get m' RSP = get m RSP - 8 /\ get m' RDI = get m RDI /\ get m' RSI = get m RSI /\
    mem m' (get m RSP - 8) = set_low 32 (ne_junk env) (ne_current_memory env (get m RDI)).
Proof.
  destruct w as [c cm], m as [rg x mm z cf0 p lg]. cbn [code get regs mem pc log].
  intros Hw -> H0.
  cbv [emit_current_memory bind emit ret code cmem List.length] in Hw.
  cbv zeta in Hw. simpl Z.of_nat in Hw. injection Hw as <-.
  cbv [code cmem].
  do 7 nstep. u64s. zdec.
  eexists; split; [reflexivity|]. cbn [regs mem log].
  repeat split; try reflexivity; try lia.
  - replace (rg RSP - 8 - 8) with (rg RSP - 16) by lia. reflexivity.
  - zdec. reflexivity.
Qed.

Lemma grow_memory_run (env : native_env) (w w' : wstate) (m : machine) :
  emit_grow_memory w = Some (tt, w') -> pc m = code w -> 8 <= get m RSP -> get m RSP + 8 < 2^64 ->
  exists m', run 12 env (cmem w') (code w') m = ODone m' /\
    log m' = log m ++ [(NGrowMemory, get m RSP - 8, get m RDI, mem m (get m RSP))] /\
    get m' RSP = get m RSP /\ get m' RDI = get m RDI /\ get m' RSI = get m RSI /\
    mem m' (get m RSP) =
      set_low 32 (ne_junk env) (ne_grow_memory env (get m RDI) (s32 (mem m (get m RSP)))).
Proof.
  destruct w as [c cm], m as [rg x mm z cf0 p lg]. cbn [code get regs mem pc log].
  intros Hw -> H0 H1.
  cbv [emit_grow_memory bind emit ret code cmem List.length] in Hw.
  cbv zeta in Hw. simpl Z.of_nat in Hw. injection Hw as <-.
  cbv [code cmem].
  do 9 nstep. u64s. zdec.
  eexists; split; [reflexivity|]. cbn [regs mem log].
  repeat split; try reflexivity; try lia.
  - replace (rg RSP + 8 - 8 - 8) with (rg RSP - 8) by lia. reflexivity.
  - zdec. reflexivity.
Qed.

(** C4: the code emitted for [memory.size] ([emit_current_memory]) and
    [memory.grow] ([emit_grow_memory]) saves rdi and rsi around the call of
    the C-ABI shim, restores them and pushes the shim's result, but calls
    the shim with the stack pointer at a fixed offset of the one it was
    entered with (16 below it for [memory.size], 8 below it for
    [memory.grow], after popping the operand): no step of the snippet
    aligns the native stack to 16 bytes. *)
Theorem memory_ops_call_stack :
  (forall env w w' m,
     emit_current_memory w = Some (tt, w') -> pc m = code w -> 16 <= get m RSP < 2^64 ->
     exists m', run 12 env (cmem w') (code w') m = ODone m' /\
       log m' = log m ++ [(NCurrentMemory, get m RSP - 16, get m RDI, get m RSI)] /\
       get m' RSP = get m RSP - 8 /\ get m' RDI = get m RDI /\ get m' RSI = get m RSI /\
       mem m' (get m RSP - 8) =
         set_low 32 (ne_junk env) (ne_current_memory env (get m RDI))) /\
  (forall env w w' m,
     emit_grow_memory w = Some (tt, w') -> pc m = code w -> 8 <= get m RSP ->
     get m RSP + 8 < 2^64 ->
     exists m', run 12 env (cmem w') (code w') m = ODone m' /\
       log m' = log m ++ [(NGrowMemory, get m RSP - 8, get m RDI, mem m (get m RSP))] /\
       get m' RSP = get m RSP /\ get m' RDI = get m RDI /\ get m' RSI = get m RSI /\
       mem m' (get m RSP) =
         set_low 32 (ne_junk env)
           (ne_grow_memory env (get m RDI) (s32 (mem m (get m RSP))))).
Proof. split; [exact current_memory_run | exact grow_memory_run]. Qed.

(** [memory.size] entered with one operand slot below a 16-byte aligned
    frame (rsp = 0x1008): the shim is called with rsp = 0xff8, which is
    8 modulo 16. *)
Lemma memory_ops_call_stack_witness :
  exists m', run 12 null_env (cmem (emitted emit_current_memory (empty_code 0)))
               (code (emitted emit_current_memory (empty_code 0)))
               (stack_machine 4104 0 [7]) = ODone m' /\
    log m' = [(NCurrentMemory, 4088, 0, 0)] /\ get m' RSP = 4096 /\
    get m' RDI = 0 /\ get m' RSI = 0 /\ mem m' 4096 = 0.
Proof.
  exact (proj1 memory_ops_call_stack null_env (empty_code 0)
           (emitted emit_current_memory (empty_code 0)) (stack_machine 4104 0 [7])
           eq_refl eq_refl ltac:(vm_compute; split; congruence)).
Defined.

(** ** Floating-point min and max *)

Lemma set_low_mod w old x : 0 <= w -> set_low w old x mod 2^w = x mod 2^w.
Proof.
  intros Hw. unfold set_low. assert (0 < 2^w) by (apply Z.pow_pos_nonneg; lia).
  rewrite (Z.mod_eq old (2^w)) by lia.
  replace (old - (old - 2 ^ w * (old / 2 ^ w)) + x mod 2 ^ w)
    with (x mod 2^w + (old / 2^w) * 2^w) by ring.
  rewrite Z.mod_add, Zmod_mod by lia. reflexivity.
Qed.

Lemma set_low_small w old x : 0 <= old < 2^w -> set_low w old x = x mod 2^w.
Proof. intros H. unfold set_low. rewrite (Z.mod_small old) by lia. lia. Qed.

Lemma x86_min_mod w d s :
  x86_min w (d mod 2^fbits w) (s mod 2^fbits w) mod 2^fbits w =
  x86_min w (d mod 2^fbits w) (s mod 2^fbits w).
Proof. unfold x86_min. destruct (flt _ _ _); apply Zmod_mod. Qed.

Lemma x86_max_mod w d s :
  x86_max w (d mod 2^fbits w) (s mod 2^fbits w) mod 2^fbits w =
  x86_max w (d mod 2^fbits w) (s mod 2^fbits w).
Proof. unfold x86_max. destruct (flt _ _ _); apply Zmod_mod. Qed.

Ltac fin_float Hb Ha :=
  eexists; split; [reflexivity|]; cbn [regs mem]; split; [reflexivity|]; zdec;
  rewrite ?Z.add_0_r, ?Hb, ?Ha, ?Zmod_mod;
  rewrite set_low_mod by (cbn; lia);
  rewrite set_low_small by (apply Z.mod_pos_bound; cbn; lia);
  rewrite Zmod_mod; first [rewrite x86_min_mod | rewrite x86_max_mod]; reflexivity.

Ltac float_proof f M :=
  intros Hw Hpc H0 H1 Hb Ha; revert Hw Hpc H0 H1 Hb Ha;
  match goal with |- context [run _ _ _ _ ?m] => destruct m as [rg x mm z cf0 p lg sf0 of0 lm] end;
  match goal with |- context [f ?w] => destruct w as [c cm] end;
  cbn [code get regs mem pc]; intros Hw -> H0 H1 Hb Ha;
  unfold f in Hw; cbv [bind emit emit_branch fix_here fix_branch get_code ret code cmem List.length] in Hw;
  cbv zeta in Hw; simpl Z.of_nat in Hw; injection Hw as <-;
  cbv [code cmem];
  do 3 sstep; u64s; rewrite ?Hb, ?Ha, Zmod_mod;
  match goal with |- context [?bb mod M =? 0] => destruct (Z.eqb_spec (bb mod M) 0) as [E|E] end;
  do 5 sstep; u64s; zdec; fin_float Hb Ha.

Lemma f32_min_run (env : native_env) (w w' : wstate) (m : machine) (a b : Z) :
  emit_f32_min w = Some (tt, w') ->
  pc m = code w -> 0 <= get m RSP -> get m RSP + 16 < 2^64 ->
  mem m (get m RSP) = b -> mem m (get m RSP + 8) = a ->
  exists m', run 12 env (cmem w') (code w') m = ODone m' /\ get m' RSP = get m RSP + 8 /\
    mem m' (get m RSP + 8) mod 2^32 =
      (if b mod 2^32 =? 0 then x86_min F32 (b mod 2^32) (a mod 2^32)
       else x86_min F32 (a mod 2^32) (b mod 2^32)).
Proof. float_proof emit_f32_min (2^32). Qed.

Lemma f32_max_run (env : native_env) (w w' : wstate) (m : machine) (a b : Z) :
  emit_f32_max w = Some (tt, w') ->
  pc m = code w -> 0 <= get m RSP -> get m RSP + 16 < 2^64 ->
  mem m (get m RSP) = b -> mem m (get m RSP + 8) = a ->
  exists m', run 12 env (cmem w') (code w') m = ODone m' /\ get m' RSP = get m RSP + 8 /\
    mem m' (get m RSP + 8) mod 2^32 =
      (if b mod 2^32 =? 0 then x86_max F32 (a mod 2^32) (b mod 2^32)
       else x86_max F32 (b mod 2^32) (a mod 2^32)).
Proof. float_proof emit_f32_max (2^32). Qed.

Lemma f64_min_run (env : native_env) (w w' : wstate) (m : machine) (a b : Z) :
  emit_f64_min w = Some (tt, w') ->
  pc m = code w -> 0 <= get m RSP -> get m RSP + 16 < 2^64 ->
  mem m (get m RSP) = b -> mem m (get m RSP + 8) = a ->
  exists m', run 12 env (cmem w') (code w') m = ODone m' /\ get m' RSP = get m RSP + 8 /\
    mem m' (get m RSP + 8) mod 2^64 =
      (if b mod 2^64 =? 0 then x86_min F64 (b mod 2^64) (a mod 2^64)
       else x86_min F64 (a mod 2^64) (b mod 2^64)).
Proof. float_proof emit_f64_min (2^64). Qed.

Lemma f64_max_run (env : native_env) (w w' : wstate) (m : machine) (a b : Z) :
  emit_f64_max w = Some (tt, w') ->
  pc m = code w -> 0 <= get m RSP -> get m RSP + 16 < 2^64 ->
  mem m (get m RSP) = b -> mem m (get m RSP + 8) = a ->
  exists m', run 12 env (cmem w') (code w') m = ODone m' /\ get m' RSP = get m RSP + 8 /\
    mem m' (get m RSP + 8) mod 2^64 =
      (if b mod 2^64 =? 0 then x86_max F64 (a mod 2^64) (b mod 2^64)
       else x86_max F64 (b mod 2^64) (a mod 2^64)).
Proof. float_proof emit_f64_max (2^64). Qed.

Lemma fbits_pos w : 1 <= fbits w.
Proof. destruct w; cbn; lia. Qed.

Lemma sign_split w x : 0 <= x < 2^fbits w ->
  x = (if fsign w x then 2^(fbits w - 1) else 0) + x mod 2^(fbits w - 1).
Proof.
  intros Hx. pose proof (fbits_pos w) as Hn.
  unfold fsign. rewrite Z.mod_small by lia.
  set (k := fbits w - 1) in *.
  assert (Hk : 2^fbits w = 2 * 2^k) by (unfold k; rewrite <- Z.pow_succ_r by lia; f_equal; lia).
  assert (0 < 2^k) by (apply Z.pow_pos_nonneg; lia).
  pose proof (Z.testbit_spec' x k ltac:(lia)) as T.
  assert (0 <= x / 2^k < 2) by (split; [apply Z.div_pos | apply Z.div_lt_upper_bound]; lia).
  pose proof (Z.div_mod x (2^k) ltac:(lia)).
  destruct (Z.testbit x k); cbn in T;
    rewrite Z.mod_small in T by lia; nia.
Qed.

Lemma fkey_eq w a b : 0 <= a < 2^fbits w -> 0 <= b < 2^fbits w ->
  fkey w a = fkey w b ->
  a = b \/ (a mod 2^(fbits w - 1) = 0 /\ b mod 2^(fbits w - 1) = 0).
Proof.
  intros Ha Hb E. pose proof (sign_split w a Ha). pose proof (sign_split w b Hb).
  pose proof (Z.mod_pos_bound a (2^(fbits w - 1)) ltac:(apply Z.pow_pos_nonneg; pose proof (fbits_pos w); lia)).
  pose proof (Z.mod_pos_bound b (2^(fbits w - 1)) ltac:(apply Z.pow_pos_nonneg; pose proof (fbits_pos w); lia)).
  unfold fkey in E.
  destruct (fsign w a), (fsign w b); lia.
Qed.

Ltac fcases w a b Ha Hb :=
  pose proof (sign_split w a Ha); pose proof (sign_split w b Hb);
  pose proof (Z.mod_pos_bound a (2^(fbits w - 1)) ltac:(apply Z.pow_pos_nonneg; pose proof (fbits_pos w); lia));
  pose proof (Z.mod_pos_bound b (2^(fbits w - 1)) ltac:(apply Z.pow_pos_nonneg; pose proof (fbits_pos w); lia)).

Lemma x86_min_refines w a b :
  0 <= a < 2^fbits w -> 0 <= b < 2^fbits w ->
  is_nan w a = false -> is_nan w b = false ->
  (if b =? 0 then x86_min w b a else x86_min w a b) =
  (if flt w a b then a else if flt w b a then b else if fsign w a then a else b).
Proof.
  intros Ha Hb Na Nb. unfold x86_min, flt. rewrite Na, Nb. cbn [negb andb].
  destruct (Z.ltb_spec (fkey w a) (fkey w b)) as [L|L];
  destruct (Z.ltb_spec (fkey w b) (fkey w a)) as [L'|L']; try lia;
  destruct (Z.eqb_spec b 0) as [B|B]; try reflexivity.
  - assert (E : fkey w a = fkey w b) by lia.
    destruct (fkey_eq w a b Ha Hb E) as [->|[Ma Mb]]; [destruct (fsign w b); reflexivity|].
    subst b. fcases w a 0 Ha Hb. destruct (fsign w a) eqn:Sa; [reflexivity|]. lia.
  - assert (E : fkey w a = fkey w b) by lia.
    destruct (fkey_eq w a b Ha Hb E) as [->|[Ma Mb]]; [destruct (fsign w b); reflexivity|].
    fcases w a b Ha Hb.
    destruct (fsign w a) eqn:Sa, (fsign w b) eqn:Sb; try reflexivity; lia.
Qed.

Lemma x86_max_refines w a b :
  0 <= a < 2^fbits w -> 0 <= b < 2^fbits w ->
  is_nan w a = false -> is_nan w b = false ->
  (if b =? 0 then x86_max w a b else x86_max w b a) =
  (if flt w a b then b else if flt w b a then a else if fsign w a then b else a).
Proof.
  intros Ha Hb Na Nb. unfold x86_max, flt. rewrite Na, Nb. cbn [negb andb].
  destruct (Z.ltb_spec (fkey w a) (fkey w b)) as [L|L];
  destruct (Z.ltb_spec (fkey w b) (fkey w a)) as [L'|L']; try lia;
  destruct (Z.eqb_spec b 0) as [B|B]; try reflexivity.
  - assert (E : fkey w a = fkey w b) by lia.
    destruct (fkey_eq w a b Ha Hb E) as [->|[Ma Mb]]; [destruct (fsign w b); reflexivity|].
    subst b. fcases w a 0 Ha Hb. destruct (fsign w a) eqn:Sa; [reflexivity|]. lia.
  - assert (E : fkey w a = fkey w b) by lia.
    destruct (fkey_eq w a b Ha Hb E) as [->|[Ma Mb]]; [destruct (fsign w b); reflexivity|].
    fcases w a b Ha Hb.
    destruct (fsign w a) eqn:Sa, (fsign w b) eqn:Sb; try reflexivity; lia.
Qed.

Ltac minmax_part run refines spec :=
  intros env w w' m a b Hw Hpc H0 H1 Hb Ha;
  destruct (run env w w' m a b Hw Hpc H0 H1 Hb Ha) as [m' [R [S V]]];
  exists m'; split; [exact R|]; split; [exact S|]; split; [exact V|];
  intros Na Nb; unfold spec; rewrite Na, Nb; cbn [orb]; rewrite V;
  apply refines; auto; apply Z.mod_pos_bound; cbn; lia.

(** C5 (amended): the lowering of [f32.min], [f32.max], [f64.min] and
    [f64.max] tests whether the right operand [b] (on top of the stack) is
    +0 (all bits zero) and orders the operands of MINSS/MAXSS by that test.
    The result is the x86 MINSS/MAXSS result on that order; for all
    operands that are not NaN it is Wasm's [fmin]/[fmax], so
    min(-0,+0) = -0 and max(-0,+0) = +0.  NaN is not propagated: a NaN
    operand gives whatever MINSS/MAXSS returns, its source operand. *)
Theorem float_minmax_lowering :
  (forall env w w' m a b,
     emit_f32_min w = Some (tt, w') ->
     pc m = code w -> 0 <= get m RSP -> get m RSP + 16 < 2^64 ->
     mem m (get m RSP) = b -> mem m (get m RSP + 8) = a ->
     exists m', run 12 env (cmem w') (code w') m = ODone m' /\
       get m' RSP = get m RSP + 8 /\
       mem m' (get m RSP + 8) mod 2^32 =
         (if b mod 2^32 =? 0 then x86_min F32 (b mod 2^32) (a mod 2^32)
          else x86_min F32 (a mod 2^32) (b mod 2^32)) /\
       (is_nan F32 (a mod 2^32) = false -> is_nan F32 (b mod 2^32) = false ->
        wasm_fmin_spec F32 (a mod 2^32) (b mod 2^32) (mem m' (get m RSP + 8) mod 2^32))) /\
  (forall env w w' m a b,
     emit_f32_max w = Some (tt, w') ->
     pc m = code w -> 0 <= get m RSP -> get m RSP + 16 < 2^64 ->
     mem m (get m RSP) = b -> mem m (get m RSP + 8) = a ->
     exists m', run 12 env (cmem w') (code w') m = ODone m' /\
       get m' RSP = get m RSP + 8 /\
       mem m' (get m RSP + 8) mod 2^32 =
         (if b mod 2^32 =? 0 then x86_max F32 (a mod 2^32) (b mod 2^32)
          else x86_max F32 (b mod 2^32) (a mod 2^32)) /\
       (is_nan F32 (a mod 2^32) = false -> is_nan F32 (b mod 2^32) = false ->
        wasm_fmax_spec F32 (a mod 2^32) (b mod 2^32) (mem m' (get m RSP + 8) mod 2^32))) /\
  (forall env w w' m a b,
     emit_f64_min w = Some (tt, w') ->
     pc m = code w -> 0 <= get m RSP -> get m RSP + 16 < 2^64 ->
     mem m (get m RSP) = b -> mem m (get m RSP + 8) = a ->
     exists m', run 12 env (cmem w') (code w') m = ODone m' /\
       get m' RSP = get m RSP + 8 /\
       mem m' (get m RSP + 8) mod 2^64 =
         (if b mod 2^64 =? 0 then x86_min F64 (b mod 2^64) (a mod 2^64)
          else x86_min F64 (a mod 2^64) (b mod 2^64)) /\
       (is_nan F64 (a mod 2^64) = false -> is_nan F64 (b mod 2^64) = false ->
        wasm_fmin_spec F64 (a mod 2^64) (b mod 2^64) (mem m' (get m RSP + 8) mod 2^64))) /\
  (forall env w w' m a b,
     emit_f64_max w = Some (tt, w') ->
     pc m = code w -> 0 <= get m RSP -> get m RSP + 16 < 2^64 ->
     mem m (get m RSP) = b -> mem m (get m RSP + 8) = a ->
     exists m', run 12 env (cmem w') (code w') m = ODone m' /\
       get m' RSP = get m RSP + 8 /\
       mem m' (get m RSP + 8) mod 2^64 =
         (if b mod 2^64 =? 0 then x86_max F64 (a mod 2^64) (b mod 2^64)
          else x86_max F64 (b mod 2^64) (a mod 2^64)) /\
       (is_nan F64 (a mod 2^64) = false -> is_nan F64 (b mod 2^64) = false ->
        wasm_fmax_spec F64 (a mod 2^64) (b mod 2^64) (mem m' (get m RSP + 8) mod 2^64))).
Proof.
  split; [|split; [|split]].
  - minmax_part f32_min_run x86_min_refines wasm_fmin_spec.
  - minmax_part f32_max_run x86_max_refines wasm_fmax_spec.
  - minmax_part f64_min_run x86_min_refines wasm_fmin_spec.
  - minmax_part f64_max_run x86_max_refines wasm_fmax_spec.
Qed.

(** C5 counterexample: f32.min(NaN, 1.0), the NaN 0x7fc00000 as left
    operand and 1.0 = 0x3f800000 on top of the stack, returns 1.0: a NaN
    operand does not give a NaN result. *)
Lemma float_minmax_nan_counterexample :
  exists m', run_snippet emit_f32_min 0 4096 [0x3f800000; 0x7fc00000] = Some (ODone m') /\
    mem m' (get m' RSP) mod 2^32 = 0x3f800000 /\
    is_nan F32 0x7fc00000 = true /\ is_nan F32 0x3f800000 = false /\
    ~ wasm_fmin_spec F32 0x7fc00000 0x3f800000 (mem m' (get m' RSP) mod 2^32).
Proof.
  eexists. split; [vm_compute; reflexivity|].
  split; [vm_compute; reflexivity|]. split; [vm_compute; reflexivity|].
  split; [vm_compute; reflexivity|].
  unfold wasm_fmin_spec. vm_compute. discriminate.
Qed.

(** min(-0, +0) on a concrete stack: -0 = 0x80000000 as left operand,
    +0 on top *)
Lemma float_minmax_lowering_witness :
  exists m', run 12 null_env (cmem (emitted emit_f32_min (empty_code 0)))
               (code (emitted emit_f32_min (empty_code 0)))
               (stack_machine 4096 0 [0; 2^31]) = ODone m' /\
    get m' RSP = get (stack_machine 4096 0 [0; 2^31]) RSP + 8 /\
    mem m' (get (stack_machine 4096 0 [0; 2^31]) RSP + 8) mod 2^32 =
      (if 0 mod 2^32 =? 0 then x86_min F32 (0 mod 2^32) (2^31 mod 2^32)
       else x86_min F32 (2^31 mod 2^32) (0 mod 2^32)) /\
    (is_nan F32 (2^31 mod 2^32) = false -> is_nan F32 (0 mod 2^32) = false ->
     wasm_fmin_spec F32 (2^31 mod 2^32) (0 mod 2^32)
       (mem m' (get (stack_machine 4096 0 [0; 2^31]) RSP + 8) mod 2^32)).
Proof.
  exact (proj1 float_minmax_lowering null_env (empty_code 0)
           (emitted emit_f32_min (empty_code 0)) (stack_machine 4096 0 [0; 2^31])
           (2^31) 0 eq_refl eq_refl ltac:(vm_compute; congruence)
           ltac:(vm_compute; reflexivity) eq_refl eq_refl).
Defined.

(** ** [athena_set_option] *)

(** C10: with name ["metering"], the value ["true"] sets the flag and
    succeeds, ["false"] succeeds and leaves the instance as it is, any other
    value is an invalid value and changes nothing; so once metering is on,
    setting it to ["false"] succeeds and metering stays on. *)
Theorem set_option_metering (engines : list string)
    (sys : athena_instance -> string -> string -> option athena_instance)
    (a : athena_instance) (value : string) :
  athena_set_option engines sys a "metering" value =
    (if String.eqb value "true" then
       (EVMC_SET_OPTION_SUCCESS, mkAthena (engine a) (evm1mode a) true (benchmarking a))
     else if String.eqb value "false" then (EVMC_SET_OPTION_SUCCESS, a)
     else (EVMC_SET_OPTION_INVALID_VALUE, a)) /\
  (metering a = true ->
   athena_set_option engines sys a "metering" "false" = (EVMC_SET_OPTION_SUCCESS, a) /\
   metering (snd (athena_set_option engines sys a "metering" "false")) = true).
Proof.
  split.
  - unfold athena_set_option. cbn [String.eqb Ascii.eqb Bool.eqb andb].
    destruct (String.eqb value "true"); [reflexivity|].
    destruct (String.eqb value "false"); reflexivity.
  - intros H. unfold athena_set_option. cbn. split; [reflexivity | exact H].
Qed.

Lemma set_option_metering_witness :
  let a := mkAthena "wabt" reject true false in
  metering a = true /\
  athena_set_option [] (fun _ _ _ => None) a "metering" "false" = (EVMC_SET_OPTION_SUCCESS, a) /\
  metering (snd (athena_set_option [] (fun _ _ _ => None) a "metering" "false")) = true.
Proof.
  cbv zeta. split; [reflexivity|].
  exact (proj2 (set_option_metering [] (fun _ _ _ => None) (mkAthena "wabt" reject true false) "false")
           eq_refl).
Defined.

(** ** Validation in [WabtEngine::execute] *)

Lemma execute_validation_failure rd c results interf dest code e c' :
  load_env rd c interf dest code = (Some e, c') ->
  (GetExport (module_ e) "main" <> Some KFunc \/ start_func_index (module_ e) <> None) ->
  exists msg, forall Init Run,
    execute rd Init Run c results interf dest code = (inl (ContractValidationFailure msg), c').
Proof.
  intros Hl Hm. unfold execute. rewrite Hl. cbv zeta.
  destruct (negb (Nat.eqb _ 1)); [eexists; intros; reflexivity|].
  destruct (negb (isSome (GetExport (module_ e) "memory"))); [eexists; intros; reflexivity|].
  destruct (start_func_index (module_ e)) eqn:Hs; [eexists; intros; reflexivity|].
  destruct Hm as [Hm|Hm]; [|congruence].
  destruct (GetExport (module_ e) "main") as [k|] eqn:Hk; [|eexists; intros; reflexivity].
  destruct k; try (eexists; intros; reflexivity). congruence.
Qed.

(** C9: when the module of the destination (cached or freshly
    instantiated) has no exported function [main] or has a start function,
    [execute] throws [ContractValidationFailure], whatever [Initialize] and
    the run of [main] would do (neither is reached), and [athena_execute]
    reports [EVMC_CONTRACT_VALIDATION_FAILURE]. *)
Theorem main_start_rejected rd Init Run Init' Run' c results interf dest code e c' :
  load_env rd c interf dest code = (Some e, c') ->
  (GetExport (module_ e) "main" <> Some KFunc \/ start_func_index (module_ e) <> None) ->
  (exists msg, execute rd Init Run c results interf dest code =
                 (inl (ContractValidationFailure msg), c')) /\
  execute rd Init' Run' c results interf dest code = execute rd Init Run c results interf dest code /\
  athena_execute_call rd Init Run c results interf dest code = (EVMC_CONTRACT_VALIDATION_FAILURE, c').
Proof.
  intros Hl Hm.
  destruct (execute_validation_failure rd c results interf dest code e c' Hl Hm) as [msg H].
  split; [exists msg; apply H|]. split; [rewrite !H; reflexivity|].
  unfold athena_execute_call. rewrite H. reflexivity.
Qed.

Lemma main_start_rejected_witness :
  exists e c',
  load_env no_main_binary [] 1 7 [] = (Some e, c') /\
  (GetExport (module_ e) "main" <> Some KFunc \/ start_func_index (module_ e) <> None) /\
  ((exists msg, execute no_main_binary counter_Initialize counter_main [] (fun _ => new_result) 1 7 [] =
                 (inl (ContractValidationFailure msg), c')) /\
   execute no_main_binary (fun _ env => (env, false)) counter_main [] (fun _ => new_result) 1 7 [] =
     execute no_main_binary counter_Initialize counter_main [] (fun _ => new_result) 1 7 [] /\
   athena_execute_call no_main_binary counter_Initialize counter_main [] (fun _ => new_result) 1 7 [] =
     (EVMC_CONTRACT_VALIDATION_FAILURE, c')).
Proof.
  do 2 eexists. split; [reflexivity|].
  split; [left; vm_compute; discriminate|].
  eapply (main_start_rejected no_main_binary counter_Initialize counter_main
           (fun _ env => (env, false)) counter_main [] (fun _ => new_result) 1 7 []); [reflexivity|].
  left; vm_compute; discriminate.
Defined.

(** ** What one invocation leaves for the next *)

Lemma tryGet_insert k v c : tryGet (insert k v c) k = Some v.
Proof. unfold tryGet, insert. cbn. rewrite Z.eqb_refl. reflexivity. Qed.

(** C3 (as the code has it): every invocation makes a fresh
    [ExecutionResult], but not a fresh environment.  The first invocation
    of a destination makes an [envCache_t] with its own interface, whose
    pointer the host functions capture, instantiates the module on a fresh
    environment and caches it.  A later invocation of the destination sets
    the cached [eei_] to its own interface, but runs [Initialize] and
    [main] on the cached environment, which holds what the earlier
    invocations left there, and whose host functions still hold the
    pointer captured at instantiation: [main]'s host calls write into the
    result of that interface, and when it is not this invocation's own,
    the invocation returns its fresh [ExecutionResult] as it was made.  The
    environment [main] leaves is cached for the next invocation. *)
Theorem execute_env_cached rd Init Run c results interf dest code :
  (tryGet c dest = None ->
   forall m env0, rd (AppendHostModule_ethereum interf fresh_env) code = Some (m, env0) ->
   load_env rd c interf dest code =
     (Some (mkCache interf env0 m code), insert dest (mkCache interf env0 m code) c)) /\
  (forall e env1 env2 res,
   tryGet c dest = Some e ->
   GetMemoryCount (env_ e) = 1%nat -> GetExport (module_ e) "memory" <> None ->
   start_func_index (module_ e) = None -> GetExport (module_ e) "main" = Some KFunc ->
   Init (module_ e) (env_ e) = (env1, true) ->
   Run (module_ e) env1
     (if ethereum_eei env1 =? interf then new_result else results (ethereum_eei env1)) =
     (env2, res, RunOk) ->
   fst (execute rd Init Run c results interf dest code) =
     inr (if ethereum_eei env1 =? interf then res else new_result) /\
   tryGet (snd (execute rd Init Run c results interf dest code)) dest =
     Some (mkCache interf env2 (module_ e) (code_ e))).
Proof.
  split.
  - intros Hc m env0 Hi. unfold load_env, instantiation. rewrite Hc. cbn [eei_ env_ code_].
    rewrite Hi. reflexivity.
  - intros e env1 env2 res Hc Hn Hmem Hs Hmain Hi Hr.
    unfold execute, load_env. rewrite Hc. cbv zeta. cbn [env_ module_ code_ eei_].
    rewrite Hn. cbn [Nat.eqb negb].
    destruct (GetExport (module_ e) "memory"); [|congruence]. cbn [isSome negb].
    rewrite Hs, Hmain. cbn [isSome negb kind_eqb]. rewrite Hi. cbn [negb].
    rewrite Hr. cbn [fst snd]. split; [|apply tryGet_insert].
    rewrite (Z.eqb_sym interf), Z.eqb_refl. destruct (_ =? _); reflexivity.
Qed.

Lemma execute_env_cached_witness :
  let c1 := snd (execute counter_binary counter_Initialize counter_main [] (fun _ => new_result) 1 7 []) in
  let results2 := fun a => if a =? 1 then mkResult 0 false [0] else new_result in
  let env1 := mkEnv [fun a => if a =? 100 then 1 else 0] [] 1 in
  let env2 := mkEnv [fun a => if a =? 100 then 1 else if a =? 100 then 1 else 0] [] 1 in
  fst (execute counter_binary counter_Initialize counter_main [] (fun _ => new_result) 1 7 []) =
    inr (mkResult 0 false [0]) /\
  tryGet c1 7 = Some (mkCache 1 env1 counter_module []) /\
  fst (execute counter_binary counter_Initialize counter_main c1 results2 2 7 []) =
    inr (if ethereum_eei env1 =? 2 then mkResult 0 false [1] else new_result) /\
  tryGet (snd (execute counter_binary counter_Initialize counter_main c1 results2 2 7 [])) 7 =
    Some (mkCache 2 env2 counter_module []).
Proof.
  intros c1 results2 env1 env2. split; [vm_compute; reflexivity|].
  split; [vm_compute; reflexivity|].
  apply (proj2 (execute_env_cached counter_binary counter_Initialize counter_main c1 results2 2 7 [])
           (mkCache 1 env1 counter_module []) env1 env2 (mkResult 0 false [1]));
    first [vm_compute; reflexivity | vm_compute; discriminate].
Defined.

(** ** The constructor, the jump table and call_indirect *)

Lemma extends_refl w : extends w w.
Proof. split; [lia | reflexivity]. Qed.

Lemma extends_trans w1 w2 w3 : extends w1 w2 -> extends w2 w3 -> extends w1 w3.
Proof.
  intros [H1 H2] [H3 H4]. split; [lia|]. intros x Hx. rewrite H4 by lia. apply H2; lia.
Qed.

Lemma bind_inv {A B} (c : W A) (k : A -> W B) w b w'' :
  bind c k w = Some (b, w'') -> exists a w', c w = Some (a, w') /\ k a w' = Some (b, w'').
Proof. unfold bind. destruct (c w) as [[a w']|]; [eauto | discriminate]. Qed.

Lemma grows_bind {A B} (c : W A) (k : A -> W B) :
  grows c -> (forall a, grows (k a)) -> grows (bind c k).
Proof.
  intros Hc Hk w b w'' H. destruct (bind_inv _ _ _ _ _ H) as (a & w' & H1 & H2).
  eapply extends_trans; [eapply Hc; eauto | eapply Hk; eauto].
Qed.

Lemma grows_ret {A} (a : A) : grows (ret a).
Proof. intros w b w' H. injection H as _ <-. apply extends_refl. Qed.

Lemma grows_fail {A} : grows (@fail A).
Proof. intros w b w' H. discriminate. Qed.

Lemma grows_get_code : grows get_code.
Proof. intros w b w' H. injection H as _ <-. apply extends_refl. Qed.

Lemma emit_eq bs i w a w' :
  emit bs i w = Some (a, w') ->
  w' = mkW (code w + Z.of_nat (List.length bs))
           (fun x => if x =? code w then Some (i, Z.of_nat (List.length bs)) else cmem w x).
Proof. unfold emit. intros H. injection H as _ <-. reflexivity. Qed.

Lemma grows_emit bs i : grows (emit bs i).
Proof.
  intros w a w' H. apply emit_eq in H. subst w'. split; cbn [code cmem]; [lia|].
  intros x Hx. replace (x =? code w) with false by (symmetry; apply Z.eqb_neq; lia). reflexivity.
Qed.

Lemma branch_to_eq bs mk t w a w' :
  retarget t (mk TUnresolved) = mk t ->
  branch_to bs mk t w = Some (a, w') ->
  code w' = code w + Z.of_nat (List.length bs) + 4 /\
  forall x, cmem w' x =
    if x =? code w then Some (mk t, Z.of_nat (List.length bs) + 4) else cmem w x.
Proof.
  intros Hr. unfold branch_to, bind, emit_branch, fix_branch. intros H.
  injection H as _ <-. cbn [code cmem]. split; [lia|].
  intros x. destruct (x =? code w); [rewrite Hr; reflexivity|].
  destruct (cmem w x) as [[i sz]|]; reflexivity.
Qed.

Lemma grows_branch_to bs mk t :
  retarget t (mk TUnresolved) = mk t -> grows (branch_to bs mk t).
Proof.
  intros Hr w a w' H. destruct (branch_to_eq _ _ _ _ _ _ Hr H) as [H1 H2].
  split; [lia|]. intros x Hx. rewrite H2.
  replace (x =? code w) with false by (symmetry; apply Z.eqb_neq; lia). reflexivity.
Qed.

Create HintDb grows_db.
#[local] Hint Resolve grows_bind grows_ret grows_fail grows_get_code grows_emit : grows_db.
#[local] Hint Extern 2 (grows (branch_to _ _ _)) => apply grows_branch_to; reflexivity : grows_db.
#[local] Hint Extern 1 (forall _, grows _) => intro : grows_db.

Lemma grows_emit_host_calls n i : grows (emit_host_calls n i).
Proof.
  revert i. induction n; intros i; cbn [emit_host_calls].
  - apply grows_ret.
  - apply grows_bind; [|intros; apply IHn].
    unfold emit_host_call, emit_align_stack, emit_restore_stack. eauto 30 with grows_db.
Qed.

Lemma grows_emit_table md cih teh l : grows (emit_table md cih teh l).
Proof.
  induction l as [|fn l IH]; cbn [emit_table]; [apply grows_ret|].
  apply grows_bind; [|intros; exact IH].
  unfold emit_table_entry. destruct (_ <? _); eauto 20 with grows_db.
Qed.

Lemma grows_emit_multipop c : grows (emit_multipop c).
Proof.
  unfold emit_multipop.
  destruct (_ && _); [|apply grows_ret].
  apply grows_bind; [destruct (Z.testbit c 31); eauto with grows_db|intros].
  apply grows_bind; [destruct (negb _); eauto with grows_db|intros].
  apply grows_bind; [eauto with grows_db|intros].
  destruct (Z.testbit c 31); eauto with grows_db.
Qed.

Lemma handler_ok_extends w w' h n :
  extends w w' -> h + 16 <= code w -> handler_ok (cmem w) h n -> handler_ok (cmem w') h n.
Proof.
  intros [_ E] Hh (H1 & H2 & H3). unfold handler_ok. rewrite !E by lia. auto.
Qed.

Lemma entry_ok_extends md cih teh w w' a fn :
  extends w w' -> a + 17 <= code w -> entry_ok md cih teh (cmem w) a fn ->
  entry_ok md cih teh (cmem w') a fn.
Proof.
  intros [_ E] Ha. unfold entry_ok. destruct (_ <? _).
  - intros (H1 & H2 & H3). rewrite !E by lia. auto.
  - intros H1. rewrite E by lia. auto.
Qed.

Ltac wcomp H := cbv [bind emit ret get_code emit_branch fix_branch branch_to code cmem
                     List.length app le32 le64 map] in H;
                cbv zeta in H; simpl Z.of_nat in H; injection H as <- <-.
Ltac wcomp1 H := cbv [bind emit ret get_code emit_branch fix_branch branch_to code cmem
                     List.length app le32 le64 map] in H;
                cbv zeta in H; simpl Z.of_nat in H; injection H as _ <-.

Lemma emit_error_handler_eq n w h w' :
  emit_error_handler n w = Some (h, w') ->
  h = code w /\ code w' = code w + 16 /\ extends w w' /\ handler_ok (cmem w') (code w) n.
Proof.
  intros H. assert (Hg : extends w w').
  { assert (Hgr : grows (emit_error_handler n))
      by (unfold emit_error_handler; eauto 10 with grows_db).
    exact (Hgr _ _ _ H). }
  destruct w as [c cm]. unfold emit_error_handler in H. wcomp H.
  cbn [code cmem] in *. split; [reflexivity|]. split; [lia|]. split; [exact Hg|].
  unfold handler_ok. cbn [cmem]. zdec. repeat split; reflexivity.
Qed.

Lemma emit_host_call_size i w a w' :
  emit_host_call i w = Some (a, w') -> code w' = code w + 40.
Proof.
  destruct w as [c cm]. intros H.
  unfold emit_host_call, emit_align_stack, emit_restore_stack in H. wcomp1 H.
  cbn [code]. lia.
Qed.

Lemma emit_host_calls_size n i w a w' :
  emit_host_calls n i w = Some (a, w') -> code w' = code w + 40 * Z.of_nat n.
Proof.
  revert i w. induction n as [|n IH]; intros i w H; cbn [emit_host_calls] in H.
  - injection H as _ <-. lia.
  - destruct (bind_inv _ _ _ _ _ H) as (b & w1 & H1 & H2).
    apply emit_host_call_size in H1. apply IH in H2. lia.
Qed.

Lemma emit_table_entry_eq md cih teh fn w a w' :
  emit_table_entry md cih teh fn w = Some (a, w') ->
  code w' = code w + 17 /\ entry_ok md cih teh (cmem w') (code w) fn.
Proof.
  destruct w as [c cm]. unfold emit_table_entry, entry_ok.
  destruct (fn <? _); intros H; wcomp1 H; cbn [code cmem]; (split; [lia|]); zdec;
    repeat split; reflexivity.
Qed.

Lemma emit_table_eq md cih teh l w a w' :
  emit_table md cih teh l w = Some (a, w') ->
  code w' = code w + 17 * Z.of_nat (List.length l) /\
  forall k, 0 <= k < Z.of_nat (List.length l) ->
    entry_ok md cih teh (cmem w') (code w + 17 * k) (nth (Z.to_nat k) l 0).
Proof.
  revert w. induction l as [|fn l IH]; intros w H; cbn [emit_table] in H.
  - injection H as _ <-. cbn [List.length]. split; [lia|]. intros k Hk. cbn in Hk. lia.
  - destruct (bind_inv _ _ _ _ _ H) as (b & w1 & H1 & H2).
    pose proof (grows_emit_table md cih teh l _ _ _ H2) as Hg.
    apply emit_table_entry_eq in H1 as [Hc1 He1]. apply IH in H2 as [Hc2 He2].
    cbn [List.length]. rewrite Nat2Z.inj_succ. split; [lia|].
    intros k Hk. destruct (Z.eq_dec k 0) as [->|Hk0].
    + replace (code w + 17 * 0) with (code w) by lia. cbn [nth Z.to_nat].
      eapply entry_ok_extends; [exact Hg | lia | exact He1].
    + replace (Z.to_nat k) with (S (Z.to_nat (k - 1))) by lia. cbn [nth].
      replace (code w + 17 * k) with (code w1 + 17 * (k - 1)) by lia.
      apply He2. lia.
Qed.

Lemma machine_code_writer_eq md w j w' :
  machine_code_writer md w = Some (j, w') -> 0 <= imported_functions_size md ->
  j = mkAddrs (code w) (code w + 16) (code w + 32) (code w + 48)
              (code w + 64 + 40 * imported_functions_size md) /\
  handler_ok (cmem w') (code w) NOnFpError /\
  handler_ok (cmem w') (code w + 16) NOnCallIndirectError /\
  handler_ok (cmem w') (code w + 32) NOnTypeError /\
  handler_ok (cmem w') (code w + 48) NOnStackOverflow /\
  code w + 64 + 40 * imported_functions_size md <= code w' /\
  forall table rest, tables md = table :: rest ->
    code w' = code w + 64 + 40 * imported_functions_size md + 17 * Z.of_nat (List.length table) /\
    forall k, 0 <= k < Z.of_nat (List.length table) ->
      entry_ok md (code w + 16) (code w + 32) (cmem w')
        (code w + 64 + 40 * imported_functions_size md + 17 * k) (nth (Z.to_nat k) table 0).
Proof.
  intros H Himp. unfold machine_code_writer in H.
  destruct (bind_inv _ _ _ _ _ H) as (fpe & w1 & H1 & H2).
  destruct (bind_inv _ _ _ _ _ H2) as (cih & w2 & H3 & H4).
  destruct (bind_inv _ _ _ _ _ H4) as (teh & w3 & H5 & H6).
  destruct (bind_inv _ _ _ _ _ H6) as (soh & w4 & H7 & H8).
  destruct (bind_inv _ _ _ _ _ H8) as (u & w5 & H9 & H10).
  destruct (bind_inv _ _ _ _ _ H10) as (jt & w6 & H11 & H12).
  destruct (bind_inv _ _ _ _ _ H12) as (u' & w7 & H13 & H14).
  clear H H2 H4 H6 H8 H10 H12.
  apply emit_error_handler_eq in H1 as (-> & C1 & E1 & K1).
  apply emit_error_handler_eq in H3 as (-> & C2 & E2 & K2).
  apply emit_error_handler_eq in H5 as (-> & C3 & E3 & K3).
  apply emit_error_handler_eq in H7 as (-> & C4 & E4 & K4).
  pose proof (grows_emit_host_calls _ _ _ _ _ H9) as E5.
  apply emit_host_calls_size in H9. rewrite Z2Nat.id in H9 by exact Himp.
  injection H11 as <- <-.
  injection H14 as <- <-.
  assert (E7 : extends w5 w7 /\
    forall table rest, tables md = table :: rest ->
    code w7 = code w5 + 17 * Z.of_nat (List.length table) /\
    forall k, 0 <= k < Z.of_nat (List.length table) ->
      entry_ok md (code w1) (code w2) (cmem w7) (code w5 + 17 * k) (nth (Z.to_nat k) table 0)).
  { destruct (tables md) as [|table rest].
    - injection H13 as _ <-. split; [apply extends_refl | discriminate].
    - split; [exact (grows_emit_table _ _ _ _ _ _ _ H13)|].
      intros table' rest' E. injection E as <- <-.
      exact (emit_table_eq _ _ _ _ _ _ _ H13). }
  destruct E7 as [E7 T7].
  assert (E47 : extends w4 w7) by (eapply extends_trans; [exact E5 | exact E7]).
  assert (E37 : extends w3 w7) by (eapply extends_trans; [exact E4 | exact E47]).
  assert (E27 : extends w2 w7) by (eapply extends_trans; [exact E3 | exact E37]).
  assert (E17 : extends w1 w7) by (eapply extends_trans; [exact E2 | exact E27]).
  split; [f_equal; lia|].
  split; [eapply handler_ok_extends; [exact E17 | lia | exact K1]|].
  split; [replace (code w + 16) with (code w1) by lia;
          eapply handler_ok_extends; [exact E27 | lia | exact K2]|].
  split; [replace (code w + 32) with (code w2) by lia;
          eapply handler_ok_extends; [exact E37 | lia | exact K3]|].
  split; [replace (code w + 48) with (code w3) by lia;
          eapply handler_ok_extends; [exact E47 | lia | exact K4]|].
  split; [destruct E7 as [E7 _]; lia|].
  intros table rest Ht. destruct (T7 table rest Ht) as [T1 T2].
  split; [lia|]. intros k Hk.
  replace (code w + 16) with (code w1) by lia. replace (code w + 32) with (code w2) by lia.
  replace (code w + 64 + 40 * imported_functions_size md + 17 * k) with (code w5 + 17 * k) by lia.
  apply T2. exact Hk.
Qed.

Lemma emit_call_indirect_eq md j ft t w w' table rest :
  tables md = table :: rest -> emit_call_indirect md j ft t w = Some (tt, w') ->
  code w + 41 <= code w' /\ (forall x, x < code w -> cmem w' x = cmem w x) /\
  cmem w' (code w) = Some (IDec32 RBX, 2) /\
  cmem w' (code w + 2) = Some (IJcc CE (TAddr (stack_overflow_handler j)), 6) /\
  cmem w' (code w + 8) = Some (IPop RAX, 1) /\
  cmem w' (code w + 9) = Some (ICmpImm 64 RAX (s32 (Z.of_nat (List.length table))), 6) /\
  cmem w' (code w + 15) = Some (IJcc CAE (TAddr (call_indirect_handler j)), 6) /\
  cmem w' (code w + 21) = Some (ILeaRip RDX (TAddr (jmp_table j)), 7) /\
  cmem w' (code w + 28) = Some (IImulImm RAX 17, 3) /\
  cmem w' (code w + 31) = Some (IAdd RAX RDX, 3) /\
  cmem w' (code w + 34) = Some (IMovImm32 RDX (nth (Z.to_nat t) (type_aliases md) 0), 5) /\
  cmem w' (code w + 39) = Some (ICallR RAX, 2).
Proof.
  intros Ht H. destruct w as [c cm].
  unfold emit_call_indirect in H. rewrite Ht in H.
  cbv [emit_check_call_depth emit_check_call_depth_end bind emit ret branch_to emit_branch
       fix_branch List.length app le32 map code cmem] in H.
  cbv zeta in H. simpl Z.of_nat in H.
  match type of H with
  | match emit_multipop ?n ?w0 with _ => _ end = _ =>
      destruct (emit_multipop n w0) as [[u w1]|] eqn:Hmp; [|discriminate];
      pose proof (grows_emit_multipop n _ _ _ Hmp) as [G1 G2]
  end.
  destruct w1 as [c1 cm1]. cbn [code cmem] in G1, G2 |- *.
  destruct (negb (return_count ft =? 0)); injection H as <-; cbn [code cmem];
  (split; [lia|]);
  (split; [intros x Hx; zdec; rewrite G2 by lia; cbn; zdec;
           destruct (cm x) as [[? ?]|]; reflexivity|]);
  zdec; rewrite !G2 by lia; cbn; zdec; repeat split; reflexivity.
Qed.

Lemma run_S f env cm stop m i sz :
  pc m <> stop -> cm (pc m) = Some (i, sz) ->
  run (S f) env cm stop m =
  match exec env i sz m with SNext m' => run f env cm stop m' | SStop o => o end.
Proof.
  intros H1 H2. cbn [run]. replace (pc m =? stop) with false by (symmetry; apply Z.eqb_neq; exact H1).
  unfold step. rewrite H2. reflexivity.
Qed.

Lemma native_of_addr_native n : native_of_addr (native_addr n) = Some n.
Proof. destruct n; reflexivity. Qed.

Lemma native_of_addr_low a : 0 <= a < 2^47 -> native_of_addr a = None.
Proof.
  intros H. unfold native_of_addr, all_natives, native_addr, native_base, native_index.
  cbn [find].
  repeat match goal with |- context [?x =? a] =>
    destruct (Z.eqb_spec x a); [lia|] end.
  reflexivity.
Qed.

Ltac lookup := match goal with
  | |- ?cm ?x = Some _ =>
      match goal with
      | H : cm ?a = Some _ |- _ => replace x with a by lia; exact H
      end
  end.

Ltac bdec := repeat match goal with
  | |- context [?x <? ?y] =>
      (replace (x <? y) with true by (symmetry; apply Z.ltb_lt; lia)) ||
      (replace (x <? y) with false by (symmetry; apply Z.ltb_ge; lia))
  end.

Ltac md64 := repeat match goal with
  | |- context [?a mod 2^64] => rewrite (Z.mod_small a (2^64)) by lia
  end.

Ltac md32 := repeat match goal with
  | |- context [?a mod 2^32] => rewrite (Z.mod_small a (2^32)) by lia
  end.

Ltac rstep := erewrite run_S; [ | cbn [pc]; lia | cbn [pc]; lookup ];
              cbn [exec]; mach2; md64; zdec; bdec; cbv [negb andb orb].

Lemma handler_run f env cm stop m h n msg :
  handler_ok cm h n -> trap_message n = Some msg -> pc m = h ->
  stop <> h -> stop <> h + 4 -> stop <> h + 14 ->
  run (S (S (S f))) env cm stop m = OTrap msg.
Proof.
  intros (H1 & H2 & H3) Hm Hp S1 S2 S3. destruct m as [rg x mm z cf0 p lg sf0 of0 lm].
  cbn [pc] in Hp. subst p.
  rstep. rstep. rstep.
  rewrite (u64_id (native_addr n)) by (destruct n; cbv; split; congruence).
  rewrite native_of_addr_native.
  destruct n; cbn in Hm |- *; congruence.
Qed.

Lemma s32_small x : 0 <= x < 2^31 -> s32 x = x.
Proof.
  intros H. unfold s32. rewrite u32_id by lia.
  replace (x <? 2^31) with true by (symmetry; apply Z.ltb_lt; lia). reflexivity.
Qed.

Lemma nth_u32 (l : list Z) n :
  Forall (fun x => 0 <= x < 2^32) l -> 0 <= nth n l 0 < 2^32.
Proof.
  intros H. revert n. induction H as [|x l Hx H IH]; intros [|n]; cbn; auto; lia.
Qed.

Lemma mod64_32 x : x mod 2^64 < 2^32 -> u32 x = x mod 2^64.
Proof.
  intros H. unfold u32.
  replace (2^64) with (2^32 * 2^32) in * by reflexivity.
  rewrite Z.rem_mul_r in * by lia.
  pose proof (Z.mod_pos_bound (x / 2^32) (2^32)).
  pose proof (Z.mod_pos_bound x (2^32)).
  lia.
Qed.

(** C1: the code of [emit_call_indirect], with the jump table built by the
    constructor, run on index [i] (the popped value) and type token
    [tok] (the alias of the caller's type index): it enters the table's
    function [fn] exactly when [i] is below the table size and the
    canonical type token of [fn] is [tok]; an index out of range ends in
    the trap of [on_call_indirect_error], a token that differs in the trap
    of [on_type_error]; a table entry naming no function (not below
    [fast_functions.size()]) goes to [on_call_indirect_error] too.  The
    depth counter is assumed not exhausted here (C2). *)
Theorem call_indirect_dispatch md j ft t w0 w1 w w' env m table rest f :
  machine_code_writer md w0 = Some (j, w1) ->
  0 <= imported_functions_size md -> 0 <= code w0 ->
  extends w1 w -> tables md = table :: rest ->
  emit_call_indirect md j ft t w = Some (tt, w') -> code w' < 2^32 ->
  Forall (fun x => 0 <= x < 2^32) (fast_functions md) ->
  Forall (fun x => 0 <= x < 2^32) (type_aliases md) ->
  pc m = code w -> 0 <= get m RSP -> get m RSP + 8 < 2^64 ->
  u32 (get m RBX - 1) <> 0 ->
  let i := mem m (get m RSP) mod 2^64 in
  let tok := nth (Z.to_nat t) (type_aliases md) 0 in
  let r := run (16 + f) env (cmem w') (code w') m in
  if i <? Z.of_nat (List.length table) then
    let fn := nth (Z.to_nat i) table 0 in
    if fn <? Z.of_nat (List.length (fast_functions md)) then
      if nth (Z.to_nat fn) (fast_functions md) 0 =? tok then
        exists m', r = OEnter (Z.to_nat fn) m' /\
          get m' RDX = tok /\ get m' RBX = u32 (get m RBX - 1) /\
          get m' RSP = get m RSP /\ mem m' (get m RSP) = code w + 41
      else r = OTrap "call_indirect incorrect function type"
    else r = OTrap "call_indirect out of range"
  else r = OTrap "call_indirect out of range".
Proof.
  intros Hmcw Himp Hw0 Hext Htab Hci Hbound Hff Hal Hpc Hsp1 Hsp2 Hrbx.
  destruct (machine_code_writer_eq _ _ _ _ Hmcw Himp)
    as (Hj & Hfpe & Hcih & Hteh & Hsoh & Hjt & Htbl).
  destruct (Htbl _ _ Htab) as [Hw1 Hent]. clear Htbl.
  destruct (emit_call_indirect_eq _ _ _ _ _ _ _ _ Htab Hci)
    as (Hw' & Hfr & L0 & L2 & L8 & L9 & L15 & L21 & L28 & L31 & L34 & L39).
  assert (Hext' : extends w1 w').
  { destruct Hext as [He1 He2]. split; [lia|]. intros x Hx. rewrite Hfr by lia. apply He2; lia. }
  subst j. cbn [stack_overflow_handler call_indirect_handler type_error_handler jmp_table] in *.
  apply (handler_ok_extends _ _ _ _ Hext') in Hcih; [|lia].
  apply (handler_ok_extends _ _ _ _ Hext') in Hteh; [|lia].
  destruct Hext as [Hww _].
  remember (code w0 + 64 + 40 * imported_functions_size md) as jt eqn:Ejt in *.
  set (cm := cmem w') in *. set (stop := code w') in *.
  destruct m as [rg x mm z cf0 p lg sf0 of0 lm]. cbn [pc get regs mem] in *. subst p.
  remember (Z.of_nat (List.length table)) as size eqn:Esize in *.
  rewrite s32_small in L9 by lia.
  remember (mm (rg RSP) mod 2^64) as i eqn:Ei.
  cbn [Nat.add].
  destruct (Z.ltb_spec i size) as [Hi|Hi].
  2:{ rstep. rstep. rstep. rstep. rstep.
       eapply handler_run with (n := NOnCallIndirectError);
         [exact Hcih | reflexivity | reflexivity | lia | lia | lia]. }
  assert (Hu : u32 (mm (rg RSP)) = i). { rewrite Ei. apply mod64_32. rewrite <- Ei. lia. }
  assert (Hi0 : 0 <= i) by (rewrite Ei; apply Z.mod_pos_bound; lia).
  assert (Hsz : size < 2^28) by lia.
  rstep. rstep. rstep. rstep. rstep. rstep. rstep. rstep. rstep.
  rewrite Hu, (u32_id (i * 17)), (u64_id (i * 17 + jt)) by lia.
  erewrite run_S; [ | cbn [pc]; lia | cbn [pc]; lookup ].
  cbn [exec]; mach2. rewrite (native_of_addr_low (i * 17 + jt)) by lia.
  mach2. rewrite (u64_id (rg RSP + 8)), (u64_id (rg RSP + 8 - 8)) by lia.
  cbv [negb andb orb].
  pose proof (Hent i (conj Hi0 Hi)) as He.
  apply (entry_ok_extends _ _ _ _ _ _ _ Hext') in He; [|lia].
  unfold entry_ok in He. change (cmem w') with cm in He.
  pose proof (nth_u32 _ (Z.to_nat t) Hal) as Htok.
  pose proof (nth_u32 _ (Z.to_nat (nth (Z.to_nat i) table 0)) Hff) as Hfn.
  rewrite (u32_id (nth (Z.to_nat t) (type_aliases md) 0)) by lia.
  destruct (nth (Z.to_nat i) table 0 <? Z.of_nat (Datatypes.length (fast_functions md))).
  - destruct He as (E0 & E6 & E12).
    destruct (Z.eqb_spec (nth (Z.to_nat (nth (Z.to_nat i) table 0)) (fast_functions md) 0)
                         (nth (Z.to_nat t) (type_aliases md) 0)) as [Et|Et].
    + rstep. md32. rewrite Et, Z.eqb_refl. rstep.
      eexists. split; [reflexivity|]. cbn. zdec. repeat split; lia.
    + rstep. md32. replace (_ =? _) with false by (symmetry; apply Z.eqb_neq; lia).
      rstep. rstep.
      eapply handler_run with (n := NOnTypeError);
        [exact Hteh | reflexivity | reflexivity | lia | lia | lia].
  - rstep.
    eapply handler_run with (n := NOnCallIndirectError);
      [exact Hcih | reflexivity | reflexivity | lia | lia | lia].
Qed.

Lemma call_indirect_dispatch_witness :
  machine_code_writer ci_module (empty_code 0) = Some (ci_addrs, ci_w1) /\
  emit_call_indirect ci_module ci_addrs ci_ft 0 ci_w1 = Some (tt, ci_w') /\
  exists m', run 16 null_env (cmem ci_w') (code ci_w') ci_machine = OEnter 1 m' /\
    get m' RDX = 8 /\ get m' RBX = u32 (0 - 1) /\ get m' RSP = 4096 /\
    mem m' 4096 = code ci_w1 + 41.
Proof.
  assert (E1 : machine_code_writer ci_module (empty_code 0) = Some (ci_addrs, ci_w1))
    by (vm_compute; reflexivity).
  assert (E2 : emit_call_indirect ci_module ci_addrs ci_ft 0 ci_w1 = Some (tt, ci_w'))
    by (vm_compute; reflexivity).
  split; [exact E1|]. split; [exact E2|].
  exact (call_indirect_dispatch ci_module ci_addrs ci_ft 0 (empty_code 0) ci_w1 ci_w1 ci_w'
           null_env ci_machine [0; 1] [] 0 E1 ltac:(cbn; lia) ltac:(cbn; lia)
           (extends_refl ci_w1) eq_refl E2 ltac:(vm_compute; reflexivity)
           ltac:(repeat constructor; lia) ltac:(repeat constructor; lia)
           eq_refl ltac:(cbn; lia) ltac:(cbn; lia) ltac:(vm_compute; discriminate)).
Defined.

(** ** The depth counter around calls *)

Lemma testbit31_small p : 0 <= p < 2^31 -> Z.testbit p 31 = false.
Proof.
  intros H. destruct (Z.eq_dec p 0) as [->|Hp]; [reflexivity|].
  apply Z.bits_above_log2; [lia|].
  apply Z.log2_lt_pow2; lia.
Qed.

Lemma land_small p : 0 <= p < 2^28 -> Z.land p 0x70000000 = 0.
Proof.
  intros H. apply Z.bits_inj'. intros n Hn. rewrite Z.land_spec, Z.bits_0.
  destruct (Z.lt_ge_cases n 28) as [Hl|Hl].
  - change 0x70000000 with (7 * 2^28). rewrite Z.mul_pow2_bits_low by lia.
    apply andb_false_r.
  - destruct (Z.eq_dec p 0) as [->|Hp]; [rewrite Z.bits_0; reflexivity|].
    rewrite Z.bits_above_log2; [reflexivity|lia|].
    apply Z.lt_le_trans with 28; [apply Z.log2_lt_pow2; lia | lia].
Qed.

Lemma emit_multipop_small p w w' :
  0 <= p < 2^28 -> emit_multipop p w = Some (tt, w') ->
  if p =? 0 then w' = w else
    code w' = code w + 7 /\ cmem w' (code w) = Some (IAddRsp (p * 8), 7) /\
    forall x, x < code w -> cmem w' x = cmem w x.
Proof.
  intros Hp H. unfold emit_multipop in H.
  rewrite testbit31_small in H by lia. rewrite land_small in H by lia.
  destruct (Z.eqb_spec p 0) as [->|Hp0].
  - cbn in H. injection H as <-. reflexivity.
  - replace ((0 <? p) && negb (p =? 0x80000001)) with true in H
      by (symmetry; apply andb_true_intro; split; [apply Z.ltb_lt; lia|
          apply negb_true_iff, Z.eqb_neq; lia]).
    rewrite s32_small in H by lia.
    destruct w as [c cm]. cbv [bind emit ret List.length app le32 map code cmem] in H.
    cbv zeta in H. simpl Z.of_nat in H. injection H as <-. cbn [code cmem].
    split; [lia|]. zdec. split; [reflexivity|]. intros x Hx. zdec. reflexivity.
Qed.

Lemma emit_call_eq j ft fnum w w' :
  0 <= param_count ft < 2^28 -> emit_call j ft fnum w = Some (tt, w') ->
  code w + 13 <= code w' /\ (forall x, x < code w -> cmem w' x = cmem w x) /\
  cmem w' (code w) = Some (IDec32 RBX, 2) /\
  cmem w' (code w + 2) = Some (IJcc CE (TAddr (stack_overflow_handler j)), 6) /\
  cmem w' (code w + 8) = Some (ICallRel (TFn (Z.to_nat fnum)), 5) /\
  ret_path_ok (cmem w') (code w + 13) (code w') (param_count ft) (return_count ft).
Proof.
  intros Hp H. destruct w as [c cm].
  unfold emit_call in H.
  cbv [emit_check_call_depth emit_check_call_depth_end bind emit ret branch_to emit_branch
       fix_branch List.length app le32 map code cmem] in H.
  cbv zeta in H. simpl Z.of_nat in H.
  match type of H with
  | match emit_multipop ?n ?w0 with _ => _ end = _ =>
      destruct (emit_multipop n w0) as [[u w1]|] eqn:Hmp; [|discriminate];
      destruct u; apply emit_multipop_small in Hmp; [|exact Hp]
  end.
  unfold ret_path_ok.
  destruct (param_count ft =? 0).
  - subst w1. cbn [code cmem].
    destruct (return_count ft =? 0); cbn [negb] in H; injection H as <-; cbn [code cmem];
    (split; [lia|]);
    (split; [intros x Hx; zdec; destruct (cm x) as [[? ?]|]; reflexivity|]);
    zdec; repeat split; try reflexivity; lia.
  - destruct w1 as [c1 cm1]. cbn [code cmem] in Hmp |- *.
    destruct Hmp as (G0 & G1 & G2).
    replace (c + 2 + (2 + 4) + (1 + 4)) with (c + 13) in G1 by lia.
    destruct (return_count ft =? 0); cbn [negb] in H; injection H as <-; cbn [code cmem];
    (split; [lia|]);
    (split; [intros x Hx; zdec; rewrite G2 by lia; cbn; zdec;
             destruct (cm x) as [[? ?]|]; reflexivity|]);
    zdec; rewrite ?G1, ?G2 by lia; cbn; zdec; repeat split; try reflexivity; lia.
Qed.

Lemma emit_call_indirect_ret md j ft t w w' table rest :
  0 <= param_count ft < 2^28 -> tables md = table :: rest ->
  emit_call_indirect md j ft t w = Some (tt, w') ->
  ret_path_ok (cmem w') (code w + 41) (code w') (param_count ft) (return_count ft).
Proof.
  intros Hp Ht H. destruct w as [c cm].
  unfold emit_call_indirect in H. rewrite Ht in H.
  cbv [emit_check_call_depth emit_check_call_depth_end bind emit ret branch_to emit_branch
       fix_branch List.length app le32 map code cmem] in H.
  cbv zeta in H. simpl Z.of_nat in H.
  match type of H with
  | match emit_multipop ?n ?w0 with _ => _ end = _ =>
      destruct (emit_multipop n w0) as [[u w1]|] eqn:Hmp; [|discriminate];
      destruct u; apply emit_multipop_small in Hmp; [|exact Hp]
  end.
  unfold ret_path_ok. cbn [code].
  destruct (param_count ft =? 0).
  - subst w1. cbn [code cmem].
    destruct (return_count ft =? 0); cbn [negb] in H; injection H as <-; cbn [code cmem];
    zdec; repeat split; try reflexivity; lia.
  - destruct w1 as [c1 cm1]. cbn [code cmem] in Hmp |- *.
    destruct Hmp as (G0 & G1 & G2).
    match type of G1 with cm1 ?a = _ => replace a with (c + 41) in G1 by lia end.
    destruct (return_count ft =? 0); cbn [negb] in H; injection H as <-; cbn [code cmem];
    zdec; rewrite ?G1 by lia; cbn; zdec; repeat split; try reflexivity; lia.
Qed.

Lemma ret_path_run env cm a stop p rc m :
  ret_path_ok cm a stop p rc -> pc m = a -> 0 <= p < 2^28 ->
  8 <= get m RSP -> get m RSP + 8 * p < 2^64 ->
  exists m', run 4 env cm stop m = ODone m' /\ get m' RBX = u32 (get m RBX + 1).
Proof.
  intros (H1 & H2 & H3 & H4) Hpc Hp Hs1 Hs2.
  destruct m as [rg x mm z cf0 q lg sf0 of0 lm]. cbn [pc get regs] in *. subst q.
  destruct (Z.eqb_spec p 0) as [->|Hp0]; destruct (Z.eqb_spec rc 0) as [->|Hr0].
  - rstep. cbn [run]. mach2. zdec. eexists. split; [reflexivity|]. reflexivity.
  - rstep. rstep. cbn [run]. mach2. zdec. eexists. split; [reflexivity|]. reflexivity.
  - rstep. rstep. cbn [run]. mach2. zdec. eexists. split; [reflexivity|]. reflexivity.
  - rstep. rstep. rstep. cbn [run]. mach2. zdec. eexists. split; [reflexivity|]. reflexivity.
Qed.

Lemma depth_enter_run env cm stop m soh a k :
  handler_ok cm soh NOnStackOverflow ->
  cm a = Some (IDec32 RBX, 2) ->
  cm (a + 2) = Some (IJcc CE (TAddr soh), 6) ->
  pc m = a -> stop <> a -> stop <> a + 2 ->
  stop <> soh -> stop <> soh + 4 -> stop <> soh + 14 ->
  depth_enter (get m RBX) = None ->
  run (5 + k) env cm stop m = OTrap "stack overflow".
Proof.
  intros Hh L0 L2 Hpc S0 S2 S3 S4 S5 Hd.
  destruct m as [rg x mm z cf0 q lg sf0 of0 lm]. cbn [pc get regs] in *. subst q.
  unfold depth_enter in Hd. destruct (Z.eqb_spec (u32 (rg RBX - 1)) 0) as [Hz|Hz];
    [|discriminate].
  cbn [Nat.add]. rstep. rewrite Hz. cbn [Z.eqb]. rstep.
  eapply handler_run; [exact Hh | reflexivity | reflexivity | exact S3 | exact S4 | exact S5].
Qed.

Lemma call_entry_run env cm stop m soh a fnum k b :
  cm a = Some (IDec32 RBX, 2) ->
  cm (a + 2) = Some (IJcc CE (TAddr soh), 6) ->
  cm (a + 8) = Some (ICallRel (TFn (Z.to_nat fnum)), 5) ->
  pc m = a -> stop <> a -> stop <> a + 2 -> stop <> a + 8 ->
  8 <= get m RSP < 2^64 ->
  depth_enter (get m RBX) = Some b ->
  exists m', run (3 + k) env cm stop m = OEnter (Z.to_nat fnum) m' /\
    get m' RBX = b /\ get m' RSP = get m RSP - 8 /\ mem m' (get m RSP - 8) = a + 13.
Proof.
  intros L0 L2 L8 Hpc S0 S2 S8 Hs Hd.
  destruct m as [rg x mm z cf0 q lg sf0 of0 lm]. cbn [pc get regs mem] in *. subst q.
  unfold depth_enter in Hd. destruct (Z.eqb_spec (u32 (rg RBX - 1)) 0) as [Hz|Hz];
    [discriminate|]. injection Hd as <-.
  cbn [Nat.add]. rstep. rstep. rstep.
  eexists. split; [reflexivity|]. cbn. rewrite (u64_id (rg RSP - 8)) by lia. zdec. repeat split; lia.
Qed.

Lemma nest_below n : forall b, 1 <= b < 2^32 -> Z.of_nat n < b -> nest n b = Some (b - Z.of_nat n).
Proof.
  induction n as [|n IH]; intros b Hb Hn; cbn [nest].
  - f_equal. lia.
  - unfold depth_enter. rewrite u32_id by lia. zdec.
    rewrite IH by lia. f_equal. lia.
Qed.

Lemma nest_exhaust n : forall b, b = Z.of_nat n -> 1 <= b -> b < 2^32 -> nest n b = None.
Proof.
  induction n as [|n IH]; intros b Hb H1 H2; cbn [nest]; [lia|].
  unfold depth_enter. rewrite u32_id by lia.
  destruct (Z.eqb_spec (b - 1) 0) as [E|E]; [reflexivity|].
  apply IH; lia.
Qed.
(** C2: every call sequence starts with [decl %ebx; jz stack_overflow]
    and ends with [incl %ebx].  For [emit_call] and [emit_call_indirect]
    after the constructor: when the decrement reaches zero
    ([depth_enter] gives [None]) the run ends in the trap of
    [on_stack_overflow]; otherwise [emit_call] enters the callee with the
    counter decremented and the return address [code w + 13] on the stack
    (for [emit_call_indirect] this is [call_indirect_dispatch], return
    address [code w + 41]); from the return address the sequence runs to
    its end and increments the counter.  From a budget [B] the counter
    allows [B - 1] nested calls, so at most [B] frames with the entry
    frame, and the next call traps; an increment undoes a decrement. *)
Theorem call_depth_bracket md j w0 w1 ft :
  machine_code_writer md w0 = Some (j, w1) ->
  0 <= imported_functions_size md -> 0 <= code w0 ->
  0 <= param_count ft < 2^28 ->
  (forall fnum w w' env m k,
     extends w1 w -> emit_call j ft fnum w = Some (tt, w') ->
     pc m = code w -> 8 <= get m RSP < 2^64 ->
     cmem w' (code w) = Some (IDec32 RBX, 2) /\
     cmem w' (code w + 2) = Some (IJcc CE (TAddr (stack_overflow_handler j)), 6) /\
     match depth_enter (get m RBX) with
     | None => run (5 + k) env (cmem w') (code w') m = OTrap "stack overflow"
     | Some b => exists m', run (3 + k) env (cmem w') (code w') m = OEnter (Z.to_nat fnum) m' /\
         get m' RBX = b /\ get m' RSP = get m RSP - 8 /\ mem m' (get m RSP - 8) = code w + 13
     end /\
     forall m1, pc m1 = code w + 13 ->
       8 <= get m1 RSP -> get m1 RSP + 8 * param_count ft < 2^64 ->
       exists m2, run 4 env (cmem w') (code w') m1 = ODone m2 /\
         get m2 RBX = u32 (get m1 RBX + 1)) /\
  (forall t w w' env m k table rest,
     extends w1 w -> tables md = table :: rest ->
     emit_call_indirect md j ft t w = Some (tt, w') ->
     pc m = code w ->
     cmem w' (code w) = Some (IDec32 RBX, 2) /\
     cmem w' (code w + 2) = Some (IJcc CE (TAddr (stack_overflow_handler j)), 6) /\
     (depth_enter (get m RBX) = None ->
        run (5 + k) env (cmem w') (code w') m = OTrap "stack overflow") /\
     forall m1, pc m1 = code w + 41 ->
       8 <= get m1 RSP -> get m1 RSP + 8 * param_count ft < 2^64 ->
       exists m2, run 4 env (cmem w') (code w') m1 = ODone m2 /\
         get m2 RBX = u32 (get m1 RBX + 1)) /\
  (forall B, 1 <= B < 2^32 ->
     (forall n, 0 <= n < B -> nest (Z.to_nat n) B = Some (B - n)) /\
     nest (Z.to_nat B) B = None /\
     (forall b b', 1 <= b < 2^32 -> depth_enter b = Some b' -> u32 (b' + 1) = b)).
Proof.
  intros Hmcw Himp Hw0 Hp.
  destruct (machine_code_writer_eq _ _ _ _ Hmcw Himp)
    as (Hj & _ & _ & _ & Hsoh & Hjt & _).
  subst j. cbn [stack_overflow_handler].
  split; [|split].
  - intros fnum w w' env m k Hext Hc Hpc Hs.
    destruct (emit_call_eq _ _ _ _ _ Hp Hc) as (Hw' & Hfr & L0 & L2 & L8 & Hret).
    cbn [stack_overflow_handler] in L2.
    assert (Hext' : extends w1 w').
    { destruct Hext as [He1 He2]. split; [lia|]. intros x Hx. rewrite Hfr by lia. apply He2; lia. }
    apply (handler_ok_extends _ _ _ _ Hext') in Hsoh; [|lia].
    destruct Hext as [Hww _].
    split; [exact L0|]. split; [exact L2|]. split.
    + destruct (depth_enter (get m RBX)) as [b|] eqn:Hd.
      * eapply call_entry_run; eauto; lia.
      * eapply depth_enter_run; eauto; lia.
    + intros m1 Hpc1 Hs1 Hs2. eapply ret_path_run; eauto.
  - intros t w w' env m k table rest Hext Ht Hc Hpc.
    destruct (emit_call_indirect_eq _ _ _ _ _ _ _ _ Ht Hc) as (Hw' & Hfr & L0 & L2 & _).
    pose proof (emit_call_indirect_ret _ _ _ _ _ _ _ _ Hp Ht Hc) as Hret.
    cbn [stack_overflow_handler] in L2.
    assert (Hext' : extends w1 w').
    { destruct Hext as [He1 He2]. split; [lia|]. intros x Hx. rewrite Hfr by lia. apply He2; lia. }
    apply (handler_ok_extends _ _ _ _ Hext') in Hsoh; [|lia].
    destruct Hext as [Hww _].
    split; [exact L0|]. split; [exact L2|]. split.
    + intros Hd. eapply depth_enter_run; eauto; lia.
    + intros m1 Hpc1 Hs1 Hs2. eapply ret_path_run; eauto.
  - intros B HB. split; [|split].
    + intros n Hn. rewrite nest_below by lia. f_equal. lia.
    + apply nest_exhaust; lia.
    + intros b b' Hb Hd. unfold depth_enter in Hd. rewrite u32_id in Hd by lia.
      destruct (_ =? 0); [discriminate|]. injection Hd as <-.
      rewrite u32_id; lia.
Qed.

Lemma call_depth_bracket_witness :
  machine_code_writer ci_module (empty_code 0) = Some (ci_addrs, ci_w1) /\
  emit_call ci_addrs ci_ft 0 ci_w1 = Some (tt, cd_w') /\
  run 5 null_env (cmem cd_w') (code cd_w') (cd_machine 1) = OTrap "stack overflow" /\
  nest 2 3 = Some 1 /\ nest 3 3 = None.
Proof.
  assert (E1 : machine_code_writer ci_module (empty_code 0) = Some (ci_addrs, ci_w1))
    by (vm_compute; reflexivity).
  assert (E2 : emit_call ci_addrs ci_ft 0 ci_w1 = Some (tt, cd_w'))
    by (vm_compute; reflexivity).
  destruct (call_depth_bracket ci_module ci_addrs (empty_code 0) ci_w1 ci_ft E1
              ltac:(cbn; lia) ltac:(cbn; lia) ltac:(cbn; lia)) as [Hc [_ Hn]].
  split; [exact E1|]. split; [exact E2|]. split.
  - destruct (Hc 0 ci_w1 cd_w' null_env (cd_machine 1) 0%nat (extends_refl _) E2 eq_refl
                ltac:(cbn; lia)) as (_ & _ & H & _).
    exact H.
  - destruct (Hn 3 ltac:(lia)) as (H1 & H2 & _).
    split; [exact (H1 2 ltac:(lia)) | exact H2].
Defined.

(** ** br_table *)

Lemma emit_multipop_run dc w w' env cm stop m :
  0 < dc < 2^32 -> dc <> 0x80000001 -> Z.land dc 0x70000000 = 0 ->
  emit_multipop dc w = Some (tt, w') ->
  (forall x, code w <= x < code w' -> cm x = cmem w' x) ->
  (stop < code w \/ code w' <= stop) -> pc m = code w ->
  code w < code w' /\ (forall x, x < code w -> cmem w' x = cmem w x) /\
  exists n m', (forall f, run (n + f) env cm stop m = run f env cm stop m') /\
    pc m' = code w'.
Proof.
  intros Hdc Hne Hl H Hag Hst Hpc. unfold emit_multipop in H.
  replace ((0 <? dc) && negb (dc =? 0x80000001)) with true in H
    by (symmetry; apply andb_true_intro; split; [apply Z.ltb_lt; lia|
        apply negb_true_iff, Z.eqb_neq; lia]).
  rewrite Hl in H. cbn [Z.eqb negb] in H.
  destruct w as [c cm0]. destruct m as [rg x mm z cf0 q lg sf0 of0 lm]. cbn [pc code cmem] in *. subst q.
  destruct (Z.testbit dc 31);
    cbv [bind emit ret List.length app le32 map code cmem] in H;
    cbv zeta in H; simpl Z.of_nat in H; injection H as <-; cbn [code cmem] in *.
  - assert (L0 : cm c = Some (ILoadTop 64 RAX, 4)) by (rewrite Hag by lia; zdec; reflexivity).
    assert (L4 : cm (c + 4) = Some (IAddRsp (s32 (dc * 8)), 7))
      by (rewrite Hag by lia; zdec; reflexivity).
    assert (L11 : cm (c + 4 + 7) = Some (IPush RAX, 1)) by (rewrite Hag by lia; zdec; reflexivity).
    split; [lia|]. split; [intros y Hy; zdec; reflexivity|].
    exists 3%nat. eexists. split; [intros f; cbn [Nat.add]; rstep; rstep; rstep; reflexivity|].
    cbn. lia.
  - assert (L4 : cm c = Some (IAddRsp (s32 (dc * 8)), 7))
      by (rewrite Hag by lia; zdec; reflexivity).
    split; [lia|]. split; [intros y Hy; zdec; reflexivity|].
    exists 1%nat. eexists. split; [intros f; cbn [Nat.add]; rstep; reflexivity|].
    cbn. lia.
Qed.

Lemma emit_simple bs i w u w' :
  emit bs i w = Some (u, w') ->
  code w' = code w + Z.of_nat (List.length bs) /\
  cmem w' (code w) = Some (i, Z.of_nat (List.length bs)) /\
  forall x, x <> code w -> cmem w' x = cmem w x.
Proof.
  unfold emit. intros H. injection H as _ <-. cbn [code cmem].
  split; [reflexivity|]. split; [rewrite Z.eqb_refl; reflexivity|].
  intros x Hx. destruct (Z.eqb_spec x (code w)); [contradiction|reflexivity].
Qed.

Lemma emit_branch_eq bs mk w s w' :
  emit_branch bs mk w = Some (s, w') ->
  s = code w /\ code w' = code w + Z.of_nat (List.length bs) + 4 /\
  cmem w' (code w) = Some (mk TUnresolved, Z.of_nat (List.length bs) + 4) /\
  forall x, x <> code w -> cmem w' x = cmem w x.
Proof.
  unfold emit_branch. intros H. injection H as <- <-. cbn [code cmem].
  split; [reflexivity|]. split; [lia|]. split; [rewrite Z.eqb_refl; reflexivity|].
  intros x Hx. destruct (Z.eqb_spec x (code w)); [contradiction|reflexivity].
Qed.

Lemma fix_branch_eq s t w u w' :
  fix_branch s t w = Some (u, w') ->
  code w' = code w /\ (forall x, x <> s -> cmem w' x = cmem w x) /\
  forall i sz, cmem w s = Some (i, sz) -> cmem w' s = Some (retarget t i, sz).
Proof.
  unfold fix_branch. intros H. injection H as _ <-. cbn [code cmem].
  split; [reflexivity|]. split.
  - intros x Hx. destruct (cmem w x) as [[i sz]|]; [|reflexivity].
    destruct (Z.eqb_spec x s); [contradiction|reflexivity].
  - intros i sz E. rewrite E, Z.eqb_refl. reflexivity.
Qed.

Lemma fix_here_eq s w u w' :
  fix_here s w = Some (u, w') ->
  code w' = code w /\ (forall x, x <> s -> cmem w' x = cmem w x) /\
  forall i sz, cmem w s = Some (i, sz) -> cmem w' s = Some (retarget (TAddr (code w)) i, sz).
Proof.
  unfold fix_here, bind, get_code. apply fix_branch_eq.
Qed.

Lemma labels_lt st (c : Z) (w : wstate) :
  Forall (fun l => l < c /\ exists t, cmem w l = Some (IJcc CAE t, 6)) (labels st) ->
  forall x, In x (labels st) -> x < c.
Proof.
  intros H x Hx. rewrite Forall_forall in H. apply H in Hx. lia.
Qed.

Lemma in_labels st it l : In it st -> branch_target it = Some l -> In l (labels st).
Proof.
  induction st as [|it' st IH]; intros Hin Hb; [destruct Hin|].
  destruct Hin as [<-|Hin]; cbn [labels].
  - rewrite Hb. left. reflexivity.
  - destruct (branch_target it'); [right|]; auto.
Qed.

Lemma run_next n env cm stop m i sz m' :
  pc m <> stop -> cm (pc m) = Some (i, sz) -> exec env i sz m = SNext m' ->
  run (S n) env cm stop m = run n env cm stop m'.
Proof. intros H1 H2 H3. rewrite (run_S n env cm stop m i sz H1 H2), H3. reflexivity. Qed.

Lemma run_stop n env cm stop m i sz o :
  pc m <> stop -> cm (pc m) = Some (i, sz) -> exec env i sz m = SStop o ->
  run (S n) env cm stop m = o.
Proof. intros H1 H2 H3. rewrite (run_S n env cm stop m i sz H1 H2), H3. reflexivity. Qed.

Lemma reach_jmp env cm stop size a lo :
  0 <= lo -> cm a = Some (IJmp (TLabel (Z.to_nat lo)), 5) -> stop <> a ->
  reach env cm stop size a lo (lo + 1).
Proof.
  intros Hlo Ha Hs m Hpc Hk. exists 1%nat, m.
  rewrite <- Hpc in Ha, Hs.
  rewrite (run_stop 0 env cm stop m _ _ (OExit (Z.to_nat lo) m) (not_eq_sym Hs) Ha)
    by reflexivity.
  f_equal. f_equal. lia.
Qed.

Lemma reach_cmp env cm stop size a mid lo hi t :
  lo < mid < hi -> hi <= size + 1 -> 0 <= mid < 2^32 ->
  cm a = Some (ICmpImm 32 RAX mid, 5) -> cm (a + 5) = Some (IJcc CAE t, 6) ->
  stop <> a -> stop <> a + 5 ->
  reach env cm stop size (a + 11) lo mid -> reach_t env cm stop size t mid hi ->
  reach env cm stop size a lo hi.
Proof.
  intros Hm Hh Hmid Ha Hb Hs1 Hs2 Hlo Hhi m Hpc Hk.
  set (m1 := set_pc (pc m + 5)
               (set_flags (u32 (get m RAX) =? mid) (u32 (get m RAX) <? mid) m)).
  assert (E1 : forall n, run (S n) env cm stop m = run n env cm stop m1).
  { intros n. rewrite <- Hpc in Ha, Hs1. apply (run_next n env cm stop m _ _ m1 (not_eq_sym Hs1) Ha).
    cbn [exec]. unfold m1, u32. rewrite (Z.mod_small mid) by lia. reflexivity. }
  assert (Hpc1 : pc m1 = a + 5) by (cbn; lia).
  unfold key in Hk.
  destruct (Z.ltb_spec (u32 (get m RAX)) mid) as [Hlt|Hge].
  - set (m2 := set_pc (pc m1 + 6) m1).
    assert (E2 : forall n, run (S n) env cm stop m1 = run n env cm stop m2).
    { intros n. rewrite <- Hpc1 in Hb, Hs2.
      apply (run_next n env cm stop m1 _ _ m2 (not_eq_sym Hs2) Hb).
      cbn [exec cond_holds]. subst m1. cbn [cf set_pc set_flags].
      replace (u32 (get m RAX) <? mid) with true by (symmetry; apply Z.ltb_lt; lia).
      reflexivity. }
    destruct (Hlo m2) as (n & m' & Hr).
    + subst m2. cbn [pc set_pc]. lia.
    + assert (key size m2 = key size m) by reflexivity. unfold key in *. lia.
    + exists (S (S n)), m'. rewrite E1, E2, Hr. reflexivity.
  - assert (Hc : cond_holds CAE m1 = true).
    { subst m1. cbn [cond_holds cf set_pc set_flags].
      replace (u32 (get m RAX) <? mid) with false by (symmetry; apply Z.ltb_ge; lia).
      reflexivity. }
    destruct t as [a'|kf|kl|]; cbn [reach_t] in Hhi; try contradiction.
    + set (m2 := set_pc a' m1).
      assert (E2 : forall n, run (S n) env cm stop m1 = run n env cm stop m2).
      { intros n. rewrite <- Hpc1 in Hb, Hs2.
        apply (run_next n env cm stop m1 _ _ m2 (not_eq_sym Hs2) Hb).
        cbn [exec]. rewrite Hc. reflexivity. }
      destruct (Hhi m2) as (n & m' & Hr).
      * reflexivity.
      * assert (key size m2 = key size m) by reflexivity. unfold key in *. lia.
      * exists (S (S n)), m'. rewrite E1, E2, Hr. reflexivity.
    + destruct Hhi as [Hkl ->]. exists 2%nat, m1.
      rewrite E1. rewrite <- Hpc1 in Hb, Hs2.
      rewrite (run_stop 0 env cm stop m1 _ _ (OExit kl m1) (not_eq_sym Hs2) Hb).
      * f_equal. unfold key in *. lia.
      * cbn [exec]. rewrite Hc. reflexivity.
Qed.

Lemma bind_intro {A B} (c : W A) (k : A -> W B) w a w' r :
  c w = Some (a, w') -> k a w' = r -> bind c k w = r.
Proof. intros H1 H2. unfold bind. rewrite H1. exact H2. Qed.

(** one round of [emit_case] for case [k], its returned branch resolved
    to the label [k], then the rest [REST] of the lowering *)
Section Loop.
Variables (env : native_env) (size dc k : Z) (REST : br_table_generator -> W unit).
Hypothesis Hsize : 0 <= size /\ size + 1 < 2^32.
Hypothesis Hdc : dc_ok dc.
Hypothesis HR : forall g' w2 wF, REST g' w2 = Some (tt, wF) -> gen_pre size g' w2 ->
  _i g' = k + 1 -> gen_post env size g' w2 wF.

Lemma emit_case_loop_post fuel : forall g w wF,
  gen_pre size g w -> k = _i g ->
  (r <- emit_case_loop fuel dc g ;;
   fix_branch (fst r) (TLabel (Z.to_nat k)) ;; REST (snd r)) w = Some (tt, wF) ->
  gen_post env size g w wF.
Proof.
  induction fuel as [|fuel IH]; intros g w wF Hpre Hk H.
  { cbn [emit_case_loop] in H. discriminate H. }
  destruct g as [i st]. cbn [_i] in Hk. subst k.
  destruct st as [|it st].
  { cbn [emit_case_loop stack] in H. discriminate H. }
  destruct it as [mn mx lab].
  destruct Hpre as (Hc & Hi0 & Hnd & Hlb).
  cbn [stack _i contig labels min max branch_target] in Hc, Hnd, Hlb, Hi0.
  destruct Hc as (<- & Hmm & Hc).
  cbn [emit_case_loop stack min max branch_target _i] in H.
  destruct (bind_inv _ _ _ _ _ H) as ([s g'] & w3 & H1 & H2). clear H.
  destruct (bind_inv _ _ _ _ _ H1) as (u & w1 & Hf & H3). clear H1.
  cbn [fst snd] in H2.
  assert (Hl0 : forall l, lab = Some l ->
            l < code w /\ (exists t, cmem w l = Some (IJcc CAE t, 6)) /\ ~ In l (labels st)).
  { intros l ->. inversion Hlb as [|? ? [Hl1 Hl2] Hlb']. inversion Hnd. auto. }
  assert (Hst : NoDup (labels st) /\
           Forall (fun l => l < code w /\ exists t, cmem w l = Some (IJcc CAE t, 6)) (labels st)).
  { destruct lab as [l|]; [inversion Hnd; inversion Hlb; auto | auto]. }
  clear Hnd Hlb. destruct Hst as [Hnd Hlb].
  assert (Hw1 : code w1 = code w /\
     (forall x, (forall l, lab = Some l -> x <> l) -> cmem w1 x = cmem w x) /\
     (forall l, lab = Some l -> cmem w1 l = Some (IJcc CAE (TAddr (code w)), 6))).
  { destruct lab as [l|].
    - destruct (fix_here_eq _ _ _ _ Hf) as (F1 & F2 & F3).
      destruct (Hl0 l eq_refl) as (_ & [t0 Ht0] & _).
      split; [exact F1|]. split.
      + intros x Hx. apply F2. apply Hx. reflexivity.
      + intros l' E. injection E as <-. rewrite (F3 _ _ Ht0). reflexivity.
    - injection Hf as _ <-. split; [reflexivity|]. split; [auto|]. discriminate. }
  clear Hf. destruct Hw1 as (Hw1c & Hw1m & Hw1l).
  assert (Hnl : forall x, ~ In x (labels (mkItem mn mx lab :: st)) ->
            (forall l, lab = Some l -> x <> l) /\ ~ In x (labels st)).
  { intros x Hx. cbn [labels branch_target] in Hx. destruct lab as [l|].
    - split; [intros l' E; injection E as <-; intros ->; apply Hx; left; reflexivity|].
      intros Hin; apply Hx; right; exact Hin.
    - split; [discriminate|exact Hx]. }
  assert (Hlt := labels_lt st (code w) w Hlb).
  assert (Hu : u32 (mx - mn) = mx - mn) by (unfold u32; apply Z.mod_small; lia).
  rewrite Hu in H3.
  destruct (Z.ltb_spec 1 (mx - mn)) as [Hsp|Hlf].
  - (* the range is split at its midpoint *)
    set (mid := u32 (mn + (mx - mn) / 2)) in H3.
    assert (Hd : 1 <= (mx - mn) / 2 < mx - mn).
    { split; [apply (Z.div_le_mono 2 (mx - mn) 2); lia|apply Z.div_lt; lia]. }
    assert (Hmid : mid = mn + (mx - mn) / 2) by (unfold mid, u32; apply Z.mod_small; lia).
    assert (Hmid' : mn < mid < mx) by lia.
    clearbody mid.
    destruct (bind_inv _ _ _ _ _ H3) as (u1 & wA & HA & H4). clear H3.
    destruct (bind_inv _ _ _ _ _ H4) as (ml & w5 & HB & H5). clear H4.
    destruct (emit_simple _ _ _ _ _ HA) as (A1 & A2 & A3).
    destruct (emit_branch_eq _ _ _ _ _ HB) as (-> & B1 & B2 & B3).
    change (Z.of_nat (List.length ([61] ++ le32 mid))) with 5 in A1, A2.
    cbn [List.length Z.of_nat] in B1, B2.
    assert (Hpre2 : gen_pre size (mkGen mn (mkItem mn mid None :: mkItem mid mx (Some (code wA)) :: st)) w5).
    { split; [cbn [stack _i contig min max]; split; [reflexivity|]; split; [lia|]; split; [reflexivity|]; split; [lia|exact Hc]|]. split; [cbn; lia|]. cbn [stack labels branch_target].
      split; [constructor; [intros Hin; apply Hlt in Hin; lia|exact Hnd]|].
      constructor.
      - split; [lia|]. exists TUnresolved. exact B2.
      - rewrite Forall_forall in Hlb |- *. intros l Hl. destruct (Hlb l Hl) as [Hl1 [t0 Ht0]].
        split; [lia|]. exists t0. rewrite B3 by lia. rewrite A3 by lia. rewrite Hw1m; [exact Ht0|].
        intros l' El. destruct (Hl0 l' El) as (_ & _ & Hn). intros ->. contradiction. }
    assert (Hrun : (r <- emit_case_loop fuel dc
                           (mkGen mn (mkItem mn mid None :: mkItem mid mx (Some (code wA)) :: st)) ;;
                    fix_branch (fst r) (TLabel (Z.to_nat mn)) ;; REST (snd r)) w5 = Some (tt, wF)).
    { apply (bind_intro _ _ _ _ _ _ H5). exact H2. }
    destruct (IH _ _ _ Hpre2 eq_refl Hrun) as (P1 & P2 & P3 & P4).
    cbn [stack min max branch_target] in P2.
    destruct (P3 (mkItem mid mx (Some (code wA))) (code wA)) as (t & Ht & Hrt);
      [right; left; reflexivity|reflexivity|].
    cbn [min max] in Hrt.
    assert (Hreach : reach env (cmem wF) (code wF) size (code w) mn mx).
    { apply (reach_cmp env (cmem wF) (code wF) size (code w) mid mn mx t); try lia.
      - rewrite P4 by (first [lia | cbn [labels branch_target]; intros [E|Hin]; [lia|apply Hlt in Hin; lia]]).
        rewrite B3 by lia. rewrite <- Hw1c. exact A2.
      - replace (code w + 5) with (code wA) by lia. exact Ht.
      - replace (code w + 11) with (code w5) by lia. apply P2. reflexivity.
      - exact Hrt. }
    split; [lia|]. split; [cbn [stack min max]; intros _; exact Hreach|]. split.
    + intros it l [<-|Hin] Hb.
      * cbn [branch_target min max] in Hb |- *. exists (TAddr (code w)). split; [|exact Hreach].
        destruct (Hl0 l Hb) as (Hl1 & _ & Hn).
        rewrite P4 by (first [lia | cbn [labels branch_target]; intros [E|Hin]; [lia|contradiction]]).
        rewrite B3 by lia. rewrite A3 by lia. apply Hw1l. exact Hb.
      * apply P3; [right; right; exact Hin|exact Hb].
    + intros x Hx Hn. destruct (Hnl x Hn) as [Hn1 Hn2].
      rewrite P4 by (first [lia | cbn [labels branch_target]; intros [E|Hin]; [lia|contradiction]]).
      rewrite B3 by lia. rewrite A3 by lia. apply Hw1m. exact Hn1.
  - (* the range holds the single case [mn] *)
    assert (Emx : mx = mn + 1) by lia. subst mx.
    replace (1 <? mn + 1 - mn) with false in H3 by (symmetry; apply Z.ltb_ge; lia).
    rewrite Z.eqb_refl in H3. cbn [negb] in H3.
    assert (Hpre' : forall w4, code w <= code w4 ->
              (forall l, In l (labels st) -> cmem w4 l = cmem w l) ->
              gen_pre size (mkGen (mn + 1) st) w4).
    { intros w4 Hc4 Hm4. split; [exact Hc|]. split; [cbn; lia|]. split; [exact Hnd|].
      rewrite Forall_forall in Hlb |- *. intros l Hl. destruct (Hlb l Hl) as [Hl1 Hl2].
      split; [lia|]. rewrite Hm4 by exact Hl. exact Hl2. }
    assert (Hls : forall l l', In l (labels st) -> lab = Some l' -> l <> l').
    { intros l l' Hl E ->. destruct (Hl0 _ E) as (_ & _ & Hn). contradiction. }
    assert (Hnin : forall x, code w <= x -> ~ In x (labels st)).
    { intros x Hx Hin. apply Hlt in Hin. lia. }
    destruct ((dc =? 0) || (dc =? 2147483649)) eqn:Edc.
    + destruct lab as [l|].
      * (* the case reuses the pending [jae] of its range *)
        cbv [ret] in H3. injection H3 as <- <- <-.
        destruct (bind_inv _ _ _ _ _ H2) as (u4 & w4 & H4 & H5). clear H2.
        destruct (fix_branch_eq _ _ _ _ _ H4) as (F1 & F2 & F3).
        destruct (Hl0 l eq_refl) as (Hl1 & _ & Hl2).
        assert (Hpre4 : gen_pre size (mkGen (mn + 1) st) w4).
        { apply Hpre'; [lia|]. intros l' Hl'. rewrite F2 by (apply (Hls l' l Hl' eq_refl)).
          apply Hw1m. intros l0 E. injection E as <-. apply (Hls l' l Hl' eq_refl). }
        destruct (HR _ _ _ H5 Hpre4 eq_refl) as (P1 & P2 & P3 & P4).
        cbn [stack labels] in P3, P4.
        split; [lia|]. split; [cbn; discriminate|]. split.
        -- intros it l0 [<-|Hin] Hb.
           ++ cbn [branch_target] in Hb. injection Hb as <-. exists (TLabel (Z.to_nat mn)). split.
              ** rewrite P4 by (first [lia | exact Hl2]). rewrite (F3 _ _ (Hw1l l eq_refl)).
                 reflexivity.
              ** cbn [reach_t min max]. split; lia.
           ++ apply P3; assumption.
        -- intros x Hx Hn. destruct (Hnl x Hn) as [Hn1 Hn2].
           rewrite P4 by (first [lia | exact Hn2]). rewrite F2 by (apply Hn1; reflexivity).
           apply Hw1m. exact Hn1.
      * (* jmp TARGET *)
        destruct (bind_inv _ _ _ _ _ H3) as (s0 & w2 & HB & HR3). clear H3.
        cbv [ret] in HR3. injection HR3 as <- <- <-.
        destruct (emit_branch_eq _ _ _ _ _ HB) as (-> & B1 & B2 & B3).
        replace (Z.of_nat (List.length [233]) + 4) with 5 in B1, B2 by reflexivity.
        rewrite Hw1c in B1, B2, B3, H2.
        destruct (bind_inv _ _ _ _ _ H2) as (u4 & w4 & H4 & H5). clear H2.
        destruct (fix_branch_eq _ _ _ _ _ H4) as (F1 & F2 & F3).
        assert (Hpre4 : gen_pre size (mkGen (mn + 1) st) w4).
        { apply Hpre'; [lia|]. intros l' Hl'. apply Hlt in Hl'.
          rewrite F2 by lia. rewrite B3 by lia. apply Hw1m. discriminate. }
        destruct (HR _ _ _ H5 Hpre4 eq_refl) as (P1 & P2 & P3 & P4).
        cbn [stack labels] in P3, P4.
        split; [lia|]. split.
        -- cbn [stack min max]. intros _. apply reach_jmp; [lia| |lia].
           rewrite P4 by (first [lia | apply Hnin; lia]). rewrite (F3 _ _ B2). reflexivity.
        -- split.
           ++ intros it l0 [<-|Hin] Hb; [discriminate Hb|]. apply P3; assumption.
           ++ intros x Hx Hn. destruct (Hnl x Hn) as [Hn1 Hn2].
              rewrite P4 by (first [lia | exact Hn2]). rewrite F2 by lia. rewrite B3 by lia.
              apply Hw1m. exact Hn1.
    + (* the stack is adjusted, then jmp TARGET *)
      destruct (bind_inv _ _ _ _ _ H3) as (u2 & w2 & HM & H6). clear H3.
      destruct (bind_inv _ _ _ _ _ H6) as (s0 & w2' & HB & HR3). clear H6.
      cbv [ret] in HR3. injection HR3 as <- <- <-.
      destruct u2. destruct Hdc as [Hdc1 Hdc2].
      apply orb_false_iff in Edc. destruct Edc as [Ed1 Ed2].
      apply Z.eqb_neq in Ed1, Ed2.
      destruct (emit_multipop_run dc w1 w2 env (cmem w2) (code w2)
                  (mkM (fun _ => 0) 0 (fun _ => 0) false false (code w1) [] false false (fun _ => 0)))
        as (M1 & M2 & _); try lia; auto.
      destruct (emit_branch_eq _ _ _ _ _ HB) as (-> & B1 & B2 & B3).
      replace (Z.of_nat (List.length [233]) + 4) with 5 in B1, B2 by reflexivity.
      destruct (bind_inv _ _ _ _ _ H2) as (u4 & w4 & H4 & H5). clear H2.
      destruct (fix_branch_eq _ _ _ _ _ H4) as (F1 & F2 & F3).
      assert (Hpre4 : gen_pre size (mkGen (mn + 1) st) w4).
      { apply Hpre'; [lia|]. intros l' Hl'. pose proof (Hlt _ Hl').
        rewrite F2 by lia. rewrite B3 by lia. rewrite M2 by lia. apply Hw1m.
        intros l0 E. apply (Hls l' l0 Hl' E). }
      destruct (HR _ _ _ H5 Hpre4 eq_refl) as (P1 & P2 & P3 & P4).
      cbn [stack labels] in P3, P4.
      assert (Hreach : reach env (cmem wF) (code wF) size (code w) mn (mn + 1)).
      { intros m Hpc Hk.
        destruct (emit_multipop_run dc w1 w2 env (cmem wF) (code wF) m)
          as (_ & _ & n & m' & Hr & Hpc'); try lia; auto.
        - intros x Hx. rewrite P4 by (first [lia | apply Hnin; lia]).
          rewrite F2 by lia. rewrite B3 by lia. reflexivity.
        - exists (n + 1)%nat, m'. rewrite Hr.
          replace (Z.to_nat (key size m)) with (Z.to_nat mn) by (f_equal; lia).
          apply (run_stop 0 env (cmem wF) (code wF) m' (IJmp (TLabel (Z.to_nat mn))) 5).
          + lia.
          + rewrite Hpc'. rewrite P4 by (first [lia | apply Hnin; lia]).
            rewrite (F3 _ _ B2). reflexivity.
          + reflexivity. }
      split; [lia|]. split; [cbn [stack min max]; intros _; exact Hreach|]. split.
      * intros it l0 [<-|Hin] Hb.
        -- cbn [branch_target min max] in Hb |- *. exists (TAddr (code w)). split; [|exact Hreach].
           destruct (Hl0 l0 Hb) as (Hl1 & _ & Hl2).
           rewrite P4 by (first [lia | exact Hl2]). rewrite F2 by lia. rewrite B3 by lia.
           rewrite M2 by lia. apply Hw1l. exact Hb.
        -- apply P3; assumption.
      * intros x Hx Hn. destruct (Hnl x Hn) as [Hn1 Hn2].
        rewrite P4 by (first [lia | exact Hn2]). rewrite F2 by lia. rewrite B3 by lia.
        rewrite M2 by lia. apply Hw1m. exact Hn1.
Qed.

End Loop.

Lemma default_rest_post env size g w wF :
  default_rest g w = Some (tt, wF) -> gen_post env size g w wF.
Proof.
  unfold default_rest. destruct (stack g) as [|it st] eqn:Es; [|discriminate].
  intros H. injection H as <-. split; [lia|]. rewrite Es. split; [exact I|]. split.
  - intros it l [].
  - reflexivity.
Qed.

Lemma emit_default_fix dc g t w wF :
  (r <- emit_default dc g ;; fix_branch (fst r) t) w = Some (tt, wF) ->
  (r <- emit_case_loop 33 dc g ;; fix_branch (fst r) t ;; default_rest (snd r)) w = Some (tt, wF).
Proof.
  intros H. destruct (bind_inv _ _ _ _ _ H) as ([s g'] & w1 & H1 & H2). clear H.
  destruct (bind_inv _ _ _ _ _ H1) as ([s' g''] & w2 & H3 & H4). clear H1.
  apply (bind_intro _ _ _ _ _ _ H3). cbn [fst snd] in H4 |- *.
  unfold default_rest. destruct (stack g'') eqn:Es; [|discriminate].
  cbv [ret] in H4. injection H4 as E1 E2 E3. subst. cbn [fst] in H2.
  apply (bind_intro _ _ _ _ _ _ H2). reflexivity.
Qed.

Lemma br_cases_post env size dflt :
  0 <= size /\ size + 1 < 2^32 -> dc_ok dflt ->
  forall cases k g w wF,
  Forall dc_ok cases -> gen_pre size g w -> k = _i g ->
  k + Z.of_nat (List.length cases) = size ->
  (g' <- emit_br_cases k cases g ;; r <- emit_default dflt g' ;;
   fix_branch (fst r) (TLabel (Z.to_nat size))) w = Some (tt, wF) ->
  gen_post env size g w wF.
Proof.
  intros Hsize Hd cases. induction cases as [|dc cases IH]; intros k g w wF Hf Hpre Hk Hl H.
  - cbn [emit_br_cases List.length Z.of_nat] in H, Hl.
    apply (emit_case_loop_post env size dflt size default_rest Hsize Hd) with (fuel := 33%nat);
      [| exact Hpre | lia | apply emit_default_fix; exact H].
    intros g' w2 wF' H2 _ _. apply default_rest_post; exact H2.
  - pose proof (Forall_inv Hf) as Hdc. pose proof (Forall_inv_tail Hf) as Hf'. clear Hf. subst k.
    cbn [emit_br_cases List.length] in H, Hl.
    destruct (bind_inv _ _ _ _ _ H) as (g' & w2 & H1 & H2). clear H.
    destruct (bind_inv _ _ _ _ _ H1) as ([s g1] & w1 & H3 & H4). clear H1.
    destruct (bind_inv _ _ _ _ _ H4) as (u & w3 & H5 & H6). clear H4.
    apply (emit_case_loop_post env size dc (_i g)
             (fun g1 => g' <- emit_br_cases (_i g + 1) cases g1 ;; r <- emit_default dflt g' ;;
                        fix_branch (fst r) (TLabel (Z.to_nat size))) Hsize Hdc)
      with (fuel := 33%nat); [| exact Hpre | reflexivity |].
    + intros g2 w4 wF' H7 Hpre2 Hi2. apply (IH (_i g + 1) g2 w4 wF' Hf' Hpre2); [lia|lia|exact H7].
    + apply (bind_intro _ _ _ _ _ _ H3). apply (bind_intro _ _ _ _ _ _ H5).
      apply (bind_intro _ _ _ _ _ _ H6). exact H2.
Qed.

(** C7: [br_table] is lowered to a binary search: [emit_br_table]
    starts the generator with the single range [0, table_size + 1), the
    default folded in as its last index, and [emit_case] splits the range
    at its midpoint. Run from the [pop %rax], the emitted code leaves
    through the label of case [k] when the popped index is [k <
    table_size], and through the default's label [table_size] when it is
    at least [table_size] (as a 32-bit unsigned value). *)
Theorem br_table_dispatch env cases dflt w w' m :
  Z.of_nat (List.length cases) + 1 < 2^32 -> Forall dc_ok (dflt :: cases) ->
  br_table_lowering cases dflt w = Some (tt, w') -> pc m = code w ->
  (exists w0, emit_br_table (Z.of_nat (List.length cases)) w =
     Some (mkGen 0 [mkItem 0 (Z.of_nat (List.length cases) + 1) None], w0)) /\
  exists n m', run n env (cmem w') (code w') m =
    OExit (Z.to_nat (Z.min (u32 (mem m (get m RSP))) (Z.of_nat (List.length cases)))) m'.
Proof.
  intros Hs Hf H Hpc.
  remember (Z.of_nat (List.length cases)) as size eqn:Esize.
  assert (Hsize : 0 <= size /\ size + 1 < 2^32) by lia.
  assert (Hu : u32 (size + 1) = size + 1) by (unfold u32; apply Z.mod_small; lia).
  unfold br_table_lowering in H. rewrite <- Esize in H.
  destruct (bind_inv _ _ _ _ _ H) as (g0 & w0 & H1 & H2). clear H.
  unfold emit_br_table in H1.
  destruct (bind_inv _ _ _ _ _ H1) as (u & wa & HA & HB).
  cbv [ret] in HB. injection HB as <- <-.
  rewrite Hu in H1, H2. split; [exists wa; unfold emit_br_table; rewrite Hu; exact H1|].
  destruct (emit_simple _ _ _ _ _ HA) as (A1 & A2 & A3).
  change (Z.of_nat (List.length [88])) with 1 in A1, A2.
  assert (Hpre : gen_pre size (mkGen 0 [mkItem 0 (size + 1) None]) wa).
  { split; [cbn; split; [reflexivity|]; split; [lia|reflexivity]|].
    split; [cbn; lia|]. split; constructor. }
  pose proof (Forall_inv Hf) as Hd. pose proof (Forall_inv_tail Hf) as Hf'.
  destruct (br_cases_post env size dflt Hsize Hd cases 0 _ wa w' Hf' Hpre eq_refl
              ltac:(lia) H2) as (P1 & P2 & P3 & P4).
  cbn [stack min max branch_target] in P2. specialize (P2 eq_refl).
  pose (m1 := set_pc (pc m + 1)
                (set RAX (mem m (get m RSP)) (set RSP (u64 (get m RSP + 8)) m))).
  assert (Hk1 : key size m1 = Z.min (u32 (mem m (get m RSP))) size) by reflexivity.
  pose proof (Z.mod_pos_bound (mem m (get m RSP)) (2^32) ltac:(lia)).
  destruct (P2 m1) as (n & m' & Hr).
  - cbn. lia.
  - rewrite Hk1. unfold u32. lia.
  - exists (S n), m'. rewrite <- Hk1, <- Hr.
    apply (run_next n env (cmem w') (code w') m (IPop RAX) 1 m1); [lia| |reflexivity].
    rewrite P4 by (first [lia | intros []]). rewrite Hpc. exact A2.
Qed.

Lemma br_table_dispatch_witness :
  br_table_lowering bt_cases 0x80000001 (empty_code 0) = Some (tt, bt_w) /\
  (exists n m', run n null_env (cmem bt_w) (code bt_w) (bt_machine 1) = OExit 1 m') /\
  (exists n m', run n null_env (cmem bt_w) (code bt_w) (bt_machine 7) = OExit 3 m').
Proof.
  assert (E : br_table_lowering bt_cases 0x80000001 (empty_code 0) = Some (tt, bt_w))
    by (vm_compute; reflexivity).
  assert (Hf : Forall dc_ok (0x80000001 :: bt_cases))
    by (repeat constructor; cbv; discriminate || (split; discriminate)).
  split; [exact E|]. split.
  - exact (proj2 (br_table_dispatch null_env bt_cases 0x80000001 (empty_code 0) bt_w
                    (bt_machine 1) ltac:(cbn; lia) Hf E eq_refl)).
  - exact (proj2 (br_table_dispatch null_env bt_cases 0x80000001 (empty_code 0) bt_w
                    (bt_machine 7) ltac:(cbn; lia) Hf E eq_refl)).
Defined.

(** ** Host function calls *)

Lemma emit_host_call_eq i w a w' :
  emit_host_call i w = Some (a, w') ->
  code w' = code w + 40 /\ extends w w' /\ host_stub_ok (cmem w') (code w) i.
Proof.
  intros H. assert (Hg : extends w w').
  { assert (Hgr : grows (emit_host_call i))
      by (unfold emit_host_call, emit_align_stack, emit_restore_stack; eauto 30 with grows_db).
    exact (Hgr _ _ _ H). }
  destruct w as [c cm]. unfold emit_host_call, emit_align_stack, emit_restore_stack in H.
  wcomp1 H. cbn [code cmem] in *. split; [lia|]. split; [exact Hg|].
  unfold host_stub_ok. zdec. repeat split; reflexivity.
Qed.

Lemma host_stub_ok_extends w w' a i :
  extends w w' -> a + 40 <= code w -> host_stub_ok (cmem w) a i -> host_stub_ok (cmem w') a i.
Proof.
  intros [_ E] Ha H. unfold host_stub_ok in *. rewrite !E by lia. exact H.
Qed.

Lemma emit_host_calls_eq n i w a w' :
  emit_host_calls n i w = Some (a, w') ->
  forall k, 0 <= k < Z.of_nat n -> host_stub_ok (cmem w') (code w + 40 * k) (i + k).
Proof.
  revert i w. induction n as [|n IH]; intros i w H k Hk; cbn [emit_host_calls] in H.
  - lia.
  - destruct (bind_inv _ _ _ _ _ H) as (b & w1 & H1 & H2).
    pose proof (grows_emit_host_calls _ _ _ _ _ H2) as Hg.
    apply emit_host_call_eq in H1 as (C1 & _ & K1).
    destruct (Z.eq_dec k 0) as [->|Hk0].
    + rewrite Z.mul_0_r, !Z.add_0_r. eapply host_stub_ok_extends; [exact Hg | lia | exact K1].
    + replace (code w + 40 * k) with (code w1 + 40 * (k - 1)) by lia.
      replace (i + k) with ((i + 1) + (k - 1)) by lia.
      apply (IH (i + 1) w1 H2). lia.
Qed.

Lemma machine_code_writer_stubs md w j w' i :
  machine_code_writer md w = Some (j, w') -> 0 <= i < imported_functions_size md ->
  host_stub_ok (cmem w') (host_entry w i) i.
Proof.
  intros H Hi. unfold machine_code_writer in H.
  destruct (bind_inv _ _ _ _ _ H) as (fpe & w1 & H1 & H2).
  destruct (bind_inv _ _ _ _ _ H2) as (cih & w2 & H3 & H4).
  destruct (bind_inv _ _ _ _ _ H4) as (teh & w3 & H5 & H6).
  destruct (bind_inv _ _ _ _ _ H6) as (soh & w4 & H7 & H8).
  destruct (bind_inv _ _ _ _ _ H8) as (u & w5 & H9 & H10).
  destruct (bind_inv _ _ _ _ _ H10) as (jt & w6 & H11 & H12).
  destruct (bind_inv _ _ _ _ _ H12) as (u' & w7 & H13 & H14).
  clear H H2 H4 H6 H8 H10 H12.
  apply emit_error_handler_eq in H1 as (_ & C1 & _).
  apply emit_error_handler_eq in H3 as (_ & C2 & _).
  apply emit_error_handler_eq in H5 as (_ & C3 & _).
  apply emit_error_handler_eq in H7 as (_ & C4 & _).
  pose proof (emit_host_calls_size _ _ _ _ _ H9) as C5.
  pose proof (emit_host_calls_eq _ _ _ _ _ H9 i) as K5.
  rewrite Z2Nat.id in C5, K5 by lia.
  injection H11 as <- <-. injection H14 as <- <-.
  assert (E7 : extends w5 w7).
  { destruct (tables md) as [|table rest].
    - injection H13 as _ <-. apply extends_refl.
    - exact (grows_emit_table _ _ _ _ _ _ _ H13). }
  unfold host_entry. replace (code w + 64 + 40 * i) with (code w4 + 40 * i) by lia.
  eapply host_stub_ok_extends; [exact E7 | lia |].
  replace i with (0 + i) at 2 by lia. apply K5. lia.
Qed.
Lemma land_align y : 0 <= y < 2^64 -> Z.land y (u64 (-16)) = y - y mod 16.
Proof.
  intros Hy.
  replace (u64 (-16)) with (Z.shiftl (Z.ones 60) 4) by reflexivity.
  replace (y - y mod 16) with (Z.shiftl (Z.shiftr y 4) 4)
    by (rewrite Z.shiftl_mul_pow2, Z.shiftr_div_pow2 by lia;
        change (2^4) with 16; pose proof (Z.div_mod y 16); lia).
  apply Z.bits_inj'. intros n Hn.
  rewrite Z.land_spec, !Z.shiftl_spec by lia.
  destruct (Z.lt_ge_cases n 4).
  - rewrite (Z.testbit_neg_r (Z.ones 60)), (Z.testbit_neg_r (Z.shiftr y 4)) by lia. apply andb_false_r.
  - rewrite Z.shiftr_spec by lia. replace (n - 4 + 4) with n by lia.
    destruct (Z.lt_ge_cases (n - 4) 60).
    + rewrite Z.testbit_ones_nonneg by lia. replace (n - 4 <? 60) with true by (symmetry; apply Z.ltb_lt; lia). apply andb_true_r.
    + rewrite Z.testbit_ones_nonneg by lia. replace (n - 4 <? 60) with false by (symmetry; apply Z.ltb_ge; lia).
      rewrite andb_false_r. symmetry.
      rewrite Z.testbit_eqb by lia. rewrite Z.div_small; [reflexivity|].
      split; [lia|]. apply Z.lt_le_trans with (2^64); [lia|]. apply Z.pow_le_mono_r; lia.
Qed.

Lemma host_stub_run env cm m a i :
  host_stub_ok cm a i -> 0 <= i < 2^32 -> pc m = a ->
  64 <= get m RSP -> get m RSP + 8 < 2^64 -> ~ (a <= mem m (get m RSP) < a + 40) ->
  (forall v, ne_call_host_function env (get m RDI) (get m RSP + 8) i = inr v ->
   exists m', run 15 env cm (mem m (get m RSP)) m = ODone m' /\
     pc m' = mem m (get m RSP) /\ get m' RAX = u64 v /\ get m' RSP = get m RSP + 8 /\
     get m' RDI = get m RDI /\ get m' RSI = get m RSI /\
     get m' RBX = get m RBX /\ get m' RBP = get m RBP /\
     (forall x, get m RSP <= x -> mem m' x = mem m x) /\
     exists sp, sp mod 16 = 0 /\
       log m' = log m ++ [(NCallHostFunction, sp, get m RDI, get m RSP + 8)]) /\
  (forall e, ne_call_host_function env (get m RDI) (get m RSP + 8) i = inl e ->
   run 15 env cm (mem m (get m RSP)) m = OSignal e).
Proof.
  intros (K0 & K5 & K6 & K7 & K12 & K15 & K19 & K20 & K21 & K31 & K33 & K37 & K38 & K39)
         Hi Hp Hr1 Hr2 Hout.
  destruct m as [rg x mm z cf0 p lg sf0 of0 lm]. cbn [pc get regs mem log] in *. subst p.
  do 6 (rstep; u64s).
  rewrite land_align by lia.
  match goal with |- context [?y - ?y mod 16] => remember (y - y mod 16) as al eqn:Eal end.
  assert (Hal : al mod 16 = 0 /\ rg RSP - 31 <= al <= rg RSP - 16).
  { pose proof (Z.mod_pos_bound (rg RSP - 8 - 8) 16). pose proof (Z.div_mod (rg RSP - 8 - 8) 16).
    split; [|lia]. rewrite Eal. replace (rg RSP - 8 - 8 - (rg RSP - 8 - 8) mod 16) with ((rg RSP - 8 - 8) / 16 * 16) by lia.
    apply Z.mod_mul. lia. }
  clear Eal. destruct Hal as [Hal0 Hal].
  do 3 (rstep; u64s).
  rewrite (u64_id (native_addr NCallHostFunction)) by (cbv; split; congruence).
  split; [intros v Hv | intros e He]; rstep; rewrite native_of_addr_native;
    cbv [call_host_function longjmp_on_exception]; mach2; rewrite !(u32_id i) by lia;
    replace (rg RSP - 8 - 8 + 24) with (rg RSP + 8) by lia.
  - rewrite Hv. do 4 (rstep; u64s).
    replace (rg RSP - 8 - 8 + 8 + 8) with (rg RSP) by lia.
    cbn [run pc]. rewrite Z.eqb_refl.
    eexists; split; [reflexivity|]. cbv beta iota. cbn [reg_eqb].
    repeat split; try reflexivity; try lia.
    + intros y Hy. zdec. reflexivity.
    + exists (al - 8 - 8). split; [|reflexivity].
      replace (al - 8 - 8) with (al + (-1) * 16) by lia. rewrite Z.mod_add; lia.
  - rewrite He. reflexivity.
Qed.

(** C8: every host function is entered through its [emit_host_call]
    stub.  Calls from JIT code name their callee as [TFn k] ([emit_call],
    and the [je] of the [call_indirect] jump table), which reaches the
    entry [start_function] recorded for function [k]; for an imported
    function that entry is [host_entry w k], and the writer leaves there
    the stub that aligns the stack and calls [call_host_function], whose
    host callback runs under [longjmp_on_exception].  When the callback
    returns, the stub returns its value in %rax to the caller with %rdi,
    %rsi and the caller's frame intact.  When it throws [e], the run of
    the JIT code stops with [OSignal e]: the exception never unwinds a JIT
    frame, and the executor sets the status [athena_execute]'s handler for
    [e] sets (trap, out of gas, argument out of range, invalid memory
    access, static mode violation, contract validation failure, internal
    error) *)
Theorem host_exception_to_status md w j w' env k m :
  machine_code_writer md w = Some (j, w') ->
  0 <= k < imported_functions_size md -> imported_functions_size md < 2^32 ->
  pc m = host_entry w k -> 64 <= get m RSP -> get m RSP + 8 < 2^64 ->
  ~ (host_entry w k <= mem m (get m RSP) < host_entry w k + 40) ->
  (forall j0 ft w0 w0', 0 <= param_count ft < 2^28 ->
     emit_call j0 ft k w0 = Some (tt, w0') ->
     cmem w0' (code w0 + 8) = Some (ICallRel (TFn (Z.to_nat k)), 5)) /\
  (forall v, ne_call_host_function env (get m RDI) (get m RSP + 8) k = inr v ->
   exists m', run 15 env (cmem w') (mem m (get m RSP)) m = ODone m' /\
     pc m' = mem m (get m RSP) /\ get m' RAX = u64 v /\ get m' RSP = get m RSP + 8 /\
     get m' RDI = get m RDI /\ get m' RSI = get m RSI /\
     get m' RBX = get m RBX /\ get m' RBP = get m RBP /\
     (forall x, get m RSP <= x -> mem m' x = mem m x)) /\
  (forall e, ne_call_host_function env (get m RDI) (get m RSP + 8) k = inl e ->
   run 15 env (cmem w') (mem m (get m RSP)) m = OSignal e /\
   signal_status (run 15 env (cmem w') (mem m (get m RSP)) m) = Some (status_of_exn e)) /\
  (forall s, status_of_exn (VMTrap s) = EVMC_FAILURE /\
     status_of_exn (OutOfGas s) = EVMC_OUT_OF_GAS /\
     status_of_exn (ArgumentOutOfRange s) = EVMC_ARGUMENT_OUT_OF_RANGE /\
     status_of_exn (InvalidMemoryAccess s) = EVMC_INVALID_MEMORY_ACCESS /\
     status_of_exn (StaticModeViolation s) = EVMC_STATIC_MODE_VIOLATION /\
     status_of_exn (ContractValidationFailure s) = EVMC_CONTRACT_VALIDATION_FAILURE /\
     status_of_exn (InternalErrorException s) = EVMC_INTERNAL_ERROR).
Proof.
  intros Hw Hk Hn Hp Hr1 Hr2 Hout.
  pose proof (machine_code_writer_stubs _ _ _ _ _ Hw Hk) as Hs.
  destruct (host_stub_run env (cmem w') m _ k Hs ltac:(lia) Hp Hr1 Hr2 Hout) as [Hret Hsig].
  split; [|split; [|split]].
  - intros j0 ft w0 w0' Hpc Hc. apply (emit_call_eq _ _ _ _ _ Hpc Hc).
  - intros v Hv. destruct (Hret v Hv) as (m' & R & P & A & S & D & I & B & Bp & M & _).
    exists m'. repeat split; assumption.
  - intros e He. rewrite (Hsig e He). split; reflexivity.
  - intros s. repeat split.
Qed.

Lemma host_exception_to_status_witness :
  run 15 oog_env (cmem host_code) 1000 (stack_machine 4096 64 [1000]) = OSignal (OutOfGas "out of gas") /\
  signal_status (run 15 oog_env (cmem host_code) 1000 (stack_machine 4096 64 [1000])) =
    Some EVMC_OUT_OF_GAS.
Proof.
  exact (proj1 (proj2 (proj2
    (host_exception_to_status host_md (empty_code 0) host_addrs host_code oog_env 0
       (stack_machine 4096 64 [1000])
       ltac:(vm_compute; reflexivity) ltac:(vm_compute; split; congruence)
       ltac:(vm_compute; reflexivity) ltac:(vm_compute; reflexivity)
       ltac:(vm_compute; congruence) ltac:(vm_compute; reflexivity)
       ltac:(vm_compute; intros [_ H]; congruence))))
    (OutOfGas "out of gas") eq_refl).
Defined.

(** * Further properties of the emitted code *)

(** The [n] variants of the stepping tactics leave [cond_holds] folded, the
    [c] variants unfold it but keep boolean connectives; [pstep] steps with
    [run_S], finding the instruction by [lia] on the code addresses. *)
Ltac xmn := cbv [set_pc set push pop store set_flags set_all_flags alu_flags set_lmem set_xmm0 add_log get jump] in *; cbn [regs mem xmm0 zf cf log pc sf ovf lmem reg_eqb] in *.
Ltac xstepn := cbn [run]; xmn; zdec; unfold step; cbv beta; xmn; zdec; cbn [exec retarget]; xmn; cbv zeta; xmn; zdec.
Ltac pstepn := cbn [Nat.add]; erewrite run_S; [ | cbn [pc]; lia | cbn [pc]; first [reflexivity | zdec; reflexivity] ];
  cbn [exec]; xmn; u64s; zdec.
Ltac xmc := cbv [cond_holds set_pc set push pop store set_flags set_all_flags alu_flags set_lmem set_xmm0 add_log get jump] in *; cbn [regs mem xmm0 zf cf log pc sf ovf lmem reg_eqb] in *.
Ltac xstepc := cbn [run]; xmc; zdec; unfold step; cbv beta; xmc; zdec; cbn [exec retarget]; xmc; cbv zeta; xmc; zdec.
Ltac pstepc := cbn [Nat.add]; erewrite run_S; [ | cbn [pc]; lia | cbn [pc]; first [reflexivity | zdec; reflexivity] ];
  cbn [exec]; xmc; u64s; zdec.
Ltac xm := cbv [cond_holds negb andb orb xorb set_pc set push pop store set_flags set_all_flags alu_flags set_lmem set_xmm0 add_log get jump] in *; cbn [regs mem xmm0 zf cf log pc sf ovf lmem reg_eqb] in *.
Ltac xstep := cbn [run]; xm; zdec; unfold step; cbv beta; xm; zdec; cbn [exec retarget]; xm; cbv zeta; xm; zdec.
Ltac pstep := cbn [Nat.add]; erewrite run_S; [ | cbn [pc]; lia | cbn [pc]; first [reflexivity | zdec; reflexivity] ];
  cbn [exec]; xm; u64s; zdec.
Ltac wsetup Hw := cbv [bind emit ret code cmem List.length app le32 le64 map] in Hw;
  cbv zeta in Hw; simpl Z.of_nat in Hw; injection Hw as <-; cbv [code cmem].

Lemma pow_w w : 1 <= w -> 2^w = 2 * 2^(w-1).
Proof. intros. rewrite <- Z.pow_succ_r by lia. f_equal. lia. Qed.

Lemma testbit_top w y : 1 <= w -> 0 <= y < 2^w -> Z.testbit y (w-1) = (2^(w-1) <=? y).
Proof.
  intros Hw Hy. pose proof (pow_w w Hw) as P.
  assert (0 < 2^(w-1)) by (apply Z.pow_pos_nonneg; lia).
  pose proof (Z.testbit_spec' y (w-1) ltac:(lia)) as T.
  assert (0 <= y / 2^(w-1) < 2) by (split; [apply Z.div_pos | apply Z.div_lt_upper_bound]; lia).
  destruct (Z.leb_spec (2^(w-1)) y) as [L|L].
  - assert (D : y / 2^(w-1) = 1).
    { assert (1 <= y / 2^(w-1)) by (apply Z.div_le_lower_bound; lia). lia. }
    destruct (Z.testbit y (w-1)); [reflexivity|]. cbn in T. rewrite D in T. discriminate.
  - assert (D : y / 2^(w-1) = 0) by (apply Z.div_small; lia).
    destruct (Z.testbit y (w-1)); [|reflexivity]. cbn in T. rewrite D in T. discriminate.
Qed.

(** the flags of [cmp] decide the comparisons of the two values *)
Lemma sub_flags w a b : 1 <= w -> 0 <= a < 2^w -> 0 <= b < 2^w ->
  (((a - b) mod 2^w =? 0) = (a =? b)) /\
  xorb (Z.testbit ((a - b) mod 2^w) (w - 1)) (negb (sw w (a - b) =? sw w a - sw w b))
  = (sw w a <? sw w b).
Proof.
  intros Hw Ha Hb. pose proof (pow_w w Hw) as P.
  assert (0 < 2^(w-1)) by (apply Z.pow_pos_nonneg; lia).
  set (h := 2^(w-1)) in *.
  assert (V : (a - b) mod 2^w = if b <=? a then a - b else a - b + 2^w).
  { destruct (Z.leb_spec b a).
    - apply Z.mod_small. lia.
    - rewrite <- (Z.mod_add _ 1) by lia. rewrite Z.mod_small; lia. }
  unfold sw. rewrite V. rewrite (Z.mod_small a), (Z.mod_small b) by lia.
  rewrite testbit_top by (try lia; destruct (Z.leb_spec b a); lia).
  fold h.
  destruct (Z.leb_spec b a); destruct (Z.ltb_spec a h); destruct (Z.ltb_spec b h);
  [destruct (Z.ltb_spec (a - b) h) | destruct (Z.ltb_spec (a - b) h) | destruct (Z.ltb_spec (a - b) h) | destruct (Z.ltb_spec (a - b) h)
  |destruct (Z.ltb_spec (a - b + 2^w) h) | destruct (Z.ltb_spec (a - b + 2^w) h) | destruct (Z.ltb_spec (a - b + 2^w) h) | destruct (Z.ltb_spec (a - b + 2^w) h)];
  split;
  repeat match goal with
  | |- context [?x =? ?y] => destruct (Z.eqb_spec x y)
  | |- context [?x <? ?y] => destruct (Z.ltb_spec x y)
  | |- context [?x <=? ?y] => destruct (Z.leb_spec x y)
  end; cbn; try reflexivity; lia.
Qed.

Lemma relop32_run opcod c env w w' m a b :
  setcc_cond opcod = Some c ->
  emit_i32_relop opcod w = Some (tt, w') -> pc m = code w ->
  0 <= get m RSP -> get m RSP + 16 < 2^64 ->
  mem m (get m RSP) = b -> mem m (get m RSP + 8) = a ->
  returns_top (run 7 env (cmem w') (code w') m) (get m RSP + 8)
    (if cond_holds c (alu_flags BSub 32 (a mod 2^32) (b mod 2^32)
                        (binop_value BSub 32 (a mod 2^32) (b mod 2^32)) m) then 1 else 0).
Proof.
  intros Hc. unfold emit_i32_relop. rewrite Hc.
  destruct w as [cc cm], m as [rg x mm z cf0 p lg sf0 of0 lm]. cbn [code get regs mem pc].
  intros Hw -> H0 H1 Hb Ha.
  cbv [bind emit ret code cmem List.length] in Hw.
  cbv zeta in Hw. simpl Z.of_nat in Hw. injection Hw as <-.
  cbv [code cmem].
  do 6 pstepn; cbn [run pc]; zdec. u64s. rewrite Ha, Hb.
  eexists; split; [reflexivity|]. xmn. split; [lia|]. zdec.
  rewrite Z.lxor_nilpotent, set_low_small by lia.
  destruct c; cbv [cond_holds alu_flags set_all_flags zf cf sf ovf];
    repeat match goal with |- context [if ?b then _ else _] => destruct b end; reflexivity.
Qed.

Lemma sw_inj w a b : 1 <= w -> 0 <= a < 2^w -> 0 <= b < 2^w -> (sw w a =? sw w b) = (a =? b).
Proof.
  intros Hw Ha Hb. pose proof (pow_w w Hw). unfold sw.
  rewrite (Z.mod_small a), (Z.mod_small b) by lia.
  apply Bool.eq_iff_eq_true. rewrite !Z.eqb_eq.
  destruct (Z.ltb_spec a (2^(w-1))), (Z.ltb_spec b (2^(w-1))); split; intros; lia.
Qed.

Lemma cmp_cond_sub c w a b m : 1 <= w -> 0 <= a < 2^w -> 0 <= b < 2^w ->
  cond_holds c (alu_flags BSub w a b (binop_value BSub w a b) m) =
  match c with
  | CE => a =? b | CNE => negb (a =? b)
  | CAE => b <=? a | CB => a <? b | CBE => a <=? b | CA => b <? a
  | CL => sw w a <? sw w b | CGE => sw w b <=? sw w a
  | CLE => sw w a <=? sw w b | CG => sw w b <? sw w a
  end.
Proof.
  intros Hw Ha Hb. destruct (sub_flags w a b Hw Ha Hb) as [Z1 Z2].
  pose proof (sw_inj w a b Hw Ha Hb) as I.
  destruct c; cbv [cond_holds alu_flags set_all_flags zf cf sf ovf binop_value binop_cf binop_of];
    rewrite ?Z1, ?Z2.
  all: destruct (Z.eqb_spec a b), (Z.ltb_spec a b), (Z.leb_spec a b), (Z.ltb_spec b a), (Z.leb_spec b a);
    cbn; try lia; try reflexivity.
  all: destruct (Z.eqb_spec (sw w a) (sw w b)) in I;
       destruct (Z.ltb_spec (sw w a) (sw w b)), (Z.leb_spec (sw w a) (sw w b)),
                (Z.ltb_spec (sw w b) (sw w a)), (Z.leb_spec (sw w b) (sw w a)); cbn in *; try lia; try reflexivity; try discriminate.
Qed.

Lemma relop64_run opcod c env w w' m a b :
  setcc_cond opcod = Some c ->
  emit_i64_relop opcod w = Some (tt, w') -> pc m = code w ->
  0 <= get m RSP -> get m RSP + 16 < 2^64 ->
  mem m (get m RSP) = b -> mem m (get m RSP + 8) = a ->
  returns_top (run 7 env (cmem w') (code w') m) (get m RSP + 8)
    (if cond_holds c (alu_flags BSub 64 (a mod 2^64) (b mod 2^64)
                        (binop_value BSub 64 (a mod 2^64) (b mod 2^64)) m) then 1 else 0).
Proof.
  intros Hc. unfold emit_i64_relop. rewrite Hc.
  destruct w as [cc cm], m as [rg x mm z cf0 p lg sf0 of0 lm]. cbn [code get regs mem pc].
  intros Hw -> H0 H1 Hb Ha.
  cbv [bind emit ret code cmem List.length] in Hw.
  cbv zeta in Hw. simpl Z.of_nat in Hw. injection Hw as <-.
  cbv [code cmem].
  do 6 pstepn; cbn [run pc]; zdec. u64s. rewrite Ha, Hb.
  eexists; split; [reflexivity|]. xmn. split; [lia|]. zdec.
  rewrite Z.lxor_nilpotent, set_low_small by lia.
  destruct c; cbv [cond_holds alu_flags set_all_flags zf cf sf ovf];
    repeat match goal with |- context [if ?b then _ else _] => destruct b end; reflexivity.
Qed.

(** X1: the code emitted for each i32 comparison (eq, ne, lt_s, lt_u, gt_s, gt_u, le_s, le_u, ge_s, ge_u) pops the right operand b and the left operand a and leaves 1 or 0 in the slot of a, as Wasm's comparison of the low 32 bits of a and b. *)
Theorem i32_relop_result op env w w' m a b :
  i32_relop_emitter op w = Some (tt, w') -> pc m = code w ->
  0 <= get m RSP -> get m RSP + 16 < 2^64 ->
  mem m (get m RSP) = b -> mem m (get m RSP + 8) = a ->
  returns_top (run 7 env (cmem w') (code w') m) (get m RSP + 8)
    (if wasm_irelop 32 op a b then 1 else 0).
Proof.
  intros Hw Hp H0 H1 Hb Ha.
  pose proof (fun opcod c Hw Hc => relop32_run opcod c env w w' m a b Hc Hw Hp H0 H1 Hb Ha) as R.
  pose proof (Z.mod_pos_bound a (2^32) ltac:(lia)). pose proof (Z.mod_pos_bound b (2^32) ltac:(lia)).
  destruct op; cbv [i32_relop_emitter emit_i32_eq emit_i32_ne emit_i32_lt_s emit_i32_lt_u emit_i32_gt_s
    emit_i32_gt_u emit_i32_le_s emit_i32_le_u emit_i32_ge_s emit_i32_ge_u] in Hw;
    specialize (R _ _ Hw eq_refl); rewrite cmp_cond_sub in R by lia; exact R.
Qed.

(** X2: the code emitted for each i64 comparison pops b and a and leaves 1 or 0 in the slot of a, as Wasm's comparison of a and b as 64-bit integers. *)
Theorem i64_relop_result op env w w' m a b :
  i64_relop_emitter op w = Some (tt, w') -> pc m = code w ->
  0 <= get m RSP -> get m RSP + 16 < 2^64 ->
  mem m (get m RSP) = b -> mem m (get m RSP + 8) = a ->
  returns_top (run 7 env (cmem w') (code w') m) (get m RSP + 8)
    (if wasm_irelop 64 op a b then 1 else 0).
Proof.
  intros Hw Hp H0 H1 Hb Ha.
  pose proof (fun opcod c Hw Hc => relop64_run opcod c env w w' m a b Hc Hw Hp H0 H1 Hb Ha) as R.
  pose proof (Z.mod_pos_bound a (2^64) ltac:(lia)). pose proof (Z.mod_pos_bound b (2^64) ltac:(lia)).
  destruct op; cbv [i64_relop_emitter emit_i64_eq emit_i64_ne emit_i64_lt_s emit_i64_lt_u emit_i64_gt_s
    emit_i64_gt_u emit_i64_le_s emit_i64_le_u emit_i64_ge_s emit_i64_ge_u] in Hw;
    specialize (R _ _ Hw eq_refl); rewrite cmp_cond_sub in R by lia; exact R.
Qed.

Lemma i32_binop_run op env w w' m a b :
  i32_binop_emitter op w = Some (tt, w') -> pc m = code w ->
  0 <= get m RSP -> get m RSP + 16 < 2^64 ->
  mem m (get m RSP) = b -> mem m (get m RSP + 8) = a ->
  returns_top (run 5 env (cmem w') (code w') m) (get m RSP + 8)
    (match op with
     | BinAdd => binop_value BAdd 32 (a mod 2^32) (b mod 2^32)
     | BinSub => binop_value BSub 32 (a mod 2^32) (b mod 2^32)
     | BinMul => binop_value BImul 32 (a mod 2^32) (b mod 2^32)
     | BinAnd => binop_value BAnd 32 (a mod 2^32) (b mod 2^32)
     | BinOr => binop_value BOr 32 (a mod 2^32) (b mod 2^32)
     | BinXor => binop_value BXor 32 (a mod 2^32) (b mod 2^32)
     | BinShl => shift_value SShl 32 (a mod 2^32) (b mod 32)
     | BinShrS => shift_value SSar 32 (a mod 2^32) (b mod 32)
     | BinShrU => shift_value SShr 32 (a mod 2^32) (b mod 32)
     | BinRotl => shift_value SRol 32 (a mod 2^32) (b mod 32)
     | BinRotr => shift_value SRor 32 (a mod 2^32) (b mod 32)
     end).
Proof.
  destruct w as [cc cm], m as [rg x mm z cf0 p lg sf0 of0 lm]. cbn [code get regs mem pc].
  intros Hw -> H0 H1 Hb Ha.
  destruct op; cbv [i32_binop_emitter emit_i32_add emit_i32_sub emit_i32_mul emit_i32_and emit_i32_or
    emit_i32_xor emit_i32_shl emit_i32_shr_s emit_i32_shr_u emit_i32_rotl emit_i32_rotr
    emit_i32_binop emit_all bind emit ret code cmem List.length] in Hw;
  cbv zeta in Hw; simpl Z.of_nat in Hw; injection Hw as <-; cbv [code cmem];
  do 4 pstepn; cbn [run pc]; zdec; u64s; rewrite ?Ha, ?Hb;
  (eexists; split; [reflexivity|]; xmn; split; [lia|]; zdec; rewrite ?Ha, ?Hb; reflexivity).
Qed.

Lemma lor_add_disjoint x y j : 0 <= j -> 0 <= y < 2^j -> Z.lor (x * 2^j) y = x * 2^j + y.
Proof.
  intros Hj Hy. apply Z.bits_inj'. intros n Hn. rewrite Z.lor_spec.
  assert (Ey : y mod 2^j = y) by (apply Z.mod_small; lia).
  destruct (Z.ltb_spec n j).
  - rewrite Z.mul_pow2_bits_low by lia. cbn [orb].
    rewrite <- (Z.mod_pow2_bits_low (x * 2^j + y) j n) by lia.
    rewrite Z.add_comm, Z.mod_add by (apply Z.pow_nonzero; lia). rewrite Ey. reflexivity.
  - rewrite <- Ey at 1. rewrite Z.mod_pow2_bits_high by lia. rewrite Bool.orb_false_r.
    rewrite Z.mul_pow2_bits by lia.
    replace (Z.testbit (x * 2^j + y) n) with (Z.testbit ((x * 2^j + y) / 2^j) (n - j))
      by (rewrite Z.div_pow2_bits by lia; f_equal; lia).
    rewrite Z.div_add_l by (apply Z.pow_nonzero; lia). rewrite (Z.div_small y) by lia.
    rewrite Z.add_0_r. reflexivity.
Qed.

Lemma pow_split w k : 0 <= k <= w -> 2^w = 2^(w - k) * 2^k.
Proof. intros. rewrite <- Z.pow_add_r by lia. f_equal. lia. Qed.

Lemma rotl_add w a k : 0 <= k < w -> 0 <= a < 2^w ->
  Z.lor ((a * 2^k) mod 2^w) (a / 2^(w - k)) = (a * 2^k) mod 2^w + a / 2^(w - k).
Proof.
  intros Hk Ha. pose proof (pow_split w k ltac:(lia)) as P.
  assert (0 < 2^k) by (apply Z.pow_pos_nonneg; lia).
  assert (0 < 2^(w-k)) by (apply Z.pow_pos_nonneg; lia).
  rewrite P, Z.mul_mod_distr_r by lia. apply lor_add_disjoint; [lia|].
  split; [apply Z.div_pos; lia|]. apply Z.div_lt_upper_bound; lia.
Qed.

Lemma rotr_add w a k : 0 <= k < w -> 0 <= a < 2^w ->
  Z.lor (a / 2^k) ((a * 2^(w - k)) mod 2^w) = a / 2^k + (a * 2^(w - k)) mod 2^w.
Proof.
  intros Hk Ha. pose proof (pow_split w (w - k) ltac:(lia)) as P.
  replace (w - (w - k)) with k in P by lia.
  assert (0 < 2^k) by (apply Z.pow_pos_nonneg; lia).
  assert (0 < 2^(w-k)) by (apply Z.pow_pos_nonneg; lia).
  rewrite P, Z.mul_mod_distr_r by lia. rewrite Z.lor_comm, lor_add_disjoint; [lia|lia|].
  split; [apply Z.div_pos; lia|]. apply Z.div_lt_upper_bound; lia.
Qed.

(** X3: the code emitted for i32 add, sub, mul, and, or, xor, shl, shr_s, shr_u, rotl and rotr pops b and a and leaves Wasm's result on the low 32 bits in the slot of a (shift and rotate counts taken mod 32). *)
Theorem i32_binop_result op env w w' m a b :
  i32_binop_emitter op w = Some (tt, w') -> pc m = code w ->
  0 <= get m RSP -> get m RSP + 16 < 2^64 ->
  mem m (get m RSP) = b -> mem m (get m RSP + 8) = a ->
  returns_top (run 5 env (cmem w') (code w') m) (get m RSP + 8) (wasm_ibinop 32 op a b).
Proof.
  intros Hw Hp H0 H1 Hb Ha.
  pose proof (i32_binop_run op env w w' m a b Hw Hp H0 H1 Hb Ha) as R.
  pose proof (Z.mod_pos_bound a (2^32) ltac:(lia)).
  assert (K : b mod 32 = (b mod 2^32) mod 32)
    by (symmetry; apply Z.mod_mod_divide; exists (2^27); reflexivity).
  pose proof (Z.mod_pos_bound b 32 ltac:(lia)).
  destruct op; cbv [wasm_ibinop]; cbv zeta; rewrite <- ?K; try exact R;
    cbv [shift_value] in R; [rewrite rotl_add in R | rewrite rotr_add in R]; try lia; exact R.
Qed.

Lemma i64_binop_run op env w w' m a b :
  i64_binop_emitter op w = Some (tt, w') -> pc m = code w ->
  0 <= get m RSP -> get m RSP + 16 < 2^64 ->
  mem m (get m RSP) = b -> mem m (get m RSP + 8) = a ->
  returns_top (run 5 env (cmem w') (code w') m) (get m RSP + 8)
    (match op with
     | BinAdd => binop_value BAdd 64 (a mod 2^64) (b mod 2^64)
     | BinSub => binop_value BSub 64 (a mod 2^64) (b mod 2^64)
     | BinMul => binop_value BImul 64 (a mod 2^64) (b mod 2^64)
     | BinAnd => binop_value BAnd 64 (a mod 2^64) (b mod 2^64)
     | BinOr => binop_value BOr 64 (a mod 2^64) (b mod 2^64)
     | BinXor => binop_value BXor 64 (a mod 2^64) (b mod 2^64)
     | BinShl => shift_value SShl 64 (a mod 2^64) (b mod 64)
     | BinShrS => shift_value SSar 64 (a mod 2^64) (b mod 64)
     | BinShrU => shift_value SShr 64 (a mod 2^64) (b mod 64)
     | BinRotl => shift_value SRol 64 (a mod 2^64) (b mod 64)
     | BinRotr => shift_value SRor 64 (a mod 2^64) (b mod 64)
     end).
Proof.
  destruct w as [cc cm], m as [rg x mm z cf0 p lg sf0 of0 lm]. cbn [code get regs mem pc].
  intros Hw -> H0 H1 Hb Ha.
  destruct op; cbv [i64_binop_emitter emit_i64_add emit_i64_sub emit_i64_mul emit_i64_and emit_i64_or
    emit_i64_xor emit_i64_shl emit_i64_shr_s emit_i64_shr_u emit_i64_rotl emit_i64_rotr
    emit_i64_binop emit_all bind emit ret code cmem List.length] in Hw;
  cbv zeta in Hw; simpl Z.of_nat in Hw; injection Hw as <-; cbv [code cmem];
  do 4 pstepn; cbn [run pc]; zdec; u64s; rewrite ?Ha, ?Hb;
  (eexists; split; [reflexivity|]; xmn; split; [lia|]; zdec; rewrite ?Ha, ?Hb; reflexivity).
Qed.

(** X4: the code emitted for the i64 versions of the same eleven operators pops b and a and leaves Wasm's 64-bit result in the slot of a (counts taken mod 64). *)
Theorem i64_binop_result op env w w' m a b :
  i64_binop_emitter op w = Some (tt, w') -> pc m = code w ->
  0 <= get m RSP -> get m RSP + 16 < 2^64 ->
  mem m (get m RSP) = b -> mem m (get m RSP + 8) = a ->
  returns_top (run 5 env (cmem w') (code w') m) (get m RSP + 8) (wasm_ibinop 64 op a b).
Proof.
  intros Hw Hp H0 H1 Hb Ha.
  pose proof (i64_binop_run op env w w' m a b Hw Hp H0 H1 Hb Ha) as R.
  pose proof (Z.mod_pos_bound a (2^64) ltac:(lia)).
  assert (K : b mod 64 = (b mod 2^64) mod 64)
    by (symmetry; apply Z.mod_mod_divide; exists (2^58); reflexivity).
  pose proof (Z.mod_pos_bound b 64 ltac:(lia)).
  destruct op; cbv [wasm_ibinop]; cbv zeta; rewrite <- ?K; try exact R;
    cbv [shift_value] in R; [rewrite rotl_add in R | rewrite rotr_add in R]; try lia; exact R.
Qed.

Lemma divu_bound n a d : 0 < n -> 0 <= a < 2^n -> 0 < d -> (2^n <=? (0 * 2^n + a) / d) = false.
Proof.
  intros Hn Ha Hd. apply Z.leb_gt. rewrite Z.mul_0_l, Z.add_0_l.
  pose proof (Z.div_le_upper_bound a d a Hd ltac:(nia)). lia.
Qed.

Ltac divu_tac Hw Ha Hb a :=
  cbv [emit_i32_div_u emit_i32_rem_u emit_i64_div_u emit_i64_rem_u
       emit_i32_binop emit_i64_binop emit_all bind emit ret code cmem List.length] in Hw;
  cbv zeta in Hw; simpl Z.of_nat in Hw; injection Hw as <-; cbv [code cmem];
  do 4 pstepn; u64s; rewrite ?Ha, ?Hb; rewrite Z.lxor_nilpotent, ?Z.mod_0_l by lia;
  match goal with |- context [?x mod 2^?n =? 0] =>
    destruct (Z.eqb_spec (x mod 2^n) 0) as [E|E]; [reflexivity|];
    pose proof (Z.mod_pos_bound x (2^n) ltac:(lia)); pose proof (Z.mod_pos_bound a (2^n) ltac:(lia));
    rewrite divu_bound by lia
  end;
  do 2 xstepn; u64s; eexists; split; [reflexivity|]; xmn; split; [lia|]; zdec;
  rewrite Z.mul_0_l, Z.add_0_l; reflexivity.

(** X5: i32/i64 div_u and rem_u fault with a divide error when the divisor is zero on the operand width, and otherwise leave the unsigned quotient or remainder in the slot of the dividend. *)
Theorem unsigned_div_rem_result env w m a b :
  pc m = code w -> 0 <= get m RSP -> get m RSP + 16 < 2^64 ->
  mem m (get m RSP) = b -> mem m (get m RSP + 8) = a ->
  (forall w', emit_i32_div_u w = Some (tt, w') ->
     if b mod 2^32 =? 0 then run 6 env (cmem w') (code w') m = OFault DivideError
     else returns_top (run 6 env (cmem w') (code w') m) (get m RSP + 8) (a mod 2^32 / (b mod 2^32))) /\
  (forall w', emit_i32_rem_u w = Some (tt, w') ->
     if b mod 2^32 =? 0 then run 6 env (cmem w') (code w') m = OFault DivideError
     else returns_top (run 6 env (cmem w') (code w') m) (get m RSP + 8) (a mod 2^32 mod (b mod 2^32))) /\
  (forall w', emit_i64_div_u w = Some (tt, w') ->
     if b mod 2^64 =? 0 then run 6 env (cmem w') (code w') m = OFault DivideError
     else returns_top (run 6 env (cmem w') (code w') m) (get m RSP + 8) (a mod 2^64 / (b mod 2^64))) /\
  (forall w', emit_i64_rem_u w = Some (tt, w') ->
     if b mod 2^64 =? 0 then run 6 env (cmem w') (code w') m = OFault DivideError
     else returns_top (run 6 env (cmem w') (code w') m) (get m RSP + 8) (a mod 2^64 mod (b mod 2^64))).
Proof.
  destruct w as [cc cm], m as [rg x mm z cf0 p lg sf0 of0 lm]. cbn [code get regs mem pc].
  intros -> H0 H1 Hb Ha.
  repeat split; intros w' Hw; divu_tac Hw Ha Hb a.
Qed.

(** X6: i32.eqz and i64.eqz replace the top of the stack by 1 if its low 32 (resp. 64) bits are zero and by 0 otherwise. *)
Theorem eqz_result env w m a :
  pc m = code w -> 0 <= get m RSP -> get m RSP + 8 < 2^64 -> mem m (get m RSP) = a ->
  (forall w', emit_i32_eqz w = Some (tt, w') ->
     returns_top (run 6 env (cmem w') (code w') m) (get m RSP) (if a mod 2^32 =? 0 then 1 else 0)) /\
  (forall w', emit_i64_eqz w = Some (tt, w') ->
     returns_top (run 6 env (cmem w') (code w') m) (get m RSP) (if a mod 2^64 =? 0 then 1 else 0)).
Proof.
  destruct w as [cc cm], m as [rg x mm z cf0 p lg sf0 of0 lm]. cbn [code get regs mem pc].
  intros -> H0 H1 Ha.
  split; intros w' Hw; cbv [emit_i32_eqz emit_i64_eqz bind emit ret code cmem List.length] in Hw;
  cbv zeta in Hw; simpl Z.of_nat in Hw; injection Hw as <-; cbv [code cmem];
  do 5 pstepn; cbn [run pc]; zdec; u64s; rewrite ?Ha;
  (eexists; split; [reflexivity|]; xmn; split; [lia|]; zdec;
   rewrite Z.lxor_nilpotent, set_low_small by lia; destruct (_ =? 0); reflexivity).
Qed.

Lemma neg_sub_mod M L k : 0 < M -> 0 <= k - L < M -> (- ((L - k) mod M)) mod M = k - L.
Proof.
  intros HM H. rewrite (Z.mod_eq (L - k) M) by lia.
  replace (- (L - k - M * ((L - k) / M))) with ((k - L) + ((L - k) / M) * M) by ring.
  rewrite Z.mod_add by lia. apply Z.mod_small. lia.
Qed.

Lemma i32_clz_run_bsr env w w' m a :
  emit_i32_clz false w = Some (tt, w') ->
  pc m = code w -> 0 <= get m RSP -> get m RSP + 8 < 2^64 -> mem m (get m RSP) = a ->
  returns_top (run 8 env (cmem w') (code w') m) (get m RSP)
    (if a mod 2^32 =? 0 then 32 else 31 - Z.log2 (a mod 2^32)).
Proof.
  destruct w as [cc cm], m as [rg x mm z cf0 p lg sf0 of0 lm]. cbn [code get regs mem pc].
  intros Hw -> H0 H1 Ha.
  cbv [emit_i32_clz negb bind emit ret code cmem List.length] in Hw;
  cbv zeta in Hw; simpl Z.of_nat in Hw; injection Hw as <-; cbv [code cmem].
  do 2 pstepc. u64s. rewrite Ha.
  pose proof (Z.mod_pos_bound a (2^32) ltac:(lia)).
  destruct (Z.eqb_spec (a mod 2^32) 0) as [E|E].
  - do 5 pstepc; cbn [run pc]; zdec. u64s. eexists; split; [reflexivity|]. xmc. split; [lia|]. zdec. reflexivity.
  - assert (L : 0 <= Z.log2 (a mod 2^32) < 32).
    { split; [apply Z.log2_nonneg|]. apply Z.log2_lt_pow2; lia. }
    do 5 pstepc; cbn [run pc]; zdec. u64s. eexists; split; [reflexivity|]. xmc. split; [lia|]. zdec.
    rewrite (Z.mod_small (Z.log2 _)) by lia.
    cbv [binop_value]. rewrite !(Z.mod_small (Z.log2 _) (2^_)), Z.mod_mod by lia. apply neg_sub_mod; lia.
Qed.

Lemma count_lz_zero n : count_lz n 0 = Z.of_nat n.
Proof. induction n as [|n IH]; [reflexivity|]. cbn [count_lz]. rewrite Z.testbit_0_l, IH. lia. Qed.

Lemma count_tz_zero n : count_tz n 0 = Z.of_nat n.
Proof. induction n as [|n IH]; [reflexivity|]. cbn [count_tz Z.odd Z.div2]. rewrite IH. lia. Qed.

Lemma count_lz_log2 n a : 0 < a < 2^Z.of_nat n -> count_lz n a = Z.of_nat n - 1 - Z.log2 a.
Proof.
  revert a. induction n as [|n IH]; intros a Ha; [cbn in Ha; lia|].
  cbn [count_lz]. rewrite Nat2Z.inj_succ in Ha |- *.
  destruct (Z.ltb_spec a (2^Z.of_nat n)) as [L|L].
  - replace (Z.testbit a (Z.of_nat n)) with false.
    + rewrite IH by lia. lia.
    + symmetry. apply Z.bits_above_log2; [lia|]. apply Z.log2_lt_pow2; lia.
  - assert (Z.log2 a = Z.of_nat n).
    { apply Z.log2_unique; [lia|]. rewrite Z.pow_succ_r in Ha |- * by lia. lia. }
    rewrite <- H, Z.bit_log2 by lia. lia.
Qed.

Lemma clz_if n a : 0 <= a < 2^Z.of_nat n ->
  count_lz n a = if a =? 0 then Z.of_nat n else Z.of_nat n - 1 - Z.log2 a.
Proof.
  intros Ha. destruct (Z.eqb_spec a 0) as [->|E]; [apply count_lz_zero|]. apply count_lz_log2. lia.
Qed.

Lemma ctz_if n a : count_tz n a = if a =? 0 then Z.of_nat n else count_tz n a.
Proof. destruct (Z.eqb_spec a 0) as [->|E]; [apply count_tz_zero|reflexivity]. Qed.

Lemma i64_clz_run_bsr env w w' m a :
  emit_i64_clz false w = Some (tt, w') ->
  pc m = code w -> 0 <= get m RSP -> get m RSP + 8 < 2^64 -> mem m (get m RSP) = a ->
  returns_top (run 8 env (cmem w') (code w') m) (get m RSP)
    (if a mod 2^64 =? 0 then 64 else 63 - Z.log2 (a mod 2^64)).
Proof.
  destruct w as [cc cm], m as [rg x mm z cf0 p lg sf0 of0 lm]. cbn [code get regs mem pc].
  intros Hw -> H0 H1 Ha.
  cbv [emit_i64_clz negb bind emit ret code cmem List.length] in Hw;
  cbv zeta in Hw; simpl Z.of_nat in Hw; injection Hw as <-; cbv [code cmem].
  do 2 pstepc. u64s. rewrite Ha.
  pose proof (Z.mod_pos_bound a (2^64) ltac:(lia)).
  destruct (Z.eqb_spec (a mod 2^64) 0) as [E|E].
  - do 5 pstepc; cbn [run pc]; zdec. u64s. eexists; split; [reflexivity|]. xmc. split; [lia|]. zdec. reflexivity.
  - assert (L : 0 <= Z.log2 (a mod 2^64) < 64).
    { split; [apply Z.log2_nonneg|]. apply Z.log2_lt_pow2; lia. }
    do 5 pstepc; cbn [run pc]; zdec. u64s. eexists; split; [reflexivity|]. xmc. split; [lia|]. zdec.
    cbv [binop_value]. rewrite !(Z.mod_small (Z.log2 _) (2^_)), Z.mod_mod by lia. apply neg_sub_mod; lia.
Qed.

(** X7: i32.clz and i64.clz, with lzcnt or with the bsr/cmov sequence, replace the top of the stack by the number of leading zero bits of its operand width, 32 or 64 for a zero operand. *)
Theorem clz_result has_tzcnt env w m a :
  pc m = code w -> 0 <= get m RSP -> get m RSP + 8 < 2^64 -> mem m (get m RSP) = a ->
  (forall w', emit_i32_clz has_tzcnt w = Some (tt, w') ->
     returns_top (run 8 env (cmem w') (code w') m) (get m RSP)
       (if a mod 2^32 =? 0 then 32 else 31 - Z.log2 (a mod 2^32))) /\
  (forall w', emit_i64_clz has_tzcnt w = Some (tt, w') ->
     returns_top (run 8 env (cmem w') (code w') m) (get m RSP)
       (if a mod 2^64 =? 0 then 64 else 63 - Z.log2 (a mod 2^64))).
Proof.
  intros Hp H0 H1 Ha. destruct has_tzcnt.
  - destruct w as [cc cm], m as [rg x mm z cf0 p lg sf0 of0 lm]. cbn [code get regs mem pc] in *.
    subst p.
    split; intros w' Hw; cbv [emit_i32_clz emit_i64_clz negb bind emit ret code cmem List.length] in Hw;
    cbv zeta in Hw; simpl Z.of_nat in Hw; injection Hw as <-; cbv [code cmem];
    do 3 pstepc; cbn [run pc]; zdec; u64s; rewrite ?Ha;
    (eexists; split; [reflexivity|]; xmc; split; [lia|]; zdec;
     rewrite clz_if by (apply Z.mod_pos_bound; lia); reflexivity).
  - split; intros w' Hw; [apply (i32_clz_run_bsr env w w' m a) | apply (i64_clz_run_bsr env w w' m a)]; assumption.
Qed.

Lemma count_tz_range n a : 0 <= count_tz n a <= Z.of_nat n.
Proof.
  revert a. induction n as [|n IH]; intros a; [cbn; lia|]. cbn [count_tz].
  specialize (IH (Z.div2 a)). destruct (Z.odd a); lia.
Qed.

(** X8: i32.ctz and i64.ctz, with tzcnt or with the bsf/cmov sequence, replace the top of the stack by the number of trailing zero bits, 32 or 64 for a zero operand. *)
Theorem ctz_result has_tzcnt env w m a :
  pc m = code w -> 0 <= get m RSP -> get m RSP + 8 < 2^64 -> mem m (get m RSP) = a ->
  (forall w', emit_i32_ctz has_tzcnt w = Some (tt, w') ->
     returns_top (run 6 env (cmem w') (code w') m) (get m RSP)
       (if a mod 2^32 =? 0 then 32 else count_tz 32 (a mod 2^32))) /\
  (forall w', emit_i64_ctz has_tzcnt w = Some (tt, w') ->
     returns_top (run 6 env (cmem w') (code w') m) (get m RSP)
       (if a mod 2^64 =? 0 then 64 else count_tz 64 (a mod 2^64))).
Proof.
  destruct w as [cc cm], m as [rg x mm z cf0 p lg sf0 of0 lm]. cbn [code get regs mem pc].
  intros -> H0 H1 Ha.
  destruct has_tzcnt.
  - split; intros w' Hw; cbv [emit_i32_ctz emit_i64_ctz negb bind emit ret code cmem List.length] in Hw;
    cbv zeta in Hw; simpl Z.of_nat in Hw; injection Hw as <-; cbv [code cmem];
    do 3 pstepc; cbn [run pc]; zdec; u64s; rewrite ?Ha;
    (eexists; split; [reflexivity|]; xmc; split; [lia|]; zdec; apply ctz_if).
  - split; intros w' Hw; cbv [emit_i32_ctz emit_i64_ctz negb bind emit ret code cmem List.length] in Hw;
    cbv zeta in Hw; simpl Z.of_nat in Hw; injection Hw as <-; cbv [code cmem];
    do 3 pstepc; u64s; rewrite ?Ha;
    (match goal with |- context [(a mod 2^?n =? 0)] =>
       destruct (Z.eqb_spec (a mod 2^n) 0) as [E|E] end;
     do 2 xstepc; u64s; eexists; split; try reflexivity; xmc; split; try lia; zdec;
     first [reflexivity | apply Z.mod_small;
     match goal with |- context [count_tz ?n ?v] => pose proof (count_tz_range n v) end;
     cbn [Z.of_nat Pos.of_succ_nat Pos.succ] in *; lia]).
Qed.

(** X9: select pops the condition c and the values v2 and v1 and leaves v1 if the low 32 bits of c are nonzero, v2 otherwise, in the slot of v1. *)
Theorem select_result env w w' m c v2 v1 :
  emit_select w = Some (tt, w') -> pc m = code w ->
  0 <= get m RSP -> get m RSP + 24 < 2^64 ->
  mem m (get m RSP) = c -> mem m (get m RSP + 8) = v2 -> mem m (get m RSP + 16) = v1 ->
  returns_top (run 6 env (cmem w') (code w') m) (get m RSP + 16)
    (if c mod 2^32 =? 0 then v2 else v1).
Proof.
  destruct w as [cc cm], m as [rg x mm z cf0 p lg sf0 of0 lm]. cbn [code get regs mem pc].
  intros Hw -> H0 H1 Hc H2 H3. cbv [emit_select] in Hw. wsetup Hw.
  do 3 xstep. u64s. rewrite Hc.
  destruct (Z.eqb_spec (c mod 2^32) 0) as [E|E];
  do 2 xstep; u64s; (eexists; split; [reflexivity|]; xm; split; [lia|]; zdec; first [congruence | rewrite <- H3; f_equal; lia]).
Qed.

(** X10: i32.wrap_i64 keeps the low 32 bits of the top of the stack; i64.extend_s_i32 sign-extends its low 32 bits to 64 bits. *)
Theorem int_conversions_result env w m a :
  pc m = code w -> 0 <= get m RSP -> get m RSP + 8 < 2^64 -> mem m (get m RSP) = a ->
  (forall w', emit_i32_wrap_i64 w = Some (tt, w') ->
     returns_top (run 3 env (cmem w') (code w') m) (get m RSP) (a mod 2^32)) /\
  (forall w', emit_i64_extend_s_i32 w = Some (tt, w') ->
     returns_top (run 3 env (cmem w') (code w') m) (get m RSP)
       (if a mod 2^32 <? 2^31 then a mod 2^32 else a mod 2^32 + (2^64 - 2^32))).
Proof.
  destruct w as [cc cm], m as [rg x mm z cf0 p lg sf0 of0 lm]. cbn [code get regs mem pc].
  intros -> H0 H1 Ha. pose proof (Z.mod_pos_bound a (2^32) ltac:(lia)).
  split; intros w' Hw.
  - cbv [emit_i32_wrap_i64] in Hw. wsetup Hw. do 2 xstep.
    eexists; split; [reflexivity|]. xm. split; [lia|]. zdec.
    rewrite Z.lxor_nilpotent, Ha. cbv [u32]. rewrite Z.mod_0_l by lia. lia.
  - cbv [emit_i64_extend_s_i32] in Hw. wsetup Hw. do 2 xstep.
    eexists; split; [reflexivity|]. xm. split; [lia|]. zdec.
    rewrite Ha. cbv [s32 u32 u64]. destruct (Z.ltb_spec (a mod 2^32) (2^31)).
    + apply Z.mod_small; lia.
    + rewrite <- (Z.mod_add _ 1) by lia. rewrite Z.mod_small; lia.
Qed.

Lemma land_pow2 x n : 0 <= n -> Z.land x (2^n) = if Z.testbit x n then 2^n else 0.
Proof.
  intros Hn. apply Z.bits_inj'. intros i Hi. rewrite Z.land_spec.
  destruct (Z.testbit x n) eqn:T; rewrite ?Z.pow2_bits_eqb, ?Z.testbit_0_l by lia;
    destruct (Z.eqb_spec n i); subst; rewrite ?T, ?andb_true_r, ?andb_false_r; reflexivity.
Qed.

Lemma sign_bit_split n x : 0 <= n -> 0 <= x < 2^(n+1) ->
  x = (if Z.testbit x n then 2^n else 0) + x mod 2^n.
Proof.
  intros Hn Hx. rewrite Z.pow_add_r in Hx by lia.
  replace (Z.testbit x n) with (2^n <=? x).
  - assert (0 < 2^n) by (apply Z.pow_pos_nonneg; lia).
    destruct (Z.leb_spec (2^n) x).
    + rewrite <- (Z.mod_add _ (-1)) by lia. rewrite Z.mod_small by lia. lia.
    + rewrite Z.mod_small by lia. lia.
  - symmetry. pose proof (testbit_top (n + 1) x ltac:(lia)) as T.
    replace (n + 1 - 1) with n in T by lia. apply T. rewrite Z.pow_add_r by lia. lia.
Qed.

Lemma flip_sign n x : 0 <= n -> 0 <= x < 2^(n+1) ->
  Z.lxor x (2^n) = x mod 2^n + (if Z.testbit x n then 0 else 2^n).
Proof.
  intros Hn Hx. assert (0 < 2^n) by (apply Z.pow_pos_nonneg; lia).
  pose proof (Z.mod_pos_bound x (2^n) ltac:(lia)).
  assert (Tl : Z.testbit (x mod 2^n) n = false) by (apply Z.mod_pow2_bits_high; lia).
  assert (N : Z.land (x mod 2^n) (2^n) = 0) by (rewrite land_pow2, Tl by lia; reflexivity).
  rewrite (sign_bit_split n x) at 1 by lia. destruct (Z.testbit x n).
  - rewrite Z.add_comm, Z.add_nocarry_lxor by exact N.
    rewrite Z.lxor_assoc, Z.lxor_nilpotent, Z.lxor_0_r. lia.
  - rewrite Z.add_0_l, <- Z.add_nocarry_lxor by exact N. lia.
Qed.

Lemma put_sign n (s : bool) x : 0 <= n -> 0 <= x < 2^n ->
  Z.lor (if s then 2^n else 0) x = (if s then 2^n else 0) + x.
Proof.
  intros Hn Hx. destruct s.
  - rewrite <- (Z.mul_1_l (2^n)). apply lor_add_disjoint; lia.
  - rewrite Z.lor_0_l. lia.
Qed.

(** X11: f32/f64 abs clear the sign bit, neg flips it and copysign combines the magnitude of the first operand with the sign of the second, on the bit patterns. *)
Theorem float_sign_ops_result env w m a b :
  pc m = code w -> 0 <= get m RSP -> get m RSP + 16 < 2^64 ->
  mem m (get m RSP) = b -> mem m (get m RSP + 8) = a ->
  (forall w', emit_f32_abs w = Some (tt, w') ->
     returns_top (run 4 env (cmem w') (code w') m) (get m RSP) (b mod 2^31)) /\
  (forall w', emit_f32_neg w = Some (tt, w') ->
     returns_top (run 4 env (cmem w') (code w') m) (get m RSP)
       (b mod 2^31 + (if fsign F32 b then 0 else 2^31))) /\
  (forall w', emit_f32_copysign w = Some (tt, w') ->
     returns_top (run 7 env (cmem w') (code w') m) (get m RSP + 8)
       ((if fsign F32 b then 2^31 else 0) + a mod 2^31)) /\
  (forall w', emit_f64_abs w = Some (tt, w') ->
     returns_top (run 5 env (cmem w') (code w') m) (get m RSP) (b mod 2^63)) /\
  (forall w', emit_f64_neg w = Some (tt, w') ->
     returns_top (run 5 env (cmem w') (code w') m) (get m RSP)
       (b mod 2^63 + (if fsign F64 b then 0 else 2^63))) /\
  (forall w', emit_f64_copysign w = Some (tt, w') ->
     returns_top (run 9 env (cmem w') (code w') m) (get m RSP + 8)
       ((if fsign F64 b then 2^63 else 0) + a mod 2^63)).
Proof.
  destruct w as [cc cm], m as [rg x mm z cf0 p lg sf0 of0 lm]. cbn [code get regs mem pc].
  intros -> H0 H1 Hb Ha.
  pose proof (Z.mod_pos_bound a (2^32) ltac:(lia)). pose proof (Z.mod_pos_bound b (2^32) ltac:(lia)).
  pose proof (Z.mod_pos_bound a (2^64) ltac:(lia)). pose proof (Z.mod_pos_bound b (2^64) ltac:(lia)).
  repeat split; intros w' Hw.
  - cbv [emit_f32_abs] in Hw. wsetup Hw. do 3 pstep. cbn [run pc]. zdec. u64s. rewrite Hb.
    eexists; split; [reflexivity|]. xm. split; [lia|]. zdec.
    cbv [binop_value]. change 2147483647 with (Z.ones 31). rewrite Z.land_ones by lia.
    apply Z.mod_mod_divide. exists 2; reflexivity.
  - cbv [emit_f32_neg] in Hw. wsetup Hw. do 3 pstep. cbn [run pc]. zdec. u64s. rewrite Hb.
    eexists; split; [reflexivity|]. xm. split; [lia|]. zdec.
    cbv [binop_value fsign fbits]. change 2147483648 with (2^31). rewrite flip_sign by lia.
    rewrite Z.mod_mod_divide by (exists 2; reflexivity). reflexivity.
  - cbv [emit_f32_copysign] in Hw. wsetup Hw. do 6 pstep. cbn [run pc]. zdec. u64s. rewrite Ha, Hb.
    eexists; split; [reflexivity|]. xm. split; [lia|]. zdec.
    pose proof (Z.mod_pos_bound a (2^31) ltac:(lia)).
    cbv [binop_value fsign fbits]. change 2147483648 with (2^31). change 2147483647 with (Z.ones 31).
    rewrite land_pow2, Z.land_ones by lia. rewrite (Z.mod_mod_divide a) by (exists 2; reflexivity).
    rewrite (Z.mod_small (a mod 2^31)) by lia.
    rewrite (Z.mod_small (if Z.testbit (b mod 2^32) (32 - 1) then 2^31 else 0)) by (destruct (Z.testbit _ _); lia).
    apply put_sign; lia.
  - cbv [emit_f64_abs] in Hw. wsetup Hw. do 4 pstep. cbn [run pc]. zdec. u64s. rewrite Hb.
    eexists; split; [reflexivity|]. xm. split; [lia|]. zdec.
    cbv [binop_value]. change 9223372036854775807 with (Z.ones 63).
    rewrite Z.land_comm, Z.land_ones by lia. apply Z.mod_mod_divide. exists 2; reflexivity.
  - cbv [emit_f64_neg] in Hw. wsetup Hw. do 4 pstep. cbn [run pc]. zdec. u64s. rewrite Hb.
    eexists; split; [reflexivity|]. xm. split; [lia|]. zdec.
    cbv [binop_value fsign fbits]. change 9223372036854775808 with (2^63).
    rewrite Z.lxor_comm, flip_sign by lia.
    rewrite Z.mod_mod_divide by (exists 2; reflexivity). reflexivity.
  - cbv [emit_f64_copysign] in Hw. wsetup Hw. do 8 pstep. cbn [run pc]. zdec. u64s. rewrite Ha, Hb.
    eexists; split; [reflexivity|]. xm. split; [lia|]. zdec.
    pose proof (Z.mod_pos_bound a (2^63) ltac:(lia)).
    cbv [binop_value fsign fbits]. change 9223372036854775808 with (2^63). change 9223372036854775807 with (Z.ones 63).
    rewrite land_pow2 by lia. rewrite Z.land_comm, Z.land_ones by lia.
    rewrite (Z.mod_mod_divide a) by (exists 2; reflexivity).
    rewrite (Z.mod_small (a mod 2^63)) by lia.
    rewrite (Z.mod_small (if Z.testbit (b mod 2^64) (64 - 1) then 2^63 else 0)) by (destruct (Z.testbit _ _); lia).
    rewrite Z.lor_comm. apply put_sign; lia.
Qed.

Lemma frelop32_run opcod swp flip env w w' m a b :
  emit_f32_relop opcod swp flip w = Some (tt, w') -> pc m = code w ->
  0 <= get m RSP -> get m RSP + 16 < 2^64 ->
  mem m (get m RSP) = b -> mem m (get m RSP + 8) = a ->
  returns_top (run 7 env (cmem w') (code w') m) (get m RSP + 8)
    (let v := if swp then fcmp opcod F32 (b mod 2^32) (a mod 2^32)
              else fcmp opcod F32 (a mod 2^32) (b mod 2^32) in
     if flip then (if v then 0 else 1) else (if v then 1 else 0)).
Proof.
  destruct w as [cc cm], m as [rg x mm z cf0 p lg sf0 of0 lm]. cbn [code get regs mem pc].
  intros Hw -> H0 H1 Hb Ha. cbv [emit_f32_relop] in Hw.
  destruct swp, flip; cbv [negb] in Hw; wsetup Hw; do 6 pstep; cbn [run pc]; zdec; u64s; rewrite ?Ha, ?Hb;
  (eexists; split; [reflexivity|]; xm; split; [lia|]; zdec;
   cbv [fbits] in *; rewrite ?Z.add_0_r, ?Zmod_mod, ?Ha, ?Hb;
   rewrite set_low_small by (apply Z.mod_pos_bound; lia);
   match goal with |- context [fcmp ?p ?w ?x ?y] => destruct (fcmp p w x y) end;
   reflexivity).
Qed.

Lemma frelop64_run opcod swp flip env w w' m a b :
  emit_f64_relop opcod swp flip w = Some (tt, w') -> pc m = code w ->
  0 <= get m RSP -> get m RSP + 16 < 2^64 ->
  mem m (get m RSP) = b -> mem m (get m RSP + 8) = a ->
  returns_top (run 7 env (cmem w') (code w') m) (get m RSP + 8)
    (let v := if swp then fcmp opcod F64 (b mod 2^64) (a mod 2^64)
              else fcmp opcod F64 (a mod 2^64) (b mod 2^64) in
     if flip then (if v then 0 else 1) else (if v then 1 else 0)).
Proof.
  destruct w as [cc cm], m as [rg x mm z cf0 p lg sf0 of0 lm]. cbn [code get regs mem pc].
  intros Hw -> H0 H1 Hb Ha. cbv [emit_f64_relop] in Hw.
  destruct swp, flip; cbv [negb] in Hw; wsetup Hw; do 6 pstep; cbn [run pc]; zdec; u64s; rewrite ?Ha, ?Hb;
  (eexists; split; [reflexivity|]; xm; split; [lia|]; zdec;
   cbv [fbits] in *; rewrite ?Z.add_0_r, ?Zmod_mod, ?Ha, ?Hb;
   rewrite set_low_small by (apply Z.mod_pos_bound; lia);
   match goal with |- context [fcmp ?p ?w ?x ?y] => destruct (fcmp p w x y) end;
   reflexivity).
Qed.

Lemma is_nan_mod w x : is_nan w (x mod 2^fbits w) = is_nan w x.
Proof. unfold is_nan. rewrite Zmod_mod. reflexivity. Qed.

Lemma fsign_mod w x : fsign w (x mod 2^fbits w) = fsign w x.
Proof. unfold fsign. rewrite Zmod_mod. reflexivity. Qed.

Lemma fkey_mod w x : fkey w (x mod 2^fbits w) = fkey w x.
Proof.
  unfold fkey. rewrite fsign_mod. rewrite Z.mod_mod_divide; [reflexivity|].
  exists 2. rewrite <- Z.pow_succ_r by (destruct w; cbn; lia). f_equal. lia.
Qed.

Lemma fcmp_mod p w x y : fcmp p w (x mod 2^fbits w) (y mod 2^fbits w) = fcmp p w x y.
Proof.
  unfold fcmp, feq, flt. rewrite !is_nan_mod, !fkey_mod. reflexivity.
Qed.

(** X12: the code emitted for f32/f64 eq, ne, lt, gt, le and ge leaves 1 or 0 in the slot of the left operand, as IEEE comparison (false on NaN except ne). *)
Theorem float_relop_result op env w m a b :
  pc m = code w -> 0 <= get m RSP -> get m RSP + 16 < 2^64 ->
  mem m (get m RSP) = b -> mem m (get m RSP + 8) = a ->
  (forall w', f32_relop_emitter op w = Some (tt, w') ->
     returns_top (run 7 env (cmem w') (code w') m) (get m RSP + 8)
       (if wasm_frelop F32 op a b then 1 else 0)) /\
  (forall w', f64_relop_emitter op w = Some (tt, w') ->
     returns_top (run 7 env (cmem w') (code w') m) (get m RSP + 8)
       (if wasm_frelop F64 op a b then 1 else 0)).
Proof.
  intros Hp H0 H1 Hb Ha. split; intros w' Hw.
  - destruct op; cbv [f32_relop_emitter emit_f32_eq emit_f32_ne emit_f32_lt emit_f32_gt emit_f32_le emit_f32_ge] in Hw;
    pose proof (frelop32_run _ _ _ env w w' m a b Hw Hp H0 H1 Hb Ha) as R; cbv zeta in R;
    change (2^32) with (2^fbits F32) in R; rewrite !(fcmp_mod _ F32) in R; cbv [fcmp wasm_frelop] in R |- *; cbn [Z.modulo Z.pos_div_eucl] in R;
    try exact R; destruct (feq F32 a b); exact R.
  - destruct op; cbv [f64_relop_emitter emit_f64_eq emit_f64_ne emit_f64_lt emit_f64_gt emit_f64_le emit_f64_ge] in Hw;
    pose proof (frelop64_run _ _ _ env w w' m a b Hw Hp H0 H1 Hb Ha) as R; cbv zeta in R;
    change (2^64) with (2^fbits F64) in R; rewrite !(fcmp_mod _ F64) in R; cbv [fcmp wasm_frelop] in R |- *; cbn [Z.modulo Z.pos_div_eucl] in R;
    try exact R; destruct (feq F64 a b); exact R.
Qed.

Lemma addr_mod i o r : ((i mod 2^64 + o mod 2^64) mod 2^64 mod 2^64 + r mod 2^64) mod 2^64 = (i + o + r) mod 2^64.
Proof. rewrite Zmod_mod. rewrite <- (Z.add_mod i o) by lia. rewrite <- Z.add_mod by lia. reflexivity. Qed.

(** X13: a load with offset below 2^32 pops the address i and pushes the n bytes of linear memory at (i + offset + rsi) mod 2^64, little-endian, sign-extended to the result width when the load is signed. *)
Theorem load_result offset bs n sx wd env w w' m i :
  0 <= offset < 2^32 -> bs <> [] ->
  emit_load_impl offset bs (ILoadLin n sx wd) w = Some (tt, w') -> pc m = code w ->
  0 <= get m RSP -> get m RSP + 8 < 2^64 -> mem m (get m RSP) = i ->
  returns_top (run 7 env (cmem w') (code w') m) (get m RSP)
    (let v := load_le (lmem m) ((i + offset + get m RSI) mod 2^64) (Z.to_nat n) in
     if sx then sw (8 * n) v mod 2^wd else v).
Proof.
  destruct w as [cc cm], m as [rg x mm z cf0 p lg sf0 of0 lm]. cbn [code get regs mem pc lmem].
  intros Ho Hbs Hw -> H0 H1 Hi. cbv [emit_load_impl emit_offset] in Hw.
  assert (HL : 1 <= Z.of_nat (List.length bs)) by (destruct bs; [congruence|cbn [List.length]; lia]).
  cbv [bind emit ret code cmem] in Hw.
  set (L := Z.of_nat (List.length bs)) in Hw, HL. clearbody L.
  assert (TB : Z.testbit offset 31 = (2^31 <=? offset)) by exact (testbit_top 32 offset ltac:(lia) Ho).
  assert (S32 : offset < 2^31 -> s32 offset = offset).
  { intros F. cbv [s32 u32]. rewrite Z.mod_small by lia. destruct (Z.ltb_spec offset (2^31)); lia. }
  destruct (Z.testbit offset 31) eqn:T; [|destruct (Z.eqb_spec offset 0) as [E|E]].
  - wsetup Hw. do 6 pstep; cbn [run pc]; zdec. u64s. rewrite Hi. eexists; split; [reflexivity|]. xm. split; [lia|]. zdec.
    cbv [binop_value u32]. rewrite (Z.mod_small offset (2^32)) by lia. rewrite addr_mod. reflexivity.
  - wsetup Hw. do 4 pstep; cbn [run pc]; zdec. u64s. rewrite Hi. eexists; split; [reflexivity|]. xm. split; [lia|]. zdec.
    subst offset. cbv [binop_value]. rewrite <- Z.add_mod by lia. rewrite Z.add_0_r. reflexivity.
  - wsetup Hw. do 5 pstep; cbn [run pc]; zdec. u64s. rewrite Hi. eexists; split; [reflexivity|]. xm. split; [lia|]. zdec.
    rewrite S32 by (symmetry in TB; apply Z.leb_gt in TB; lia). cbv [binop_value]. rewrite addr_mod. reflexivity.
Qed.

(** X14: a store pops the value v and the address i and writes n bytes at (i + offset + rsi) mod 2^64; when bit 31 of the offset is set the offset is loaded into ecx, which holds the value, so the offset is stored instead of v. *)
Theorem store_result offset bs n env w w' m i v :
  0 <= offset < 2^32 -> bs <> [] ->
  emit_store_impl offset bs (IStoreLin n) w = Some (tt, w') -> pc m = code w ->
  0 <= get m RSP -> get m RSP + 16 < 2^64 -> mem m (get m RSP) = v -> mem m (get m RSP + 8) = i ->
  exists m', run 7 env (cmem w') (code w') m = ODone m' /\ get m' RSP = get m RSP + 16 /\
    lmem m' = store_le (lmem m) ((i + offset + get m RSI) mod 2^64)
                (if Z.testbit offset 31 then offset else v) n.
Proof.
  destruct w as [cc cm], m as [rg x mm z cf0 p lg sf0 of0 lm]. cbn [code get regs mem pc lmem].
  intros Ho Hbs Hw -> H0 H1 Hv Hi. cbv [emit_store_impl emit_offset] in Hw.
  assert (HL : 1 <= Z.of_nat (List.length bs)) by (destruct bs; [congruence|cbn [List.length]; lia]).
  cbv [bind emit ret code cmem] in Hw.
  set (L := Z.of_nat (List.length bs)) in Hw, HL. clearbody L.
  assert (TB : Z.testbit offset 31 = (2^31 <=? offset)) by exact (testbit_top 32 offset ltac:(lia) Ho).
  assert (S32 : offset < 2^31 -> s32 offset = offset).
  { intros F. cbv [s32 u32]. rewrite Z.mod_small by lia. destruct (Z.ltb_spec offset (2^31)); lia. }
  destruct (Z.testbit offset 31) eqn:T; [|destruct (Z.eqb_spec offset 0) as [E|E]].
  - wsetup Hw. do 6 pstep; cbn [run pc]; zdec. u64s. rewrite Hi. eexists; split; [reflexivity|]. xm. split; [lia|].
    cbv [binop_value u32]. rewrite (Z.mod_small offset (2^32)) by lia. rewrite addr_mod. reflexivity.
  - wsetup Hw. do 4 pstep; cbn [run pc]; zdec. u64s. rewrite Hi, Hv. eexists; split; [reflexivity|]. xm. split; [lia|].
    subst offset. cbv [binop_value]. rewrite <- Z.add_mod by lia. rewrite Z.add_0_r. reflexivity.
  - wsetup Hw. do 5 pstep; cbn [run pc]; zdec. u64s. rewrite Hi, Hv. eexists; split; [reflexivity|]. xm. split; [lia|].
    rewrite S32 by (symmetry in TB; apply Z.leb_gt in TB; lia). cbv [binop_value]. rewrite addr_mod. reflexivity.
Qed.

Lemma load_store_le lm a v N n : forall j, 0 <= j -> j + Z.of_nat n <= N -> N < 2^64 ->
  load_le (store_le lm a v N) (a + j) n = (v / 2^(8*j)) mod 2^(8 * Z.of_nat n).
Proof.
  induction n as [|n IH]; intros j Hj HN HN64.
  - cbn [load_le]. rewrite Z.mul_0_r, Z.pow_0_r, Z.mod_1_r. reflexivity.
  - cbn [load_le]. unfold store_le at 1.
    rewrite Zminus_mod_idemp_l. replace (a + j - a) with j by lia.
    rewrite (Z.mod_small j) by lia. rewrite Nat2Z.inj_succ in HN.
    replace (j <? N) with true by (symmetry; apply Z.ltb_lt; lia).
    rewrite Zmod_mod. rewrite <- Z.add_assoc. rewrite IH by lia.
    rewrite Nat2Z.inj_succ. replace (8 * (j + 1)) with (8 * j + 8) by lia.
    rewrite Z.pow_add_r, <- Z.div_div by lia.
    replace (8 * Z.succ (Z.of_nat n)) with (8 + 8 * Z.of_nat n) by lia.
    rewrite Z.pow_add_r by lia. rewrite Z.rem_mul_r by lia. reflexivity.
Qed.

Lemma load_store_le0 lm a v N n : Z.of_nat n <= N -> N < 2^64 ->
  load_le (store_le lm a v N) a n = v mod 2^(8 * Z.of_nat n).
Proof.
  intros. rewrite <- (Z.add_0_r a) at 2. rewrite load_store_le by lia.
  rewrite Z.mul_0_r, Z.pow_0_r, Z.div_1_r. reflexivity.
Qed.

(** X15: set_global followed by get_global of the same global leaves the stored value on the stack, truncated to 32 bits for i32/f32 globals. *)
Theorem global_round_trip t ptr env w w' m v :
  (emit_set_global ptr ;; emit_get_global t ptr) w = Some (tt, w') -> pc m = code w ->
  0 <= get m RSP -> get m RSP + 8 < 2^64 -> mem m (get m RSP) = v ->
  returns_top (run 7 env (cmem w') (code w') m) (get m RSP)
    (match t with i32 | f32 => v mod 2^32 | i64 | f64 => v mod 2^64 end).
Proof.
  destruct w as [cc cm], m as [rg x mm z cf0 p lg sf0 of0 lm]. cbn [code get regs mem pc lmem].
  intros Hw -> H0 H1 Hv. cbv [emit_set_global emit_get_global] in Hw.
  destruct t; wsetup Hw; do 6 pstep; cbn [run pc]; zdec; u64s; eexists; (split; [reflexivity|]); xm; (split; [lia|]); zdec.
  all: rewrite Hv, load_store_le0 by (cbn; lia); reflexivity.
Qed.

Lemma local_disp nparams idx : 0 <= nparams < 2^27 -> 0 <= idx < 2^27 ->
  s32 (local_operand nparams idx) =
  if idx <? nparams then 8 * (nparams - idx + 1) else -8 * (idx - nparams + 1).
Proof.
  intros Hn Hi. cbv [local_operand s32 u32].
  destruct (Z.ltb_spec idx nparams); rewrite Zmod_mod.
  - rewrite Z.mod_small by lia. replace (8 * (nparams - idx + 1) <? 2^31) with true
      by (symmetry; apply Z.ltb_lt; lia). reflexivity.
  - rewrite <- (Z.mod_add _ 1) by lia. rewrite Z.mod_small by lia.
    replace (-8 * (idx - nparams + 1) + 1 * 2^32 <? 2^31) with false
      by (symmetry; apply Z.ltb_ge; lia). lia.
Qed.

(** X16: get_local pushes the frame slot of the local (above rbp for parameters, below it for the other locals); set_local pops into that slot and tee_local copies the top into it, and no other stack word changes. *)
Theorem locals_result nparams idx env w m v :
  0 <= nparams < 2^27 -> 0 <= idx < 2^27 -> pc m = code w ->
  8 <= get m RSP -> get m RSP + 8 < 2^64 -> mem m (get m RSP) = v ->
  let slot := u64 (get m RBP + if idx <? nparams then 8 * (nparams - idx + 1)
                               else -8 * (idx - nparams + 1)) in
  (forall w', emit_get_local nparams idx w = Some (tt, w') ->
     returns_top (run 3 env (cmem w') (code w') m) (get m RSP - 8) (mem m slot)) /\
  (forall w', emit_set_local nparams idx w = Some (tt, w') ->
     exists m', run 3 env (cmem w') (code w') m = ODone m' /\ get m' RSP = get m RSP + 8 /\
       mem m' slot = v /\ forall a, a <> slot -> mem m' a = mem m a) /\
  (forall w', emit_tee_local nparams idx w = Some (tt, w') ->
     exists m', run 4 env (cmem w') (code w') m = ODone m' /\ get m' RSP = get m RSP /\
       mem m' slot = v /\ forall a, a <> slot -> mem m' a = mem m a).
Proof.
  destruct w as [cc cm], m as [rg x mm z cf0 p lg sf0 of0 lm]. cbn [code get regs mem pc lmem].
  intros Hn Hi -> H0 H1 Hv.
  pose proof (local_disp nparams idx Hn Hi) as D.
  remember (if idx <? nparams then 8 * (nparams - idx + 1) else -8 * (idx - nparams + 1)) as d eqn:Hd.
  remember (u64 (rg RBP + d)) as slot eqn:Hs. clear Hd.
  split; [|split]; intros w' Hw;
    cbv [emit_get_local emit_set_local emit_tee_local] in Hw; cbv zeta in Hw; rewrite D in Hw.
  - wsetup Hw. do 2 pstep; cbn [run pc]; zdec. u64s. rewrite <- Hs. eexists; split; [reflexivity|]. xm. split; [lia|]. zdec. reflexivity.
  - wsetup Hw. do 2 pstep; cbn [run pc]; zdec. u64s. rewrite <- Hs. eexists; split; [reflexivity|]. xm. split; [lia|]. zdec.
    split; [exact Hv|]. intros a Ha. destruct (Z.eqb_spec a slot); congruence.
  - wsetup Hw. do 3 pstep; cbn [run pc]; zdec. u64s. rewrite <- Hs. eexists; split; [reflexivity|]. xm. split; [lia|]. zdec.
    split; [exact Hv|]. intros a Ha. destruct (Z.eqb_spec a slot); [congruence|].
    destruct (Z.eqb_spec a (rg RSP + 8 - 8)); [|reflexivity]. f_equal. lia.
Qed.

(** X17: set_local followed by get_local of the same local leaves the popped value back on the stack. *)
Theorem local_round_trip nparams idx env w w' m v :
  (emit_set_local nparams idx ;; emit_get_local nparams idx) w = Some (tt, w') -> pc m = code w ->
  0 <= get m RSP -> get m RSP + 8 < 2^64 -> mem m (get m RSP) = v ->
  returns_top (run 5 env (cmem w') (code w') m) (get m RSP) v.
Proof.
  destruct w as [cc cm], m as [rg x mm z cf0 p lg sf0 of0 lm]. cbn [code get regs mem pc lmem].
  intros Hw -> H0 H1 Hv. cbv [emit_get_local emit_set_local] in Hw. cbv zeta in Hw.
  remember (s32 (local_operand nparams idx)) as d eqn:Hd. clear Hd.
  wsetup Hw. do 4 pstep; cbn [run pc]; zdec. u64s. eexists; split; [reflexivity|]. xm. split; [lia|]. zdec. exact Hv.
Qed.

Lemma pushes_run env cm stop : forall k m,
  (forall j, 0 <= j < Z.of_nat k -> cm (pc m + j) = Some (IPush RAX, 1) /\ pc m + j <> stop) ->
  get m RAX = 0 -> 8 * Z.of_nat k <= get m RSP < 2^64 ->
  exists m', (forall f, run (k + f) env cm stop m = run f env cm stop m') /\
    pc m' = pc m + Z.of_nat k /\ get m' RSP = get m RSP - 8 * Z.of_nat k /\
    get m' RBP = get m RBP /\ get m' RAX = 0 /\
    (forall j, 1 <= j <= Z.of_nat k -> mem m' (get m RSP - 8 * j) = 0) /\
    (forall a, get m RSP <= a -> mem m' a = mem m a).
Proof.
  induction k as [|k IH]; intros m Hc Ha Hs.
  - exists m. split; [reflexivity|]. cbn [Z.of_nat].
    repeat split; try lia; intros j Hj; lia.
  - rewrite Nat2Z.inj_succ in *. destruct (Hc 0 ltac:(lia)) as [C0 S0]. rewrite Z.add_0_r in C0, S0.
    destruct m as [rg x mm z cf0 p lg sf0 of0 lm]. cbn [pc get regs mem] in *.
    set (m1 := set_pc (p + 1) (push (rg RAX) {| regs := rg; xmm0 := x; mem := mm; zf := z; cf := cf0;
                pc := p; log := lg; sf := sf0; ovf := of0; lmem := lm |})).
    assert (P1 : pc m1 = p + 1) by reflexivity.
    assert (R1 : get m1 RSP = rg RSP - 8) by (cbv [m1]; xm; u64s; reflexivity).
    assert (B1 : get m1 RBP = rg RBP) by (cbv [m1]; xm; reflexivity).
    assert (A1 : get m1 RAX = 0) by (cbv [m1]; xm; exact Ha).
    assert (M1 : forall a, mem m1 a = if a =? rg RSP - 8 then 0 else mm a)
      by (intros a; cbv [m1]; xm; u64s; rewrite Ha; reflexivity).
    destruct (IH m1) as (m' & Hr & Hp & Hsp & Hb & Hax & Hz & Hk).
    + intros j Hj. rewrite P1. replace (p + 1 + j) with (p + (j + 1)) by lia. apply Hc. lia.
    + exact A1.
    + rewrite R1. lia.
    + exists m'. split; [|split; [lia|split; [lia|split; [congruence|split; [exact Hax|split]]]]].
      * intros f. rewrite <- Hr. cbn [Nat.add]. apply (run_next _ _ _ _ _ (IPush RAX) 1); [exact S0|exact C0|].
        reflexivity.
      * intros j Hj. destruct (Z.eqb_spec j 1) as [->|Hj1].
        -- rewrite Hk by (rewrite R1; lia). rewrite M1. zdec. reflexivity.
        -- replace (rg RSP - 8 * j) with (get m1 RSP - 8 * (j - 1)) by (rewrite R1; lia). apply Hz. lia.
      * intros a Ha'. rewrite Hk by (rewrite R1; lia). rewrite M1. zdec. reflexivity.
Qed.

Section ZeroLoop.
Variables (env : native_env) (cm : codemem) (stop L : Z).
Hypotheses (C0 : cm L = Some (IPush RAX, 1)) (C1 : cm (L + 1) = Some (IDec32 RCX, 2))
  (C3 : cm (L + 3) = Some (IJcc CNE (TAddr L), 6))
  (S0 : L <> stop) (S1 : L + 1 <> stop) (S3 : L + 3 <> stop).

Ltac lstep H := erewrite run_S; [ | cbn [pc]; lia | cbn [pc]; first [exact H | rewrite <- H; f_equal; lia] ];
  cbn [exec]; xm; u64s; zdec.

Lemma zero_loop_round m : pc m = L -> 1 <= get m RCX < 2^32 -> get m RAX = 0 -> 8 <= get m RSP < 2^64 ->
  exists m3, (forall f, run (S (S (S f))) env cm stop m = run f env cm stop m3) /\
    pc m3 = (if get m RCX - 1 =? 0 then L + 9 else L) /\ get m3 RCX = get m RCX - 1 /\
    get m3 RSP = get m RSP - 8 /\ get m3 RBP = get m RBP /\ get m3 RAX = 0 /\
    forall a, mem m3 a = if a =? get m RSP - 8 then 0 else mem m a.
Proof.
  destruct m as [rg x mm z cf0 p lg sf0 of0 lm]. cbn [pc get regs mem].
  intros -> Hx Ha Hs.
  destruct (Z.eqb_spec (rg RCX - 1) 0);
  (eexists; split; [intros f; lstep C0; lstep C1; rewrite ?(u32_id (rg RCX - 1)) by lia;
    zdec; cbn [negb]; lstep C3; reflexivity|]); xm; zdec; (split; [lia|]); (split; [reflexivity|]);
    (split; [lia|]); (split; [reflexivity|]); (split; [exact Ha|]); intros a; rewrite Ha; reflexivity.
Qed.

Lemma zero_loop_run : forall c m, (1 <= c)%nat -> Z.of_nat c < 2^32 -> pc m = L ->
  get m RCX = Z.of_nat c -> get m RAX = 0 -> 8 * Z.of_nat c <= get m RSP < 2^64 ->
  exists m', (forall f, run (3 * c + f) env cm stop m = run f env cm stop m') /\
    pc m' = L + 9 /\ get m' RSP = get m RSP - 8 * Z.of_nat c /\
    get m' RBP = get m RBP /\
    (forall j, 1 <= j <= Z.of_nat c -> mem m' (get m RSP - 8 * j) = 0) /\
    (forall a, get m RSP <= a -> mem m' a = mem m a).
Proof.
  induction c as [|c IH]; intros m Hc1 Hc Hp Hx Ha Hs; [lia|].
  rewrite Nat2Z.inj_succ in *.
  destruct (zero_loop_round m Hp ltac:(lia) Ha ltac:(lia)) as (m3 & Hr & Hp3 & Hx3 & Hs3 & Hb3 & Ha3 & Hm3).
  destruct c as [|c].
  - exists m3. split; [intros f; replace (3 * 1 + f)%nat with (S (S (S f))) by lia; rewrite Hr; reflexivity|].
    rewrite Hx in Hp3. cbn [Z.of_nat] in *. rewrite Hp3. cbn.
    split; [reflexivity|]. split; [lia|]. split; [exact Hb3|]. split.
    + intros j Hj. replace j with 1 by lia. rewrite Hm3. zdec. reflexivity.
    + intros a Ha'. rewrite Hm3. zdec. reflexivity.
  - rewrite Hx in Hp3. replace (Z.succ (Z.of_nat (S c)) - 1 =? 0) with false in Hp3 by (symmetry; apply Z.eqb_neq; lia).
    destruct (IH m3) as (m' & Hr' & Hp' & Hs' & Hb' & Hz' & Hk'); try lia.
    exists m'. split; [intros f; replace (3 * S (S c) + f)%nat with (S (S (S (3 * S c + f)))) by lia; rewrite Hr; apply Hr'|].
    split; [exact Hp'|]. split; [lia|]. split; [congruence|]. split.
    + intros j Hj. destruct (Z.eqb_spec j 1) as [->|Hj1].
      * rewrite Hk' by lia. rewrite Hm3. zdec. reflexivity.
      * replace (get m RSP - 8 * j) with (get m3 RSP - 8 * (j - 1)) by lia. apply Hz'. lia.
    + intros a Ha'. rewrite Hk' by lia. rewrite Hm3. zdec. reflexivity.
Qed.
End ZeroLoop.

Lemma pushes_code : forall k w w', emit_pushes k w = Some (tt, w') ->
  code w' = code w + Z.of_nat k /\
  (forall j, 0 <= j < Z.of_nat k -> cmem w' (code w + j) = Some (IPush RAX, 1)) /\
  (forall x, x < code w -> cmem w' x = cmem w x).
Proof.
  induction k as [|k IH]; intros w w' H; cbn [emit_pushes] in H.
  - injection H as <-. cbn [Z.of_nat]. repeat split; try lia; intros j Hj; lia.
  - destruct (bind_inv _ _ _ _ _ H) as ([] & w1 & H1 & H2).
    destruct (emit_simple _ _ _ _ _ H1) as (E1 & M1 & K1). cbn [List.length Z.of_nat] in E1, M1.
    destruct (IH _ _ H2) as (E2 & M2 & K2). rewrite Nat2Z.inj_succ.
    split; [lia|]. split.
    + intros j Hj. destruct (Z.eqb_spec j 0) as [->|Hj0].
      * rewrite K2 by lia. rewrite Z.add_0_r. exact M1.
      * replace (code w + j) with (code w1 + (j - 1)) by lia. apply M2. lia.
    + intros x Hx. rewrite K2 by lia. apply K1. lia.
Qed.

Lemma sum_locals_eq : forall locals c, Forall (fun n => 0 <= n) locals -> 0 <= c <= 0xFFFFFFFF ->
  sum_locals locals c =
  if c + fold_right Z.add 0 locals <=? 0xFFFFFFFF then Some (c + fold_right Z.add 0 locals) else None.
Proof.
  induction locals as [|n locals IH]; intros c Hf Hc; cbn [sum_locals fold_right].
  - rewrite Z.add_0_r. replace (c <=? 0xFFFFFFFF) with true by (symmetry; apply Z.leb_le; lia). reflexivity.
  - inversion Hf as [|? ? Hn Hf']; subst.
    assert (0 <= fold_right Z.add 0 locals).
    { clear -Hf'. induction locals as [|k l IHl]; cbn [fold_right]; [lia|].
      inversion Hf'; subst. specialize (IHl ltac:(assumption)). lia. }
    destruct (Z.ltb_spec 0xFFFFFFFF (c + n)).
    + replace (c + (n + fold_right Z.add 0 locals) <=? 0xFFFFFFFF) with false
        by (symmetry; apply Z.leb_gt; lia). reflexivity.
    + rewrite IH by (assumption || lia). rewrite Z.add_assoc. reflexivity.
Qed.

Lemma sum_nonneg locals : Forall (fun n => 0 <= n) locals -> 0 <= fold_right Z.add 0 locals.
Proof. induction 1; cbn [fold_right]; lia. Qed.

Ltac leb_in H := repeat match type of H with context [?a <=? ?b] =>
  first [replace (a <=? b) with true in H by (symmetry; apply Z.leb_le; lia)
        |replace (a <=? b) with false in H by (symmetry; apply Z.leb_gt; lia)] end.

(** X18: the prologue pushes rbp, sets rbp to the saved slot and pushes one zero word per declared local (the sum of the local counts), leaving the caller's part of the stack untouched. *)
Theorem prologue_result locals env w w' m count :
  Forall (fun n => 0 <= n) locals ->
  emit_prologue locals w = Some (count, w') -> pc m = code w ->
  8 + 8 * count <= get m RSP < 2^64 ->
  count = fold_right Z.add 0 locals /\
  exists m', (forall fuel, (3 * Z.to_nat count + 6 <= fuel)%nat ->
                run fuel env (cmem w') (code w') m = ODone m') /\
    get m' RBP = get m RSP - 8 /\ mem m' (get m RSP - 8) = get m RBP /\
    get m' RSP = get m RSP - 8 - 8 * count /\
    (forall j, 1 <= j <= count -> mem m' (get m RSP - 8 - 8 * j) = 0) /\
    (forall a, get m RSP <= a -> mem m' a = mem m a).
Proof.
  intros Hf Hw Hp Hs. pose proof (sum_nonneg _ Hf) as Hn.
  unfold emit_prologue in Hw. rewrite sum_locals_eq in Hw by (assumption || lia).
  rewrite Z.add_0_l in Hw. set (n := fold_right Z.add 0 locals) in *.
  destruct (Z.leb_spec n 0xFFFFFFFF) as [Hmax|]; [|discriminate].
  destruct w as [cc cm0], m as [rg x mm z cf0 p lg sf0 of0 lm]. cbn [code cmem pc get regs mem] in *. subst p.
  assert (Core : count = n /\ exists mf N, (forall f, run (N + f) env (cmem w') (code w') {| regs := rg; xmm0 := x; mem := mm; zf := z; cf := cf0; pc := cc; log := lg; sf := sf0; ovf := of0; lmem := lm |} = run f env (cmem w') (code w') mf) /\
    (N <= 3 * Z.to_nat count + 5)%nat /\ pc mf = code w' /\
    get mf RBP = rg RSP - 8 /\ mem mf (rg RSP - 8) = rg RBP /\
    get mf RSP = rg RSP - 8 - 8 * count /\
    (forall j, 1 <= j <= count -> mem mf (rg RSP - 8 - 8 * j) = 0) /\
    (forall a, rg RSP <= a -> mem mf a = mm a)).
  { destruct (Z.ltb_spec 0 n) as [H0|H0]; [destruct (Z.ltb_spec 14 n) as [H14|H14]|].
    - cbv [bind get_code emit ret code cmem List.length app le32 map branch_to emit_branch fix_branch] in Hw.
      cbv zeta in Hw. simpl Z.of_nat in Hw. leb_in Hw. injection Hw as <- Hw'.
      split; [reflexivity|].
      assert (E4 : exists m4, (forall f, run (4 + f) env (cmem w') (code w') {| regs := rg; xmm0 := x; mem := mm; zf := z; cf := cf0; pc := cc; log := lg; sf := sf0; ovf := of0; lmem := lm |} = run f env (cmem w') (code w') m4) /\
        pc m4 = cc + 12 /\ get m4 RCX = n /\ get m4 RAX = 0 /\ get m4 RSP = rg RSP - 8 /\
        get m4 RBP = rg RSP - 8 /\ forall a, mem m4 a = if a =? rg RSP - 8 then rg RBP else mm a).
      { subst w'. cbn [code cmem]. eexists. split; [intros f; pstep; pstep; pstep; pstep; reflexivity|].
        xm. rewrite Z.lxor_nilpotent, u32_id by lia. repeat split; try lia. }
      destruct E4 as (m4 & R4 & P4 & X4 & A4 & S4 & B4 & M4).
      subst w'. cbn [code cmem] in *.
      match type of R4 with context [run _ _ ?CM ?ST _] =>
        edestruct (zero_loop_run env CM ST (cc + 12)) with (c := Z.to_nat n) (m := m4)
          as (m' & R' & P' & S' & B' & Z' & K') end.
      all: try (cbv beta; zdec; cbn [retarget]; first [reflexivity |
        repeat match goal with |- @eq Z _ _ => lia | |- _ => f_equal end]).
      all: try lia.
      rewrite Z2Nat.id in S', Z' by lia.
      exists m', (4 + 3 * Z.to_nat n)%nat. split; [intros f; rewrite <- Nat.add_assoc, R4; apply R'|].
      split; [lia|]. split; [rewrite P'; lia|]. split; [rewrite B'; exact B4|].
      split; [rewrite K' by lia; rewrite M4; zdec; reflexivity|].
      split; [rewrite S', S4; lia|]. split.
      + intros j Hj. rewrite <- (Z' j Hj). f_equal. lia.
      + intros a Ha. rewrite K' by lia. rewrite M4. zdec. reflexivity.
    - cbv [bind get_code emit ret code cmem List.length app le32 map] in Hw.
      cbv zeta in Hw. simpl Z.of_nat in Hw.
      destruct (emit_pushes _ _) as [[[] w1]|] eqn:EP; [|discriminate].
      destruct (pushes_code _ _ _ EP) as (E1 & M1 & K1). cbn [code cmem] in E1, M1, K1.
      rewrite Z2Nat.id in E1, M1 by lia. change (let (code, _) := w1 in code) with (code w1) in Hw. rewrite E1 in Hw.
      leb_in Hw. injection Hw as <- <-. split; [reflexivity|].
      assert (E3 : exists m3, (forall f, run (3 + f) env (cmem w1) (code w1) {| regs := rg; xmm0 := x; mem := mm; zf := z; cf := cf0; pc := cc; log := lg; sf := sf0; ovf := of0; lmem := lm |} = run f env (cmem w1) (code w1) m3) /\
        pc m3 = cc + 7 /\ get m3 RAX = 0 /\ get m3 RSP = rg RSP - 8 /\
        get m3 RBP = rg RSP - 8 /\ forall a, mem m3 a = if a =? rg RSP - 8 then rg RBP else mm a).
      { rewrite E1. eexists. split.
        - intros f. do 3 (cbn [Nat.add]; erewrite run_S; [ | cbn [pc]; lia | cbn [pc]; rewrite K1 by lia; zdec; reflexivity ];
            cbn [exec]; xm; u64s; zdec). reflexivity.
        - xm. rewrite Z.lxor_nilpotent. repeat split; lia. }
      destruct E3 as (m3 & R3 & P3 & A3 & S3 & B3 & M3).
      destruct (pushes_run env (cmem w1) (code w1) (Z.to_nat n) m3) as (m' & R' & P' & S' & B' & A' & Z' & K').
      { intros j Hj. rewrite Z2Nat.id in Hj by lia. rewrite P3, E1. split; [|lia].
        replace (cc + 7 + j) with (cc + 1 + 3 + 3 + j) by lia. apply M1. lia. }
      { exact A3. }
      { rewrite S3, Z2Nat.id by lia. lia. }
      rewrite Z2Nat.id in P', S', Z' by lia.
      exists m', (3 + Z.to_nat n)%nat. split; [intros f; rewrite <- Nat.add_assoc, R3; apply R'|].
      split; [lia|]. split; [rewrite P', P3, E1; lia|]. split; [rewrite B'; exact B3|].
      split; [rewrite K' by lia; rewrite M3; zdec; reflexivity|].
      split; [rewrite S', S3; lia|]. split.
      + intros j Hj. rewrite <- (Z' j Hj). f_equal. lia.
      + intros a Ha. rewrite K' by lia. rewrite M3. zdec. reflexivity.
    - cbv [bind get_code emit ret code cmem List.length app le32 map] in Hw.
      cbv zeta in Hw. simpl Z.of_nat in Hw. leb_in Hw. injection Hw as <- <-. cbn [code cmem].
      split; [reflexivity|]. eexists. exists 2%nat. split.
      + intros f. pstep. pstep. reflexivity.
      + cbn [pc get regs mem]. xm. u64s. zdec.
        repeat split; try lia; intros; try lia; zdec; reflexivity. }
  destruct Core as (-> & mf & N & R & HN & P & B & Mb & Sp & Z & K).
  split; [reflexivity|]. exists mf. split; [|repeat split; assumption].
  intros fuel Hfuel. replace fuel with (N + S (fuel - N - 1))%nat by lia.
  rewrite R. cbn [run]. rewrite P, Z.eqb_refl. reflexivity.
Qed.

Lemma pushes_some : forall k w, exists w', emit_pushes k w = Some (tt, w').
Proof.
  induction k as [|k IH]; intros w; cbn [emit_pushes]; [eexists; reflexivity|].
  destruct (IH (mkW (code w + 1) (fun a => if a =? code w then Some (IPush RAX, 1) else cmem w a))) as (w' & H).
  exists w'. exact H.
Qed.

(** X19: for non-negative local counts, emitting the prologue fails exactly when the total number of locals exceeds 0xFFFFFFFF. *)
Theorem prologue_fails locals w :
  Forall (fun n => 0 <= n) locals ->
  (emit_prologue locals w = None <-> 0xFFFFFFFF < fold_right Z.add 0 locals).
Proof.
  intros Hf. pose proof (sum_nonneg _ Hf) as Hn.
  unfold emit_prologue. rewrite sum_locals_eq by (assumption || lia).
  rewrite Z.add_0_l. set (n := fold_right Z.add 0 locals) in *.
  destruct (Z.leb_spec n 0xFFFFFFFF) as [Hmax|Hmax]; [|split; [lia|reflexivity]].
  split; [|lia]. destruct w as [cc cm0].
  destruct (Z.ltb_spec 0 n) as [H0|H0]; [destruct (Z.ltb_spec 14 n) as [H14|H14]|].
  - cbv [bind get_code emit ret code cmem List.length app le32 map branch_to emit_branch fix_branch].
    cbv zeta. simpl Z.of_nat. intros Hw. leb_in Hw. discriminate.
  - cbv [bind get_code emit ret code cmem List.length app le32 map]. cbv zeta. simpl Z.of_nat.
    destruct (pushes_some (Z.to_nat n) (mkW (cc + 1 + 3 + 3) (fun a => if a =? cc + 1 + 3 then Some (IXor 64 RAX RAX, 3) else if a =? cc + 1 then Some (IMovRR RBP RSP, 3) else if a =? cc then Some (IPush RBP, 1) else cm0 a))) as (w1 & EP).
    rewrite EP. destruct (pushes_code _ _ _ EP) as (E1 & _ & _). cbn [code] in E1.
    rewrite Z2Nat.id in E1 by lia. change (let (code, _) := w1 in code) with (code w1). rewrite E1.
    intros Hw. leb_in Hw. discriminate.
  - cbv [bind get_code emit ret code cmem List.length app le32 map]. cbv zeta. simpl Z.of_nat.
    intros Hw. leb_in Hw. discriminate.
Qed.

Lemma land_F p : 0 <= p < 2^32 -> (Z.land p 0xF0000000 =? 0) = (p <? 2^28).
Proof.
  intros Hp. destruct (Z.ltb_spec p (2^28)) as [Hl|Hl].
  - apply Z.eqb_eq. apply Z.bits_inj'. intros n Hn. rewrite Z.land_spec, Z.bits_0.
    destruct (Z.lt_ge_cases n 28) as [Hn28|Hn28].
    + change 0xF0000000 with (15 * 2^28). rewrite Z.mul_pow2_bits_low by lia. apply andb_false_r.
    + destruct (Z.eq_dec p 0) as [->|Hp0]; [rewrite Z.bits_0; reflexivity|].
      rewrite Z.bits_above_log2; [reflexivity|lia|].
      apply Z.lt_le_trans with 28; [apply Z.log2_lt_pow2; lia|lia].
  - apply Z.eqb_neq. intros H.
    assert (Hk : 28 <= Z.log2 p < 32).
    { split; [apply Z.log2_le_pow2; lia|apply Z.log2_lt_pow2; lia]. }
    assert (T : Z.testbit (Z.land p 0xF0000000) (Z.log2 p) = true).
    { rewrite Z.land_spec, Z.bit_log2 by lia.
      assert (E : Z.log2 p = 28 \/ Z.log2 p = 29 \/ Z.log2 p = 30 \/ Z.log2 p = 31) by lia.
      destruct E as [E|[E|[E|E]]]; rewrite E; reflexivity. }
    rewrite H, Z.bits_0 in T. discriminate.
Qed.

(** X21: emitting the epilogue fails exactly when the number of locals is at least 2^28. *)
Theorem epilogue_fails ft lc w :
  0 <= lc < 2^32 -> (emit_epilogue ft lc w = None <-> 2^28 <= lc).
Proof.
  intros Hl. unfold emit_epilogue. rewrite land_F by lia.
  destruct (Z.ltb_spec lc (2^28)) as [H|H]; cbn [negb].
  - split; [|lia]. destruct w as [cc cm0].
    unfold emit_multipop. rewrite testbit31_small, land_small by lia. rewrite s32_small by lia.
    destruct (Z.eqb_spec lc 0) as [->|H0].
    + replace ((0 <? 0) && negb (0 =? 0x80000001)) with false by reflexivity.
      destruct (negb (return_count ft =? 0));
        cbv [bind get_code emit ret code cmem List.length app le32 map]; cbv zeta; simpl Z.of_nat;
        intros Hw; leb_in Hw; discriminate.
    + replace ((0 <? lc) && negb (lc =? 0x80000001)) with true
        by (symmetry; apply andb_true_intro; split; [apply Z.ltb_lt; lia| apply negb_true_iff, Z.eqb_neq; lia]).
      destruct (negb (return_count ft =? 0));
        cbv [bind get_code emit ret code cmem List.length app le32 map]; cbv zeta; simpl Z.of_nat;
        cbn [Z.eqb negb]; intros Hw; leb_in Hw; discriminate.
  - split; [intros _; lia|]. intros _. unfold bind at 1 2. cbv [get_code].
    destruct (negb (return_count ft =? 0)); reflexivity.
Qed.

(** X20: the epilogue pops the result (if any) into rax, drops the locals, restores rbp and returns to the saved return address with the stack pointer above it. *)
Theorem epilogue_result ft lc env w w' m :
  0 <= lc < 2^28 -> emit_epilogue ft lc w = Some (tt, w') -> pc m = code w ->
  let sp := get m RSP + (if return_count ft =? 0 then 0 else 8) + 8 * lc in
  0 <= get m RSP -> sp + 16 < 2^64 ->
  (mem m (sp + 8) < code w \/ code w' <= mem m (sp + 8)) ->
  exists m', run 5 env (cmem w') (mem m (sp + 8)) m = ODone m' /\
    get m' RSP = sp + 16 /\ get m' RBP = mem m sp /\
    (return_count ft <> 0 -> get m' RAX = mem m (get m RSP)).
Proof.
  intros Hl Hw Hp. cbv zeta.
  destruct w as [cc cm0], m as [rg x mm z cf0 p lg sf0 of0 lm]. cbn [code cmem pc get regs mem] in *. subst p.
  intros H0 H1 Hra.
  unfold emit_epilogue in Hw. rewrite land_F in Hw by lia.
  replace (lc <? 2^28) with true in Hw by (symmetry; apply Z.ltb_lt; lia). cbn [negb] in Hw.
  unfold emit_multipop in Hw. rewrite testbit31_small, land_small in Hw by lia. rewrite s32_small in Hw by lia.
  destruct (Z.eqb_spec (return_count ft) 0) as [Rc|Rc]; [rewrite Rc in *; cbn [Z.eqb negb] in Hw|
    replace (return_count ft =? 0) with false in * by (symmetry; apply Z.eqb_neq; exact Rc); cbn [negb] in Hw];
  (destruct (Z.eqb_spec lc 0) as [->|L0];
   [replace ((0 <? 0) && negb (0 =? 0x80000001)) with false in Hw by reflexivity|
    replace ((0 <? lc) && negb (lc =? 0x80000001)) with true in Hw
        by (symmetry; apply andb_true_intro; split; [apply Z.ltb_lt; lia| apply negb_true_iff, Z.eqb_neq; lia])]);
  cbv [bind get_code emit ret code cmem List.length app le32 map] in Hw; cbv zeta in Hw; simpl Z.of_nat in Hw;
  cbn [Z.eqb negb] in Hw; leb_in Hw; injection Hw as <-; cbv [code cmem] in *.
  all: match goal with |- context [run 5 _ _ (?f ?A) _] => remember (f A) as ra eqn:Hr end.
  1: do 2 xstep. 2: do 3 xstep. 3: do 3 xstep. 4: do 4 xstep.
  all: u64s; match goal with Hr : ?ra = ?f _ |- context [?f ?a =? ?ra] =>
    replace (f a) with ra by (rewrite Hr; f_equal; lia) end.
  all: rewrite Z.eqb_refl; eexists; (split; [reflexivity|]); cbn [regs reg_eqb];
    (split; [lia|]); (split; [f_equal; lia|]); intros Hc; try lia; f_equal; lia.
Qed.

(** X22: the code of if pops the condition and jumps to the if's branch target when its low 32 bits are zero, falling through otherwise. *)
Theorem if_result k env w w' m c :
  (s <- emit_if ;; fix_branch s (TLabel k)) w = Some (tt, w') -> pc m = code w ->
  0 <= get m RSP -> get m RSP + 8 < 2^64 -> mem m (get m RSP) = c ->
  exists m', get m' RSP = get m RSP + 8 /\
    run 4 env (cmem w') (code w') m = (if c mod 2^32 =? 0 then OExit k m' else ODone m').
Proof.
  destruct w as [cc cm0], m as [rg x mm z cf0 p lg sf0 of0 lm]. cbn [code cmem pc get regs mem] in *.
  intros Hw -> H0 H1 Hc. cbv [emit_if] in Hw.
  cbv [bind get_code emit ret code cmem List.length app le32 map emit_branch fix_branch] in Hw.
  cbv zeta in Hw. simpl Z.of_nat in Hw. injection Hw as <-. cbv [code cmem].
  do 3 xstep. u64s. rewrite Hc.
  destruct (c mod 2^32 =? 0); eexists; split; cycle 1.
  1: reflexivity. 2: xstep; reflexivity.
  all: reflexivity.
Qed.

Lemma testbit31_hi p : 0 <= p < 2^28 -> Z.testbit (2^31 + p) 31 = true.
Proof.
  intros H. replace (2^31 + p) with (p + 1 * 2^31) by lia.
  rewrite Z.testbit_true by lia. rewrite Z.div_add by lia.
  rewrite Z.div_small by lia. reflexivity.
Qed.

Lemma land_hi p : 0 <= p < 2^28 -> Z.land (2^31 + p) 0x70000000 = 0.
Proof.
  intros H. apply Z.bits_inj'. intros n Hn. rewrite Z.land_spec, Z.bits_0.
  destruct (Z.lt_ge_cases n 31) as [Hl|Hl].
  - rewrite <- (Z.mod_pow2_bits_low (2^31 + p) 31 n) by lia.
    replace ((2^31 + p) mod 2^31) with p
      by (replace (2^31 + p) with (p + 1 * 2^31) by lia; rewrite Z.mod_add by lia;
          rewrite Z.mod_small by lia; reflexivity).
    pose proof (land_small p H) as E.
    rewrite <- (Z.land_spec p 0x70000000), E, Z.bits_0. reflexivity.
  - rewrite (Z.bits_above_log2 0x70000000 n); [apply andb_false_r|lia|].
    apply Z.log2_lt_pow2; [lia|].
    apply Z.lt_le_trans with (2^31); [lia|apply Z.pow_le_mono_r; lia].
Qed.

Lemma s32_hi p : 0 <= p < 2^28 -> s32 ((2^31 + p) * 8) = p * 8.
Proof.
  intros H. unfold s32, u32.
  replace ((2^31 + p) * 8) with (p * 8 + 4 * 2^32) by lia.
  cbv zeta. rewrite Z.mod_add by lia. rewrite Z.mod_small by lia.
  replace (p * 8 <? 2^31) with true by (symmetry; apply Z.ltb_lt; lia). reflexivity.
Qed.

(** X23: br_if pops the condition; when its low 32 bits are zero it falls through, otherwise it drops p more words and jumps to the branch target, where p is depth_change without bit 31; when bit 31 is set the top word is saved and pushed back, so only the p - 1 words under it are lost. *)
Theorem br_if_result (keep : bool) p k env w w' m c :
  0 <= p < 2^28 ->
  (s <- emit_br_if ((if keep then 2^31 else 0) + p) ;; fix_branch s (TLabel k)) w = Some (tt, w') ->
  pc m = code w -> 0 <= get m RSP -> get m RSP + 8 + 8 * p < 2^64 -> mem m (get m RSP) = c ->
  0 <= mem m (get m RSP + 8) < 2^64 ->
  if c mod 2^32 =? 0 then
    exists m', run 8 env (cmem w') (code w') m = ODone m' /\ get m' RSP = get m RSP + 8
  else
    exists m', run 8 env (cmem w') (code w') m = OExit k m' /\
      if keep then get m' RSP = get m RSP + 8 * p /\ mem m' (get m' RSP) = mem m (get m RSP + 8)
      else get m' RSP = get m RSP + 8 + 8 * p.
Proof.
  destruct w as [cc cm0], m as [rg x mm z cf0 pc0 lg sf0 of0 lm]. cbn [code cmem pc get regs mem] in *.
  intros Hp Hw -> H0 H1 Hc Hv. cbv [emit_br_if] in Hw.
  destruct keep; [destruct (Z.eq_dec p 1) as [->|Hp1]|destruct (Z.eq_dec p 0) as [->|Hp0]].
  - replace ((2^31 + 1 =? 0) || (2^31 + 1 =? 0x80000001)) with true in Hw by reflexivity.
    cbv [bind get_code emit ret code cmem List.length app le32 map emit_branch fix_branch] in Hw.
    cbv zeta in Hw. simpl Z.of_nat in Hw. injection Hw as <-. cbv [code cmem].
    do 3 xstep. u64s. rewrite Hc.
    destruct (c mod 2^32 =? 0); cbn [negb]; xstep; eexists; (split; [reflexivity|]).
    all: cbn [regs mem]; try split; first [reflexivity | lia].
  - replace ((2^31 + p =? 0) || (2^31 + p =? 0x80000001)) with false in Hw
      by (symmetry; apply orb_false_iff; split; apply Z.eqb_neq; lia).
    unfold emit_multipop in Hw.
    replace ((0 <? 2^31 + p) && negb (2^31 + p =? 0x80000001)) with true in Hw
      by (symmetry; apply andb_true_iff; split; [apply Z.ltb_lt; lia|apply negb_true_iff, Z.eqb_neq; lia]).
    rewrite (testbit31_hi p Hp), (land_hi p Hp), (s32_hi p Hp) in Hw. cbn [Z.eqb negb] in Hw.
    cbv [bind get_code emit ret code cmem List.length app le32 map emit_branch fix_branch fix_here] in Hw.
    cbv zeta in Hw. simpl Z.of_nat in Hw. injection Hw as <-. cbv [code cmem].
    do 3 xstep. u64s. rewrite Hc.
    destruct (c mod 2^32 =? 0); cbn [negb]; [xstep|do 4 xstep]; u64s; eexists; (split; [reflexivity|]).
    all: cbn [regs mem reg_eqb]; try split; try rewrite Z.eqb_refl;
      try rewrite Z.mod_small by lia; first [reflexivity | lia].
  - replace ((0 + 0 =? 0) || (0 + 0 =? 0x80000001)) with true in Hw by reflexivity.
    cbv [bind get_code emit ret code cmem List.length app le32 map emit_branch fix_branch] in Hw.
    cbv zeta in Hw. simpl Z.of_nat in Hw. injection Hw as <-. cbv [code cmem].
    do 3 xstep. u64s. rewrite Hc.
    destruct (c mod 2^32 =? 0); cbn [negb]; xstep; eexists; (split; [reflexivity|]).
    all: cbn [regs mem]; try split; first [reflexivity | lia].
  - rewrite Z.add_0_l in *.
    replace ((p =? 0) || (p =? 0x80000001)) with false in Hw
      by (symmetry; apply orb_false_iff; split; apply Z.eqb_neq; lia).
    unfold emit_multipop in Hw.
    replace ((0 <? p) && negb (p =? 0x80000001)) with true in Hw
      by (symmetry; apply andb_true_iff; split; [apply Z.ltb_lt; lia|apply negb_true_iff, Z.eqb_neq; lia]).
    rewrite (testbit31_small p ltac:(lia)), (land_small p Hp), (s32_small (p * 8) ltac:(lia)) in Hw.
    cbn [Z.eqb negb] in Hw.
    cbv [bind get_code emit ret code cmem List.length app le32 map emit_branch fix_branch fix_here] in Hw.
    cbv zeta in Hw. simpl Z.of_nat in Hw. injection Hw as <-. cbv [code cmem].
    do 3 xstep. u64s. rewrite Hc.
    destruct (c mod 2^32 =? 0); cbn [negb]; [xstep|do 2 xstep]; u64s; eexists; (split; [reflexivity|]).
    all: cbn [regs mem reg_eqb]; lia.
Qed.

(** ** Witnesses of the further properties *)

Ltac whyp := first [ lia | vm_compute; first [ reflexivity | congruence | split; congruence ] ].

Lemma i32_relop_result_witness :
  returns_top (run 7 null_env (cmem (emitted (i32_relop_emitter RelLtS) (empty_code 0)))
                 (code (emitted (i32_relop_emitter RelLtS) (empty_code 0)))
                 (stack_machine 4088 0 [5; 2^32 - 1])) 4096 1.
Proof.
  exact (i32_relop_result RelLtS null_env (empty_code 0) _ (stack_machine 4088 0 [5; 2^32 - 1])
           (2^32 - 1) 5 ltac:(whyp) eq_refl ltac:(whyp) ltac:(whyp) ltac:(whyp) ltac:(whyp)).
Defined.

Lemma i64_relop_result_witness :
  returns_top (run 7 null_env (cmem (emitted (i64_relop_emitter RelLtS) (empty_code 0)))
                 (code (emitted (i64_relop_emitter RelLtS) (empty_code 0)))
                 (stack_machine 4088 0 [1; 2^64 - 1])) 4096 1.
Proof.
  exact (i64_relop_result RelLtS null_env (empty_code 0) _ (stack_machine 4088 0 [1; 2^64 - 1])
           (2^64 - 1) 1 ltac:(whyp) eq_refl ltac:(whyp) ltac:(whyp) ltac:(whyp) ltac:(whyp)).
Defined.

Lemma i32_binop_result_witness :
  returns_top (run 5 null_env (cmem (emitted (i32_binop_emitter BinRotl) (empty_code 0)))
                 (code (emitted (i32_binop_emitter BinRotl) (empty_code 0)))
                 (stack_machine 4088 0 [1; 0x80000001])) 4096 3.
Proof.
  exact (i32_binop_result BinRotl null_env (empty_code 0) _ (stack_machine 4088 0 [1; 0x80000001])
           0x80000001 1 ltac:(whyp) eq_refl ltac:(whyp) ltac:(whyp) ltac:(whyp) ltac:(whyp)).
Defined.

Lemma i64_binop_result_witness :
  returns_top (run 5 null_env (cmem (emitted (i64_binop_emitter BinShrS) (empty_code 0)))
                 (code (emitted (i64_binop_emitter BinShrS) (empty_code 0)))
                 (stack_machine 4088 0 [65; 2^64 - 8])) 4096 (2^64 - 4).
Proof.
  exact (i64_binop_result BinShrS null_env (empty_code 0) _ (stack_machine 4088 0 [65; 2^64 - 8])
           (2^64 - 8) 65 ltac:(whyp) eq_refl ltac:(whyp) ltac:(whyp) ltac:(whyp) ltac:(whyp)).
Defined.

Lemma unsigned_div_rem_result_witness :
  run 6 null_env (cmem (emitted emit_i32_div_u (empty_code 0)))
    (code (emitted emit_i32_div_u (empty_code 0))) (stack_machine 4088 0 [2^32; 7])
  = OFault DivideError.
Proof.
  exact (proj1 (unsigned_div_rem_result null_env (empty_code 0) (stack_machine 4088 0 [2^32; 7])
                  7 (2^32) eq_refl ltac:(whyp) ltac:(whyp) ltac:(whyp) ltac:(whyp))
           _ ltac:(whyp)).
Defined.

Lemma eqz_result_witness :
  returns_top (run 6 null_env (cmem (emitted emit_i32_eqz (empty_code 0)))
                 (code (emitted emit_i32_eqz (empty_code 0)))
                 (stack_machine 4088 0 [2^32])) 4088 1.
Proof.
  exact (proj1 (eqz_result null_env (empty_code 0) (stack_machine 4088 0 [2^32])
                  (2^32) eq_refl ltac:(whyp) ltac:(whyp) ltac:(whyp)) _ ltac:(whyp)).
Defined.

Lemma clz_result_witness :
  returns_top (run 8 null_env (cmem (emitted (emit_i32_clz false) (empty_code 0)))
                 (code (emitted (emit_i32_clz false) (empty_code 0)))
                 (stack_machine 4088 0 [0])) 4088 32.
Proof.
  exact (proj1 (clz_result false null_env (empty_code 0) (stack_machine 4088 0 [0])
                  0 eq_refl ltac:(whyp) ltac:(whyp) ltac:(whyp)) _ ltac:(whyp)).
Defined.

Lemma ctz_result_witness :
  returns_top (run 6 null_env (cmem (emitted (emit_i64_ctz false) (empty_code 0)))
                 (code (emitted (emit_i64_ctz false) (empty_code 0)))
                 (stack_machine 4088 0 [0])) 4088 64.
Proof.
  exact (proj2 (ctz_result false null_env (empty_code 0) (stack_machine 4088 0 [0])
                  0 eq_refl ltac:(whyp) ltac:(whyp) ltac:(whyp)) _ ltac:(whyp)).
Defined.

Lemma select_result_witness :
  returns_top (run 6 null_env (cmem (emitted emit_select (empty_code 0)))
                 (code (emitted emit_select (empty_code 0)))
                 (stack_machine 4088 0 [0; 20; 10])) 4104 20.
Proof.
  exact (select_result null_env (empty_code 0) _ (stack_machine 4088 0 [0; 20; 10]) 0 20 10
           ltac:(whyp) eq_refl ltac:(whyp) ltac:(whyp) ltac:(whyp) ltac:(whyp) ltac:(whyp)).
Defined.

Lemma int_conversions_result_witness :
  returns_top (run 3 null_env (cmem (emitted emit_i64_extend_s_i32 (empty_code 0)))
                 (code (emitted emit_i64_extend_s_i32 (empty_code 0)))
                 (stack_machine 4088 0 [2^31])) 4088 (2^64 - 2^31).
Proof.
  exact (proj2 (int_conversions_result null_env (empty_code 0) (stack_machine 4088 0 [2^31])
                  (2^31) eq_refl ltac:(whyp) ltac:(whyp) ltac:(whyp)) _ ltac:(whyp)).
Defined.

Lemma float_sign_ops_result_witness :
  returns_top (run 5 null_env (cmem (emitted emit_f64_neg (empty_code 0)))
                 (code (emitted emit_f64_neg (empty_code 0)))
                 (stack_machine 4088 0 [0; 0])) 4088 (2^63).
Proof.
  exact (proj1 (proj2 (proj2 (proj2 (proj2
           (float_sign_ops_result null_env (empty_code 0) (stack_machine 4088 0 [0; 0])
              0 0 eq_refl ltac:(whyp) ltac:(whyp) ltac:(whyp) ltac:(whyp))))))
           _ ltac:(whyp)).
Defined.

Lemma float_relop_result_witness :
  returns_top (run 7 null_env (cmem (emitted (f32_relop_emitter FEq) (empty_code 0)))
                 (code (emitted (f32_relop_emitter FEq) (empty_code 0)))
                 (stack_machine 4088 0 [0x7FC00000; 0x7FC00000])) 4096 0.
Proof.
  exact (proj1 (float_relop_result FEq null_env (empty_code 0)
                  (stack_machine 4088 0 [0x7FC00000; 0x7FC00000]) 0x7FC00000 0x7FC00000
                  eq_refl ltac:(whyp) ltac:(whyp) ltac:(whyp) ltac:(whyp)) _ ltac:(whyp)).
Defined.

Lemma load_result_witness :
  returns_top (run 7 null_env (cmem (emitted (emit_i32_load8_s 5) (empty_code 0)))
                 (code (emitted (emit_i32_load8_s 5) (empty_code 0))) lin_machine)
    4088 (2^32 - 0x80).
Proof.
  exact (load_result 5 [0x0f; 0xbe; 0x00] 1 true 32 null_env (empty_code 0) _ lin_machine 4
           ltac:(whyp) ltac:(discriminate) ltac:(whyp) eq_refl ltac:(whyp) ltac:(whyp) ltac:(whyp)).
Defined.

Lemma store_result_witness :
  exists m', run 7 null_env (cmem (emitted (emit_i32_store (2^31)) (empty_code 0)))
               (code (emitted (emit_i32_store (2^31)) (empty_code 0)))
               (stack_machine 4088 0 [7; 16]) = ODone m' /\
    get m' RSP = 4104 /\ lmem m' = store_le (fun _ => 0) (16 + 2^31) (2^31) 4.
Proof.
  exact (store_result (2^31) [0x89; 0x08] 4 null_env (empty_code 0) _ (stack_machine 4088 0 [7; 16])
           16 7 ltac:(whyp) ltac:(discriminate) ltac:(whyp) eq_refl ltac:(whyp) ltac:(whyp)
           ltac:(whyp) ltac:(whyp)).
Defined.

Lemma global_round_trip_witness :
  returns_top (run 7 null_env (cmem (emitted (emit_set_global 64 ;; emit_get_global i32 64) (empty_code 0)))
                 (code (emitted (emit_set_global 64 ;; emit_get_global i32 64) (empty_code 0)))
                 (stack_machine 4088 0 [2^32 + 5])) 4088 5.
Proof.
  exact (global_round_trip i32 64 null_env (empty_code 0) _ (stack_machine 4088 0 [2^32 + 5]) (2^32 + 5)
           ltac:(whyp) eq_refl ltac:(whyp) ltac:(whyp) ltac:(whyp)).
Defined.

Lemma locals_result_witness :
  exists m', run 3 null_env (cmem (emitted (emit_set_local 1 0) (empty_code 0)))
               (code (emitted (emit_set_local 1 0) (empty_code 0)))
               (stack_machine 4088 0 [9]) = ODone m' /\
    get m' RSP = 4096 /\ mem m' 16 = 9 /\
    forall a, a <> 16 -> mem m' a = mem (stack_machine 4088 0 [9]) a.
Proof.
  exact (proj1 (proj2 (locals_result 1 0 null_env (empty_code 0) (stack_machine 4088 0 [9]) 9
                         ltac:(whyp) ltac:(whyp) eq_refl ltac:(whyp) ltac:(whyp) ltac:(whyp)))
           _ ltac:(whyp)).
Defined.

Lemma local_round_trip_witness :
  returns_top (run 5 null_env (cmem (emitted (emit_set_local 0 3 ;; emit_get_local 0 3) (empty_code 0)))
                 (code (emitted (emit_set_local 0 3 ;; emit_get_local 0 3) (empty_code 0)))
                 (stack_machine 4088 0 [11])) 4088 11.
Proof.
  exact (local_round_trip 0 3 null_env (empty_code 0) _ (stack_machine 4088 0 [11]) 11
           ltac:(whyp) eq_refl ltac:(whyp) ltac:(whyp) ltac:(whyp)).
Defined.

Lemma prologue_fails_witness : emit_prologue [0xFFFFFFFF; 1] (empty_code 0) = None.
Proof.
  exact (proj2 (prologue_fails [0xFFFFFFFF; 1] (empty_code 0)
                  ltac:(repeat constructor; lia)) ltac:(whyp)).
Defined.

Lemma epilogue_fails_witness : emit_epilogue (mkFuncType 0 1) (2^28) (empty_code 0) = None.
Proof.
  exact (proj2 (epilogue_fails (mkFuncType 0 1) (2^28) (empty_code 0) ltac:(whyp)) ltac:(whyp)).
Defined.

Lemma prologue_result_witness :
  exists m', run 12 null_env (cmem prologue_code) (code prologue_code) (stack_machine 4096 0 []) = ODone m' /\
    get m' RBP = 4088 /\ get m' RSP = 4072 /\ mem m' 4080 = 0 /\ mem m' 4072 = 0.
Proof.
  destruct (prologue_result [2] null_env (empty_code 0) prologue_code (stack_machine 4096 0 []) 2
              ltac:(repeat constructor; lia) ltac:(whyp) eq_refl ltac:(whyp))
    as [_ (m' & R & B & _ & S & Z & _)].
  exists m'. split; [apply R; lia|]. split; [exact B|]. split; [exact S|].
  split; [exact (Z 1 ltac:(lia))|exact (Z 2 ltac:(lia))].
Defined.

Lemma epilogue_result_witness :
  exists m', run 5 null_env (cmem epilogue_code) 1000 (stack_machine 4080 0 [0; 77; 1000]) = ODone m' /\
    get m' RSP = 4104 /\ get m' RBP = 77.
Proof.
  destruct (epilogue_result (mkFuncType 0 0) 1 null_env (empty_code 0) epilogue_code
              (stack_machine 4080 0 [0; 77; 1000]) ltac:(whyp) ltac:(whyp) eq_refl ltac:(whyp) ltac:(whyp)
              ltac:(right; whyp)) as (m' & R & S & B & _).
  exists m'. split; [exact R|]. split; [exact S|exact B].
Defined.

Lemma if_result_witness :
  exists m', get m' RSP = 4096 /\
    run 4 null_env (cmem (emitted (s <- emit_if ;; fix_branch s (TLabel 3)) (empty_code 0)))
      (code (emitted (s <- emit_if ;; fix_branch s (TLabel 3)) (empty_code 0)))
      (stack_machine 4088 0 [2^32]) = OExit 3 m'.
Proof.
  exact (if_result 3 null_env (empty_code 0) _ (stack_machine 4088 0 [2^32]) (2^32)
           ltac:(whyp) eq_refl ltac:(whyp) ltac:(whyp) ltac:(whyp)).
Defined.

Lemma br_if_result_witness :
  exists m', run 8 null_env (cmem (emitted (s <- emit_br_if (2^31 + 2) ;; fix_branch s (TLabel 0)) (empty_code 0)))
               (code (emitted (s <- emit_br_if (2^31 + 2) ;; fix_branch s (TLabel 0)) (empty_code 0)))
               (stack_machine 4088 0 [1; 42; 0; 0]) = OExit 0 m' /\
    get m' RSP = 4104 /\ mem m' (get m' RSP) = 42.
Proof.
  exact (br_if_result true 2 0 null_env (empty_code 0) _ (stack_machine 4088 0 [1; 42; 0; 0]) 1
           ltac:(whyp) ltac:(whyp) eq_refl ltac:(whyp) ltac:(whyp) ltac:(whyp) ltac:(whyp)).
Defined.
